(** * haploid_gt_dis: the low-dimensional population engine of ffpopsim

    A shallow embedding of [src/src/haploid_gt_dis.cpp] and the properties of
    its genetic operators.

    Conventions of the embedding.
    - A C++ [double] is read as a real number ([R]): the arithmetic is exact,
      a property that holds "within floating-point tolerance" is stated as
      an equality.
    - A C++ [int] that indexes genotypes, loci or partitions is a [nat]; the
      embedding is exact while [1<<number_of_loci] does not overflow an
      [int] (at most 30 loci).  Return codes and the generation counter are
      integers ([Z]).
    - A heap array of doubles is a total function from indices; only the
      indices the code allocates carry meaning.
    - A [for] loop over [lo <= i < lo+n] is a left fold over [seq lo n];
      an assignment to an array cell is a pointwise update.
    - Infinities and NaN have no counterpart.  Where the code divides by
      zero or takes the square root of a negative number it computes with
      them, and [Rdiv] and [sqrt] give another value: the reading of the
      doubles as reals is the code's arithmetic only where every divisor is
      not zero and every square root has a non-negative argument.  The
      statements about values carry the hypotheses that keep the code there
      (a non-zero normalization sum in [select], a positive target size and
      a non-negative [HG_CONTINUOUS] in [resample]). *)

From Stdlib Require Import Reals Lra Lia ZArith List Bool Arith PeanoNat FinFun
  FunctionalExtensionality.
Import ListNotations.

Local Open Scope R_scope.

(** ** Arrays and loops *)

Definition darray := nat -> R.

Definition upd (a : darray) (i : nat) (v : R) : darray :=
  fun k => if Nat.eqb k i then v else a k.

Definition dtable := nat -> nat -> R.

Definition upd2 (t : dtable) (i j : nat) (v : R) : dtable :=
  fun k => if Nat.eqb k i then upd (t i) j v else t k.

Definition for_range {S : Type} (lo n : nat) (body : nat -> S -> S) (s : S) : S :=
  fold_left (fun acc i => body i acc) (seq lo n) s.

(** [i & (1<<k)] used as a condition. *)
Definition has_bit (i k : nat) : bool :=
  negb (Nat.eqb (Nat.land i (Nat.shiftl 1 k)) 0).

(** Sum of a list of reals, and of the first [n] cells of an array. *)
Definition Rsum (l : list R) : R := fold_right Rplus 0 l.

Definition sum_upto (n : nat) (a : darray) : R := Rsum (map a (seq 0 n)).

(** ** The hypercube container *)

(** Modelled from the spec: the header that defines the state macros
    [HC_FUNC] and [HC_COEFF] is not among the sources; the spec (section 3)
    gives the tag as one of FUNC, COEFF, UNKNOWN. *)
Inductive hc_state : Type := HC_FUNC | HC_COEFF | HC_UNKNOWN.

(** Modelled from the spec: the class [hypercube] (hypercube.cpp and its
    declaration) is not among the sources.  [haploid_gt_dis.cpp] reads and
    writes two separate members, [func] and [coeff], and uses [func] right
    after [fft_func_to_coeff()] (see [recombine]); so the two representations
    are two arrays and each transform fills one from the other. *)
Record hypercube : Type := mk_hypercube {
  state : hc_state;
  func : darray;
  coeff : darray
}.

(** Modelled from the spec: [hypercube::set_state], "pure bookkeeping, no
    data movement". *)
Definition set_state (h : hypercube) (s : hc_state) : hypercube :=
  mk_hypercube s (func h) (coeff h).

Definition get_state (h : hypercube) : hc_state := state h.

(** Modelled from the spec: [hypercube::get_func], the accessor. *)
Definition get_func (h : hypercube) (i : nat) : R := func h i.

Definition set_func (h : hypercube) (f : darray) : hypercube :=
  mk_hypercube (state h) f (coeff h).

Definition set_coeff (h : hypercube) (c : darray) : hypercube :=
  mk_hypercube (state h) (func h) c.

(** Modelled from the spec: [hypercube::scale], "multiplies all values
    (whichever representation is active) by a scalar". *)
Definition scale (h : hypercube) (s : R) : hypercube :=
  match state h with
  | HC_FUNC => set_func h (fun i => func h i * s)
  | HC_COEFF => set_coeff h (fun i => coeff h i * s)
  | HC_UNKNOWN => h
  end.

(** Modelled from the spec: [hypercube.order[i]], the "precomputed popcount"
    of index [i]: how many of the [L] loci are set in [i]. *)
Definition order (L i : nat) : nat :=
  length (filter (Nat.testbit i) (seq 0 L)).

(** Modelled from the spec: the return type [stat_t] of the statistics
    (declared in the absent popgen.h), a mean and a variance, built as
    [stat_t(mean, variance)]. *)
Record stat_t : Type := mk_stat_t { mean : R; variance : R }.

(** ** The engine *)

(** What the engine takes from outside [haploid_gt_dis.cpp].
    - The random number generator of the GSL: its state is an opaque value
      of type [gsl_rng] threaded through the draws.
    - The two transforms of the hypercube (hypercube.cpp is not among the
      sources): given the number of loci, [func_to_coeff] computes the
      coefficient array of a function array, [coeff_to_func] the converse.
    - The macros of the absent header popgen_lowd.h.
    - The default argument of [resample(double n)], given in the absent
      declaration ([evolve] calls [resample()]). *)
Record hg_env (gsl_rng : Type) : Type := mk_hg_env {
  gsl_ran_poisson : gsl_rng -> R -> nat * gsl_rng;
  gsl_ran_gaussian : gsl_rng -> R -> R * gsl_rng;
  func_to_coeff : nat -> darray -> darray;
  coeff_to_func : nat -> darray -> darray;
  HG_MEMERR : Z;
  HG_BADARG : Z;
  HG_EXTINCT : Z;
  HG_LONGTIMEGEN : Z;
  HG_CONTINUOUS : Z;
  HG_NOTHING : R;
  resample_default : R
}.

Arguments gsl_ran_poisson {gsl_rng} _ _ _.
Arguments gsl_ran_gaussian {gsl_rng} _ _ _.
Arguments func_to_coeff {gsl_rng} _ _ _.
Arguments coeff_to_func {gsl_rng} _ _ _.
Arguments HG_MEMERR {gsl_rng} _.
Arguments HG_BADARG {gsl_rng} _.
Arguments HG_EXTINCT {gsl_rng} _.
Arguments HG_LONGTIMEGEN {gsl_rng} _.
Arguments HG_CONTINUOUS {gsl_rng} _.
Arguments HG_NOTHING {gsl_rng} _.
Arguments resample_default {gsl_rng} _.

Record haploid_gt_dis (gsl_rng : Type) : Type := mk_haploid_gt_dis {
  mem : bool;
  free_recombination : bool;
  outcrossing_rate : R;
  generation : Z;
  long_time_generation : R;
  circular : bool;
  number_of_loci : nat;
  population_size : R;
  rng : gsl_rng;
  fitness : hypercube;
  population : hypercube;
  mutants : hypercube;
  recombinants : hypercube;
  mutation_rates : dtable;
  recombination_patters : dtable
}.

Arguments mk_haploid_gt_dis {gsl_rng} _ _ _ _ _ _ _ _ _ _ _ _ _ _ _.
Arguments mem {gsl_rng} _.
Arguments free_recombination {gsl_rng} _.
Arguments outcrossing_rate {gsl_rng} _.
Arguments generation {gsl_rng} _.
Arguments long_time_generation {gsl_rng} _.
Arguments circular {gsl_rng} _.
Arguments number_of_loci {gsl_rng} _.
Arguments population_size {gsl_rng} _.
Arguments rng {gsl_rng} _.
Arguments fitness {gsl_rng} _.
Arguments population {gsl_rng} _.
Arguments mutants {gsl_rng} _.
Arguments recombinants {gsl_rng} _.
Arguments mutation_rates {gsl_rng} _.
Arguments recombination_patters {gsl_rng} _.

Section Engine.

Context {gsl_rng : Type}.

Local Abbreviation engine := (haploid_gt_dis gsl_rng).

(** Modelled from the spec: [hypercube::fft_func_to_coeff]; the function
    array is kept, the coefficient array is computed from it and becomes the
    authoritative one. *)
Definition fft_func_to_coeff (X : hg_env gsl_rng) (L : nat) (h : hypercube) : hypercube :=
  mk_hypercube HC_COEFF (func h) (func_to_coeff X L (func h)).

(** Modelled from the spec: [hypercube::fft_coeff_to_func], the converse. *)
Definition fft_coeff_to_func (X : hg_env gsl_rng) (L : nat) (h : hypercube) : hypercube :=
  mk_hypercube HC_FUNC (coeff_to_func X L (coeff h)) (coeff h).

Definition with_population (e : engine) (p : hypercube) : engine :=
  mk_haploid_gt_dis (mem e) (free_recombination e) (outcrossing_rate e)
    (generation e) (long_time_generation e) (circular e) (number_of_loci e)
    (population_size e) (rng e) (fitness e) p (mutants e) (recombinants e)
    (mutation_rates e) (recombination_patters e).

Definition with_mutants (e : engine) (m : hypercube) : engine :=
  mk_haploid_gt_dis (mem e) (free_recombination e) (outcrossing_rate e)
    (generation e) (long_time_generation e) (circular e) (number_of_loci e)
    (population_size e) (rng e) (fitness e) (population e) m (recombinants e)
    (mutation_rates e) (recombination_patters e).

Definition with_recombinants (e : engine) (r : hypercube) : engine :=
  mk_haploid_gt_dis (mem e) (free_recombination e) (outcrossing_rate e)
    (generation e) (long_time_generation e) (circular e) (number_of_loci e)
    (population_size e) (rng e) (fitness e) (population e) (mutants e) r
    (mutation_rates e) (recombination_patters e).

Definition with_rng (e : engine) (g : gsl_rng) : engine :=
  mk_haploid_gt_dis (mem e) (free_recombination e) (outcrossing_rate e)
    (generation e) (long_time_generation e) (circular e) (number_of_loci e)
    (population_size e) g (fitness e) (population e) (mutants e)
    (recombinants e) (mutation_rates e) (recombination_patters e).

Definition with_mutation_rates (e : engine) (m : dtable) : engine :=
  mk_haploid_gt_dis (mem e) (free_recombination e) (outcrossing_rate e)
    (generation e) (long_time_generation e) (circular e) (number_of_loci e)
    (population_size e) (rng e) (fitness e) (population e) (mutants e)
    (recombinants e) m (recombination_patters e).

Definition with_recombination_patters (e : engine) (t : dtable) : engine :=
  mk_haploid_gt_dis (mem e) (free_recombination e) (outcrossing_rate e)
    (generation e) (long_time_generation e) (circular e) (number_of_loci e)
    (population_size e) (rng e) (fitness e) (population e) (mutants e)
    (recombinants e) (mutation_rates e) t.

Definition with_free_recombination (e : engine) (b : bool) : engine :=
  mk_haploid_gt_dis (mem e) b (outcrossing_rate e)
    (generation e) (long_time_generation e) (circular e) (number_of_loci e)
    (population_size e) (rng e) (fitness e) (population e) (mutants e)
    (recombinants e) (mutation_rates e) (recombination_patters e).

Definition with_generation (e : engine) (g : Z) (lt : R) : engine :=
  mk_haploid_gt_dis (mem e) (free_recombination e) (outcrossing_rate e)
    g lt (circular e) (number_of_loci e)
    (population_size e) (rng e) (fitness e) (population e) (mutants e)
    (recombinants e) (mutation_rates e) (recombination_patters e).

(** *** Selection *)

Definition select_step (fit : darray) (i : nat) (st : darray * R) : darray * R :=
  let (f, norm) := st in
  let f' := upd f i (f i * exp (fit i)) in
  (f', norm + f' i).

Definition select (e : engine) : Z * engine :=
  let pop := set_state (population e) HC_FUNC in
  let (f, norm) :=
    for_range 0 (Nat.shiftl 1 (number_of_loci e))
      (select_step (func (fitness e))) (func pop, 0) in
  let pop := scale (set_func pop f) (1 / norm) in
  (0%Z, with_population e pop).

(** *** Resampling *)

Definition resample_step (X : hg_env gsl_rng) (pop_size threshold : R) (i : nat)
    (st : darray * R * gsl_rng) : darray * R * gsl_rng :=
  let '(f, norm, g) := st in
  let '(v, g') :=
    if Rlt_dec (f i) threshold then
      let (k, g') := gsl_ran_poisson X g (pop_size * f i) in
      (INR k / pop_size, g')
    else
      let (x, g') := gsl_ran_gaussian X g (sqrt (f i / pop_size)) in
      (f i + x, g') in
  (upd f i v, norm + v, g').

(** The body of [resample] once the target size [pop_size] is chosen.

    The reals are the doubles of the code for [pop_size > 0] and
    [HG_CONTINUOUS >= 0]: the two quotients by [pop_size] have a non-zero
    divisor, and a cell that takes the Gaussian branch is at least
    [HG_CONTINUOUS/pop_size >= 0], so that the square root has a
    non-negative argument.  For [pop_size <= 0] the code computes with
    infinities and NaN (at [pop_size = 0] the threshold is [+inf], every
    cell takes the Poisson branch and becomes [0/0]), which this definition
    does not follow: what is stated about the values that [resample] leaves
    is stated for a positive target size. *)
Definition resample_at (X : hg_env gsl_rng) (pop_size : R) (e : engine) : Z * engine :=
  let pop := set_state (population e) HC_FUNC in
  let threshold_HG_CONTINUOUS := IZR (HG_CONTINUOUS X) / pop_size in
  let '(f, norm, g) :=
    for_range 0 (Nat.shiftl 1 (number_of_loci e))
      (resample_step X pop_size threshold_HG_CONTINUOUS) (func pop, 0, rng e) in
  let e' := with_rng (with_population e (set_func pop f)) g in
  if Rlt_dec norm (HG_NOTHING X) then (HG_EXTINCT X, e')
  else (0%Z, with_population e' (scale (set_func pop f) (1 / norm))).

Definition resample (X : hg_env gsl_rng) (n : R) (e : engine) : Z * engine :=
  let pop_size := if Rlt_dec n 1 then population_size e else n in
  resample_at X pop_size e.

(** *** Mutation *)

Definition mutate_locus (rates : dtable) (p : darray) (i locus : nat) (m : darray) : darray :=
  if has_bit i locus then
    upd m i (m i + (rates 0%nat locus * p (i - Nat.shiftl 1 locus)%nat
                    - rates 1%nat locus * p i))
  else
    upd m i (m i + (rates 1%nat locus * p (i + Nat.shiftl 1 locus)%nat
                    - rates 0%nat locus * p i)).

Definition mutate_genotype (L : nat) (rates : dtable) (p : darray) (i : nat) (m : darray) : darray :=
  for_range 0 L (mutate_locus rates p i) (upd m i 0).

Definition mutate (e : engine) : Z * engine :=
  let L := number_of_loci e in
  let mut := set_state (mutants e) HC_FUNC in
  let pop := set_state (population e) HC_FUNC in
  let m := for_range 0 (Nat.shiftl 1 L)
             (mutate_genotype L (mutation_rates e) (func pop)) (func mut) in
  let f := for_range 0 (Nat.shiftl 1 L)
             (fun i f => upd f i (f i + m i)) (func pop) in
  (0%Z, with_mutants (with_population e (set_func pop f)) (set_func mut m)).

(** *** Recombination *)

(** One turn of the loop over [k] that builds [maternal_alleles] and
    [paternal_alleles] for the subset [i] and the partition number [j];
    the state is [(count, maternal_alleles, paternal_alleles)]. *)
Definition build_alleles_step (i j k : nat) (st : nat * nat * nat) : nat * nat * nat :=
  let '(count, maternal_alleles, paternal_alleles) := st in
  if has_bit i k then
    if has_bit j count
    then (S count, (maternal_alleles + Nat.shiftl 1 k)%nat, paternal_alleles)
    else (S count, maternal_alleles, (paternal_alleles + Nat.shiftl 1 k)%nat)
  else st.

Definition build_alleles (L i j : nat) : nat * nat * nat :=
  for_range 0 L (build_alleles_step i j) (0%nat, 0%nat, 0%nat).

Definition maternal_alleles (L i j : nat) : nat := snd (fst (build_alleles L i j)).
Definition paternal_alleles (L i j : nat) : nat := snd (build_alleles L i j).

Definition free_partition_step (L : nat) (pc : darray) (i j : nat) (rc : darray) : darray :=
  upd rc i (rc i + pc (maternal_alleles L i j) * pc (paternal_alleles L i j)).

Definition free_coefficient_step (L : nat) (pc : darray) (i : nat) (rc : darray) : darray :=
  let rc := upd rc i 0 in
  let rc := for_range 0 (Nat.shiftl 1 (order L i)) (free_partition_step L pc i) rc in
  upd rc i (rc i * (1 * INR (Nat.shiftl 1 (L - order L i)))).

(** The coefficient array of [recombinants] when the loop over [i] of
    [calculate_recombinants_free] ends; [pc] is [population.coeff] and [rc]
    the array as the function finds it. *)
Definition free_coefficients (L : nat) (pc rc : darray) : darray :=
  let rc := upd rc 0 (1 / INR (Nat.shiftl 1 L)) in
  for_range 1 (Nat.shiftl 1 L - 1) (free_coefficient_step L pc) rc.

Definition calculate_recombinants_free (X : hg_env gsl_rng) (e : engine) : Z * engine :=
  let L := number_of_loci e in
  let pop := fft_func_to_coeff X L (population e) in
  let rec := set_state (recombinants e) HC_COEFF in
  let rec := set_coeff rec (free_coefficients L (coeff pop) (coeff rec)) in
  let rec := fft_coeff_to_func X L rec in
  (0%Z, with_recombinants (with_population e pop) rec).

Definition general_partition_step (L : nat) (patterns : dtable) (pc : darray) (i j : nat)
    (rc : darray) : darray :=
  upd rc i (rc i + patterns i j * pc (maternal_alleles L i j) * pc (paternal_alleles L i j)).

Definition general_coefficient_step (L : nat) (patterns : dtable) (pc : darray) (i : nat)
    (rc : darray) : darray :=
  let rc := upd rc i 0 in
  let rc := for_range 0 (Nat.shiftl 1 (order L i)) (general_partition_step L patterns pc i) rc in
  upd rc i (rc i * INR (Nat.shiftl 1 L)).

Definition general_coefficients (L : nat) (patterns : dtable) (pc rc : darray) : darray :=
  let rc := upd rc 0 (1 / INR (Nat.shiftl 1 L)) in
  for_range 1 (Nat.shiftl 1 L - 1) (general_coefficient_step L patterns pc) rc.

Definition calculate_recombinants_general (X : hg_env gsl_rng) (e : engine) : Z * engine :=
  let L := number_of_loci e in
  let pop := fft_func_to_coeff X L (population e) in
  let rec := set_state (recombinants e) HC_COEFF in
  let rec := set_coeff rec
               (general_coefficients L (recombination_patters e) (coeff pop) (coeff rec)) in
  let rec := fft_coeff_to_func X L rec in
  (0%Z, with_recombinants (with_population e pop) rec).

Definition calculate_recombinants (X : hg_env gsl_rng) (e : engine) : Z * engine :=
  if free_recombination e then calculate_recombinants_free X e
  else calculate_recombinants_general X e.

Definition recombine (X : hg_env gsl_rng) (e : engine) : Z * engine :=
  let (err, e) := calculate_recombinants X e in
  let pop := set_state (population e) HC_FUNC in
  let rf := func (recombinants e) in
  let f :=
    if free_recombination e then
      for_range 0 (Nat.shiftl 1 (number_of_loci e))
        (fun i f => upd f i (f i + outcrossing_rate e * (rf i - f i))) (func pop)
    else
      for_range 0 (Nat.shiftl 1 (number_of_loci e))
        (fun i f => upd f i (rf i)) (func pop) in
  (err, with_population e (set_func pop f)).

(** *** Setting the mutation rates: the four overloads *)

(** [set_mutation_rate(double m)] *)
Definition set_mutation_rate (X : hg_env gsl_rng) (m : R) (e : engine) : Z * engine :=
  if mem e then
    let rates :=
      for_range 0 2 (fun fb rates =>
        for_range 0 (number_of_loci e) (fun locus rates => upd2 rates fb locus m) rates)
        (mutation_rates e) in
    (0%Z, with_mutation_rates e rates)
  else (HG_MEMERR X, e).

(** [set_mutation_rate(double mforward, double mbackward)] *)
Definition set_mutation_rate_fb (X : hg_env gsl_rng) (mforward mbackward : R) (e : engine)
    : Z * engine :=
  if mem e then
    let rates :=
      for_range 0 (number_of_loci e) (fun locus rates =>
        upd2 (upd2 rates 0 locus mforward) 1 locus mbackward) (mutation_rates e) in
    (0%Z, with_mutation_rates e rates)
  else (HG_MEMERR X, e).

(** [set_mutation_rate(double* m)] *)
Definition set_mutation_rate_loci (X : hg_env gsl_rng) (m : darray) (e : engine) : Z * engine :=
  if mem e then
    let rates :=
      for_range 0 (number_of_loci e) (fun locus rates =>
        upd2 (upd2 rates 0 locus (m locus)) 1 locus (m locus)) (mutation_rates e) in
    (0%Z, with_mutation_rates e rates)
  else (HG_MEMERR X, e).

(** [set_mutation_rate(double** m)] *)
Definition set_mutation_rate_table (X : hg_env gsl_rng) (m : dtable) (e : engine) : Z * engine :=
  if mem e then
    let rates :=
      for_range 0 2 (fun fb rates =>
        for_range 0 (number_of_loci e) (fun locus rates => upd2 rates fb locus (m fb locus)) rates)
        (mutation_rates e) in
    (0%Z, with_mutation_rates e rates)
  else (HG_MEMERR X, e).

(** *** Fitness statistics *)

Definition fitness_statistics_step (p fit : hypercube) (locus : nat) (st : R * R) : R * R :=
  let (mf, sq) := st in
  let temp := get_func p locus * get_func fit locus in
  (mf + temp, sq + temp * temp).

Definition get_fitness_statistics (X : hg_env gsl_rng) (e : engine) : stat_t * engine :=
  let pop :=
    match get_state (population e) with
    | HC_COEFF => fft_coeff_to_func X (number_of_loci e) (population e)
    | _ => population e
    end in
  let (mf, sq) :=
    for_range 0 (Nat.shiftl 1 (number_of_loci e))
      (fitness_statistics_step pop (fitness e)) (0, 0) in
  (mk_stat_t mf (sq - mf), with_population e pop).

(** *** The recombination patterns *)

(** What the allocations at the start of [set_recombination_rates] may
    give: no room for [nspins], or the rows of the pattern table, [failed]
    of them null, with whatever content [fresh] the new storage has.  The
    length of the rows ([1<<nspins[i]] cells for the subset [i]) is not kept:
    the table is a total function. *)
Inductive new_outcome : Type :=
| nspins_null
| rows_allocated (failed : nat) (fresh : dtable).

(** One turn of the loop over [locus] for the crossover realization [i];
    the state is the table, [strand] and [strandswitches]. *)
Definition crossover_step (rec_rates : darray) (full i locus : nat)
    (st : dtable * bool * nat) : dtable * bool * nat :=
  let '(tbl, strand, strandswitches) := st in
  let newstrand := has_bit i locus in
  if Bool.eqb strand newstrand then
    (upd2 tbl full i (tbl full i * (0.5 * (1 + exp (- 2 * rec_rates locus)))),
     newstrand, strandswitches)
  else
    (upd2 tbl full i (tbl full i * (0.5 * (1 - exp (- 2 * rec_rates locus)))),
     newstrand, S strandswitches).

Definition crossover_realization (L : nat) (rec_rates : darray) (i : nat)
    (st : dtable * R) : dtable * R :=
  let (tbl, sum) := st in
  let full := (Nat.shiftl 1 L - 1)%nat in
  let tbl := upd2 tbl full i 1 in
  let strand := has_bit i (L - 1) in
  let '(tbl, _, strandswitches) :=
    for_range 0 L (crossover_step rec_rates full i) (tbl, strand, 0%nat) in
  let tbl := if negb (Nat.eqb (strandswitches mod 2) 0) then upd2 tbl full i 0 else tbl in
  (tbl, sum + tbl full i).

(** The pattern of the full set of loci, normalized. *)
Definition full_pattern (L : nat) (rec_rates : darray) (tbl : dtable) : dtable :=
  let full := (Nat.shiftl 1 L - 1)%nat in
  let (tbl, sum) :=
    for_range 0 (Nat.shiftl 1 L) (crossover_realization L rec_rates) (tbl, 0) in
  for_range 0 (Nat.shiftl 1 L) (fun i tbl => upd2 tbl full i (tbl full i / sum)) tbl.

(** The search for [marg_locus], the first zero of [subset]; [None] is the
    initial value -1, kept when the loop finds no zero. *)
Definition find_marg_locus (L subset : nat) : option nat :=
  find (fun locus => Nat.eqb (Nat.land subset (Nat.shiftl 1 locus)) 0) (seq 0 L).

Definition higher_order_pattern (set_size marg_locus rec_pattern : nat) : nat :=
  (Nat.land rec_pattern (Nat.shiftl 1 marg_locus - 1)
   + Nat.shiftl (Nat.land rec_pattern (Nat.shiftl 1 set_size - Nat.shiftl 1 marg_locus)) 1)%nat.

(** [rptemp] points to the row of [higher_order_subset]: reading through it
    reads the table as it is when the read happens. *)
Definition marginalize_pattern (set_size marg_locus subset higher_order_subset rec_pattern : nat)
    (tbl : dtable) : dtable :=
  let rptemp := tbl higher_order_subset in
  let higher_order_rec_pattern := higher_order_pattern set_size marg_locus rec_pattern in
  upd2 tbl subset rec_pattern
    (rptemp higher_order_rec_pattern
     + rptemp (higher_order_rec_pattern + Nat.shiftl 1 marg_locus)%nat).

(** The body of the loop over [subset].  A subset of order [set_size < L]
    has a zero, so [marg_locus] is found (lemma [find_marg_locus_some]); the
    code has no defined behaviour for -1 and the table is left as it is. *)
Definition marginalize_subset (L set_size subset : nat) (tbl : dtable) : dtable :=
  if Nat.eqb (order L subset) set_size then
    match find_marg_locus L subset with
    | Some marg_locus =>
        let higher_order_subset := (subset + Nat.shiftl 1 marg_locus)%nat in
        for_range 0 (Nat.shiftl 1 set_size)
          (marginalize_pattern set_size marg_locus subset higher_order_subset) tbl
    | None => tbl
    end
  else tbl.

(** The loop [for (set_size=number_of_loci-1; set_size>=0; set_size--)]. *)
Definition marginalize (L : nat) (tbl : dtable) : dtable :=
  fold_left
    (fun tbl set_size => for_range 0 (Nat.shiftl 1 L) (marginalize_subset L set_size) tbl)
    (rev (seq 0 L)) tbl.

Definition set_recombination_rates (X : hg_env gsl_rng) (heap : new_outcome)
    (rec_rates : darray) (e : engine) : Z * engine :=
  let L := number_of_loci e in
  let compute (tbl : dtable) :=
    let tbl := marginalize L (full_pattern L rec_rates tbl) in
    (0%Z, with_free_recombination (with_recombination_patters e tbl) false) in
  if free_recombination e then
    match heap with
    | nspins_null => (HG_MEMERR X, e)
    | rows_allocated failed fresh =>
        if Nat.eqb failed 0 then compute fresh
        else (HG_MEMERR X, with_recombination_patters e fresh)
    end
  else compute (recombination_patters e).

(** *** The evolution driver *)

Inductive operator : Type := Select | Mutate | Recombine | Resample.

(** The log of the calls [evolve] makes, each with the code it returned.
    It is no part of the engine: it is what "an operator is invoked" means
    in the statements about [evolve]. *)
Definition call_log : Type := list (operator * Z).

(** [if(err==0) err=op();] *)
Definition call (ops : operator -> engine -> Z * engine) (o : operator)
    (st : Z * engine * call_log) : Z * engine * call_log :=
  let '(err, e, log) := st in
  if Z.eqb err 0 then
    let (err', e') := ops o e in (err', e', log ++ [(o, err')])
  else st.

Definition count_generation (X : hg_env gsl_rng) (e : engine) : engine :=
  let g := (generation e + 1)%Z in
  if Z.gtb g (HG_LONGTIMEGEN X)
  then with_generation e (g - HG_LONGTIMEGEN X)%Z
         (long_time_generation e + IZR (HG_LONGTIMEGEN X))
  else with_generation e g (long_time_generation e).

Definition evolve_generation (X : hg_env gsl_rng) (ops : operator -> engine -> Z * engine)
    (st : Z * engine * call_log) : Z * engine * call_log :=
  let st := call ops Select st in
  let st := call ops Mutate st in
  let st := call ops Recombine st in
  let '(err, e, log) := call ops Resample st in
  (err, count_generation X e, log).

(** [while((err == 0) && (g < gen))]: [remaining] is [gen - g]. *)
Fixpoint evolve_loop (X : hg_env gsl_rng) (ops : operator -> engine -> Z * engine)
    (remaining : nat) (st : Z * engine * call_log) : Z * engine * call_log :=
  match remaining with
  | O => st
  | S remaining' =>
      if Z.eqb (fst (fst st)) 0
      then evolve_loop X ops remaining' (evolve_generation X ops st)
      else st
  end.

Definition operators (X : hg_env gsl_rng) (o : operator) : engine -> Z * engine :=
  match o with
  | Select => select
  | Mutate => mutate
  | Recombine => recombine X
  | Resample => resample X (resample_default X)
  end.

Definition evolve (X : hg_env gsl_rng) (gen : Z) (e : engine) : Z * engine * call_log :=
  evolve_loop X (operators X) (Z.to_nat gen) (0%Z, e, []).

End Engine.

(** ** The rest of the engine *)

(** What the set-up of an engine takes from outside
    [haploid_gt_dis.cpp]: the allocation and seeding of the generator
    ([gsl_rng_alloc] followed by [gsl_rng_set]), the draw
    [gsl_rng_uniform_int(rng, gsl_rng_max(rng))], the set-up of a hypercube
    (hypercube.cpp is not among the sources) with the code it returns, the
    value of [time(NULL)+getpid()], and the content of the new storage for
    the mutation rates. *)
Record setup_env (gsl_rng : Type) : Type := mk_setup_env {
  gsl_rng_alloc_set : Z -> gsl_rng;
  gsl_rng_uniform_int_max : gsl_rng -> Z * gsl_rng;
  hypercube_set_up : hypercube -> nat -> Z -> Z * hypercube;
  time_plus_getpid : Z;
  new_mutation_rates : dtable
}.

Arguments gsl_rng_alloc_set {gsl_rng} _ _.
Arguments gsl_rng_uniform_int_max {gsl_rng} _ _.
Arguments hypercube_set_up {gsl_rng} _ _ _ _.
Arguments time_plus_getpid {gsl_rng} _.
Arguments new_mutation_rates {gsl_rng} _.

Definition nat_array := nat -> nat.

Definition upd_nat (a : nat_array) (i v : nat) : nat_array :=
  fun k => if Nat.eqb k i then v else a k.

Section EngineRest.

Context {gsl_rng : Type}.

Local Abbreviation engine := (haploid_gt_dis gsl_rng).

Definition with_mem (e : engine) (b : bool) : engine :=
  mk_haploid_gt_dis b (free_recombination e) (outcrossing_rate e)
    (generation e) (long_time_generation e) (circular e) (number_of_loci e)
    (population_size e) (rng e) (fitness e) (population e) (mutants e)
    (recombinants e) (mutation_rates e) (recombination_patters e).

Definition with_fitness (e : engine) (h : hypercube) : engine :=
  mk_haploid_gt_dis (mem e) (free_recombination e) (outcrossing_rate e)
    (generation e) (long_time_generation e) (circular e) (number_of_loci e)
    (population_size e) (rng e) h (population e) (mutants e)
    (recombinants e) (mutation_rates e) (recombination_patters e).

Definition with_size (e : engine) (L : nat) (N : R) : engine :=
  mk_haploid_gt_dis (mem e) (free_recombination e) (outcrossing_rate e)
    (generation e) (long_time_generation e) (circular e) L
    N (rng e) (fitness e) (population e) (mutants e)
    (recombinants e) (mutation_rates e) (recombination_patters e).

(** *** Construction and set-up *)

(** [allocate_mem]; the member [seed], which only [set_up] writes and only
    [allocate_mem] reads, is the argument [seed]. *)
Definition allocate_mem (X : hg_env gsl_rng) (A : setup_env gsl_rng) (seed : Z)
    (e : engine) : Z * engine :=
  let L := number_of_loci e in
  let err := 0%Z in
  let g := gsl_rng_alloc_set A seed in
  let (s1, g) := gsl_rng_uniform_int_max A g in
  let (c1, fit) := hypercube_set_up A (fitness e) L s1 in
  let err := (err + c1)%Z in
  let (s2, g) := gsl_rng_uniform_int_max A g in
  let (c2, pop) := hypercube_set_up A (population e) L s2 in
  let err := (err + c2)%Z in
  let (s3, g) := gsl_rng_uniform_int_max A g in
  let (c3, mut) := hypercube_set_up A (mutants e) L s3 in
  let err := (err + c3)%Z in
  let (s4, g) := gsl_rng_uniform_int_max A g in
  let (c4, rec) := hypercube_set_up A (recombinants e) L s4 in
  let err := (err + c4)%Z in
  let rates :=
    for_range 0 2 (fun fb rates =>
      for_range 0 L (fun locus rates => upd2 rates fb locus 0) rates)
      (new_mutation_rates A) in
  let e :=
    with_mutation_rates
      (with_recombinants (with_mutants (with_population (with_fitness (with_rng e g) fit) pop)
                            mut) rec) rates in
  if Z.eqb err 0 then (0%Z, with_mem e true) else (HG_MEMERR X, e).

Definition set_up (X : hg_env gsl_rng) (A : setup_env gsl_rng) (L_in : nat) (N_in : R)
    (rngseed : Z) (e : engine) : Z * engine :=
  let e := with_size e L_in N_in in
  let seed := if Z.eqb rngseed 0 then time_plus_getpid A else rngseed in
  allocate_mem X A seed e.

(** The constructor with set-up; the code that [set_up] returns is lost. *)
Definition haploid_gt_dis_set_up (X : hg_env gsl_rng) (A : setup_env gsl_rng)
    (L_in : nat) (N_in : R) (rngseed : Z) (e0 : engine) : engine :=
  let e :=
    mk_haploid_gt_dis false true 0 0%Z 0 false (number_of_loci e0)
      (population_size e0) (rng e0) (fitness e0) (population e0) (mutants e0)
      (recombinants e0) (mutation_rates e0) (recombination_patters e0) in
  snd (set_up X A L_in N_in rngseed e).

(** *** Initialization in linkage equilibrium *)

Definition genotype_probability (L : nat) (freq : darray) (i : nat) : R :=
  for_range 0 L
    (fun locus prob =>
       if has_bit i locus then prob * freq locus else prob * (1 - freq locus)) 1.

(** [init_frequencies]; [fft_code] is the code that
    [population.fft_func_to_coeff()] returns. *)
Definition init_frequencies (X : hg_env gsl_rng) (fft_code : Z) (freq : darray)
    (e : engine) : Z * engine :=
  let L := number_of_loci e in
  let pop := set_state (population e) HC_FUNC in
  let f :=
    for_range 0 (Nat.shiftl 1 L)
      (fun i f => upd f i (genotype_probability L freq i)) (func pop) in
  let e := with_generation (with_population e (set_func pop f)) 0 0 in
  (fft_code, with_population e (fft_func_to_coeff X L (population e))).

(** *** The other two drivers *)

Definition evolve_norec_generation (X : hg_env gsl_rng)
    (ops : operator -> engine -> Z * engine)
    (st : Z * engine * call_log) : Z * engine * call_log :=
  let st := call ops Select st in
  let st := call ops Mutate st in
  let '(err, e, log) := call ops Resample st in
  (err, count_generation X e, log).

Fixpoint evolve_norec_loop (X : hg_env gsl_rng) (ops : operator -> engine -> Z * engine)
    (remaining : nat) (st : Z * engine * call_log) : Z * engine * call_log :=
  match remaining with
  | O => st
  | S remaining' =>
      if Z.eqb (fst (fst st)) 0
      then evolve_norec_loop X ops remaining' (evolve_norec_generation X ops st)
      else st
  end.

Definition evolve_norec (X : hg_env gsl_rng) (gen : Z) (e : engine)
    : Z * engine * call_log :=
  evolve_norec_loop X (operators X) (Z.to_nat gen) (0%Z, e, []).

Definition evolve_deterministic_generation (X : hg_env gsl_rng)
    (ops : operator -> engine -> Z * engine)
    (st : Z * engine * call_log) : Z * engine * call_log :=
  let st := call ops Select st in
  let st := call ops Mutate st in
  let '(err, e, log) := call ops Recombine st in
  (err, count_generation X e, log).

Fixpoint evolve_deterministic_loop (X : hg_env gsl_rng)
    (ops : operator -> engine -> Z * engine)
    (remaining : nat) (st : Z * engine * call_log) : Z * engine * call_log :=
  match remaining with
  | O => st
  | S remaining' =>
      if Z.eqb (fst (fst st)) 0
      then evolve_deterministic_loop X ops remaining' (evolve_deterministic_generation X ops st)
      else st
  end.

Definition evolve_deterministic (X : hg_env gsl_rng) (gen : Z) (e : engine)
    : Z * engine * call_log :=
  evolve_deterministic_loop X (operators X) (Z.to_nat gen) (0%Z, e, []).

(** *** The allocation of the pattern table *)

(** One turn of the loop that counts the ones of [i] into [nspins[i]];
    [spin] starts at -1. *)
Definition nspins_step (i : nat) (st : Z * nat_array) : Z * nat_array :=
  let (spin, nspins) := st in
  let spin := if Z.eqb (Z.of_nat i) (Z.shiftl 1 (spin + 1)) then (spin + 1)%Z else spin in
  let temp := (1 + nspins (Z.to_nat (Z.of_nat i - Z.shiftl 1 spin)))%nat in
  (spin, upd_nat nspins i temp).

(** The table [nspins] when the loop ends; the row of the subset [i] is
    allocated with [1<<nspins[i]] cells, the row of 0 with one cell. *)
Definition nspins_table (L : nat) (nspins : nat_array) : nat_array :=
  snd (for_range 1 (Nat.shiftl 1 L - 1) nspins_step ((-1)%Z, upd_nat nspins 0 0)).

(** *** Entropies *)

Definition genotype_entropy (X : hg_env gsl_rng) (e : engine) : R * engine :=
  let pop :=
    match get_state (population e) with
    | HC_COEFF => fft_coeff_to_func X (number_of_loci e) (population e)
    | _ => population e
    end in
  (for_range 0 (Nat.shiftl 1 (number_of_loci e))
     (fun i S => S - func pop i * ln (func pop i)) 0,
   with_population e pop).

Definition allele_entropy_step (c : darray) (locus : nat) (SA : R) : R :=
  let SA := SA - 0.5 * (1 + c (Nat.shiftl 1 locus)) * ln (0.5 * (1 + c (Nat.shiftl 1 locus))) in
  SA - 0.5 * (1 - c (Nat.shiftl 1 locus)) * ln (0.5 * (1 - c (Nat.shiftl 1 locus))).

Definition allele_entropy (X : hg_env gsl_rng) (e : engine) : R * engine :=
  let pop :=
    match get_state (population e) with
    | HC_FUNC => fft_func_to_coeff X (number_of_loci e) (population e)
    | _ => population e
    end in
  (for_range 0 (number_of_loci e) (allele_entropy_step (coeff pop)) 0,
   with_population e pop).

End EngineRest.

(** ** Definitions used to state the properties *)

(** The order in which [gen] generations call the operators. *)
Definition schedule (gen : nat) : list operator :=
  concat (repeat [Select; Mutate; Recombine; Resample] gen).

(** What the spec asks of the driver: the operators are called one after
    the other, and the first non-zero code ends the run and is returned;
    the log lists the calls made. *)
Fixpoint run_until_error {gsl_rng : Type}
    (ops : operator -> haploid_gt_dis gsl_rng -> Z * haploid_gt_dis gsl_rng)
    (sched : list operator) (e : haploid_gt_dis gsl_rng)
    : Z * haploid_gt_dis gsl_rng * call_log :=
  match sched with
  | [] => (0%Z, e, [])
  | o :: rest =>
      let (c, e') := ops o e in
      if Z.eqb c 0 then
        let '(err, e'', log) := run_until_error ops rest e' in
        (err, e'', (o, c) :: log)
      else (c, e', [(o, c)])
  end.

(** The flow of probability into genotype [i] by mutation at locus [l], in
    the words of the spec. *)
Definition mutation_flow (rates : dtable) (p : darray) (i l : nat) : R :=
  if Nat.testbit i l
  then rates 0%nat l * p (Nat.clearbit i l) - rates 1%nat l * p i
  else rates 1%nat l * p (Nat.setbit i l) - rates 0%nat l * p i.

(** The operators neither read nor write the generation counters. *)
Definition ignores_generation {gsl_rng : Type}
    (ops : operator -> haploid_gt_dis gsl_rng -> Z * haploid_gt_dis gsl_rng) : Prop :=
  forall o e g lt,
    ops o (with_generation e g lt)
    = (fst (ops o e), with_generation (snd (ops o e)) g lt).

(** The new value of a cell that holds [x], and the generator after the
    draw, in the words of the spec: below the cutoff a Poisson draw of mean
    [N*x] divided by [N], else [x] plus a Gaussian draw of standard
    deviation [sqrt(x/N)]. *)
Definition resampled_value {gsl_rng : Type} (X : hg_env gsl_rng) (N cutoff x : R)
    (g : gsl_rng) : R * gsl_rng :=
  if Rlt_dec x cutoff
  then (INR (fst (gsl_ran_poisson X g (N * x))) / N, snd (gsl_ran_poisson X g (N * x)))
  else (x + fst (gsl_ran_gaussian X g (sqrt (x / N))), snd (gsl_ran_gaussian X g (sqrt (x / N)))).

(** The coefficient of the subset [i] among the recombinants, free
    recombination: the sum over the partition numbers [j], times
    [1<<(L-order[i])]. *)
Definition free_coefficient (L : nat) (pc : darray) (i : nat) : R :=
  sum_upto (Nat.shiftl 1 (order L i))
    (fun j => pc (maternal_alleles L i j) * pc (paternal_alleles L i j))
  * INR (Nat.shiftl 1 (L - order L i)).

Definition general_coefficient (L : nat) (patterns : dtable) (pc : darray) (i : nat) : R :=
  sum_upto (Nat.shiftl 1 (order L i))
    (fun j => patterns i j * pc (maternal_alleles L i j) * pc (paternal_alleles L i j))
  * INR (Nat.shiftl 1 L).

(** The coefficient array that [calculate_recombinants] hands to the
    inverse transform. *)
Definition recombinant_coefficients {gsl_rng : Type} (X : hg_env gsl_rng)
    (e : haploid_gt_dis gsl_rng) : darray :=
  let L := number_of_loci e in
  let pc := func_to_coeff X L (func (population e)) in
  if free_recombination e
  then free_coefficients L pc (coeff (recombinants e))
  else general_coefficients L (recombination_patters e) pc (coeff (recombinants e)).

(** The pattern number of [r] with the bit [b] put in at position [m]: the
    bits of [r] below [m] stay, those from [m] on move up by one. *)
Definition insert_bit (r m : nat) (b : bool) : nat :=
  (r mod 2 ^ m + (if b then 2 ^ m else 0) + 2 ^ S m * (r / 2 ^ m))%nat.

(** [m] is the lowest locus of the [L] loci that is absent from [s]. *)
Definition lowest_absent_locus (L s m : nat) : Prop :=
  (m < L)%nat /\ Nat.testbit s m = false
  /\ forall k, (k < m)%nat -> Nat.testbit s k = true.

(** The value that the marginalization writes in the cell [r] of the row of
    [s], read from the table [T]. *)
Definition marginal_value (L : nat) (T : dtable) (s r : nat) : R :=
  match find_marg_locus L s with
  | Some m =>
      T (s + Nat.shiftl 1 m)%nat (higher_order_pattern (order L s) m r)
      + T (s + Nat.shiftl 1 m)%nat
          (higher_order_pattern (order L s) m r + Nat.shiftl 1 m)%nat
  | None => T s r
  end.

(** The row of [s] holds the values the marginalization writes, read from
    the table itself. *)
Definition marginalized_row (L : nat) (T : dtable) (s : nat) : Prop :=
  forall r, (r < 2 ^ order L s)%nat -> T s r = marginal_value L T s r.

(** The partition number that gives the maternal alleles [m] for the
    subset [i]: bit number [order k i] is the bit of [m] at the locus [k]
    of [i]. *)
Fixpoint partition_number (L i m : nat) : nat :=
  match L with
  | O => 0
  | S L' =>
      (partition_number L' i m
       + (if Nat.testbit i L' && Nat.testbit m L' then 2 ^ order L' i else 0))%nat
  end.

(** The partitions of the subset [i] that the loop over [j] visits. *)
Definition partitions (L i : nat) : list (nat * nat) :=
  map (fun j => (maternal_alleles L i j, paternal_alleles L i j))
    (seq 0 (2 ^ order L i)%nat).

(** One generation of a driver whose body calls the operators of [sch] in
    order and then counts the generation. *)
Definition generation_body {gsl_rng : Type} (X : hg_env gsl_rng)
    (ops : operator -> haploid_gt_dis gsl_rng -> Z * haploid_gt_dis gsl_rng)
    (sch : list operator) (st : Z * haploid_gt_dis gsl_rng * call_log)
    : Z * haploid_gt_dis gsl_rng * call_log :=
  let '(err, e, log) := fold_left (fun st o => call ops o st) sch st in
  (err, count_generation X e, log).

Fixpoint driver_loop {S : Type} (err_of : S -> Z) (body : S -> S) (remaining : nat) (st : S) : S :=
  match remaining with
  | O => st
  | Datatypes.S remaining' =>
      if Z.eqb (err_of st) 0 then driver_loop err_of body remaining' (body st) else st
  end.

(** The generations elapsed: the working counter plus the accumulated
    long-time count. *)
Definition elapsed_generations {gsl_rng : Type} (e : haploid_gt_dis gsl_rng) : R :=
  IZR (generation e) + long_time_generation e.

(** The code that the state of a driver carries. *)
Definition err_of {gsl_rng : Type} (st : Z * haploid_gt_dis gsl_rng * call_log) : Z :=
  fst (fst st).

(** The entropy of one locus whose coefficient is [v]. *)
Definition locus_entropy (v : R) : R :=
  - (0.5 * (1 + v) * ln (0.5 * (1 + v))) - 0.5 * (1 - v) * ln (0.5 * (1 - v)).

(** The factor that the locus [locus] gives to the crossover realization
    [i]: no crossover when the strand at [locus] is the strand at the locus
    before it, the last locus standing before the first. *)
Definition crossover_factor (L : nat) (rec_rates : darray) (i locus : nat) : R :=
  let previous := match locus with O => (L - 1)%nat | S l => l end in
  if Bool.eqb (has_bit i previous) (has_bit i locus)
  then 0.5 * (1 + exp (- 2 * rec_rates locus))
  else 0.5 * (1 - exp (- 2 * rec_rates locus)).

(** The product of the factors of the loci below [n], and of all loci. *)
Definition crossover_product (L : nat) (rec_rates : darray) (i n : nat) : R :=
  for_range 0 n (fun locus w => w * crossover_factor L rec_rates i locus) 1.

Definition crossover_weight (L : nat) (rec_rates : darray) (i : nat) : R :=
  crossover_product L rec_rates i L.

(** ** Sample data: a generator that always draws zero, a Walsh-Hadamard
    pair for the transforms, and values for the macros *)

(** The character of the subset [k] at the genotype [g]: the product over
    the [L] loci of [k] of +1 where [g] has the locus and -1 where not. *)
Definition wh_sign (L k g : nat) : R :=
  fold_right Rmult 1
    (map (fun l => if Nat.testbit k l then (if Nat.testbit g l then 1 else -1) else 1)
       (seq 0 L)).

Definition wh_coeff_to_func (L : nat) (c : darray) : darray :=
  fun g => sum_upto (2 ^ L) (fun k => c k * wh_sign L k g).

Definition wh_func_to_coeff (L : nat) (f : darray) : darray :=
  fun k => sum_upto (2 ^ L) (fun g => f g * wh_sign L k g) / INR (2 ^ L).

(** The generator draws [k] at every Poisson draw and [x] at every
    Gaussian draw. *)
Definition sample_env_drawing (k : nat) (x : R) : hg_env unit :=
  mk_hg_env unit
    (fun g _ => (k, g)) (fun g _ => (x, g))
    wh_func_to_coeff wh_coeff_to_func
    (-3)%Z (-2)%Z (-1)%Z 1000000%Z 10000%Z (1 / 1000000) 0.

Definition sample_env : hg_env unit := sample_env_drawing 0 0.

Definition zero_array : darray := fun _ => 0.
Definition zero_table : dtable := fun _ _ => 0.

Definition array_of (l : list R) : darray := fun i => nth i l 0.

Definition sample_cube (f : list R) : hypercube :=
  mk_hypercube HC_FUNC (array_of f) zero_array.

(** An engine over one locus with the given population and fitness. *)
Definition sample_engine (allocated : bool) (pop fit : list R) : haploid_gt_dis unit :=
  mk_haploid_gt_dis allocated true 0 0%Z 0 false 1%nat 1000 tt
    (sample_cube fit) (sample_cube pop) (sample_cube []) (sample_cube [])
    zero_table zero_table.

(** A set-up environment in which every hypercube sets up. *)
Definition sample_setup : setup_env unit :=
  mk_setup_env unit (fun _ => tt) (fun g => (1%Z, g))
    (fun h _ _ => (0%Z, h)) 12345%Z zero_table.

(** * Properties *)

(** ** The integer parts of the embedding, run on small inputs *)

Example order_of_5 : order 3 5 = 2%nat.
Proof. reflexivity. Qed.

(** Subset 101, partition number 10: locus 0 goes to the father, locus 2 to
    the mother. *)
Example build_alleles_5_2 : build_alleles 3 5 2 = (2%nat, 4%nat, 1%nat).
Proof. reflexivity. Qed.

Example find_marg_locus_of_5 : find_marg_locus 3 5 = Some 1%nat.
Proof. reflexivity. Qed.

(** Pattern 11 of the subset 101, locus 1 added: patterns 101 and 111. *)
Example higher_order_pattern_of_3 :
  higher_order_pattern 2 1 3 = 5%nat /\ insert_bit 3 1 false = 5%nat
  /\ insert_bit 3 1 true = 7%nat.
Proof. repeat split. Qed.

Example partitions_of_5 : partitions 3 5 = [(0, 5); (1, 4); (4, 1); (5, 0)]%nat.
Proof. reflexivity. Qed.

Example schedule_of_2 :
  schedule 2
  = [Select; Mutate; Recombine; Resample; Select; Mutate; Recombine; Resample].
Proof. reflexivity. Qed.

(** ** Loops and arrays *)

Lemma for_range_0 {S : Type} (lo : nat) (body : nat -> S -> S) (s : S) :
  for_range lo 0 body s = s.
Proof. reflexivity. Qed.

Lemma for_range_S {S : Type} (lo n : nat) (body : nat -> S -> S) (s : S) :
  for_range lo (Datatypes.S n) body s = body (lo + n)%nat (for_range lo n body s).
Proof.
  unfold for_range. rewrite seq_S, fold_left_app. reflexivity.
Qed.

Lemma upd_same (a : darray) (i : nat) (v : R) : upd a i v i = v.
Proof. unfold upd. now rewrite Nat.eqb_refl. Qed.

Lemma upd_other (a : darray) (i k : nat) (v : R) : k <> i -> upd a i v k = a k.
Proof. intros H. unfold upd. apply Nat.eqb_neq in H. now rewrite H. Qed.

Lemma upd2_same (t : dtable) (i j : nat) (v : R) : upd2 t i j v i j = v.
Proof. unfold upd2. rewrite Nat.eqb_refl. apply upd_same. Qed.

Lemma upd2_other_row (t : dtable) (i j k l : nat) (v : R) :
  k <> i -> upd2 t i j v k l = t k l.
Proof. intros H. unfold upd2. apply Nat.eqb_neq in H. now rewrite H. Qed.

Lemma upd2_other_col (t : dtable) (i j l : nat) (v : R) :
  l <> j -> upd2 t i j v i l = t i l.
Proof. intros H. unfold upd2. rewrite Nat.eqb_refl. now apply upd_other. Qed.

Lemma sum_upto_S (n : nat) (a : darray) : sum_upto (S n) a = sum_upto n a + a n.
Proof.
  unfold sum_upto. rewrite seq_S, map_app. simpl.
  generalize (map a (seq 0 n)). intros l. induction l as [|x l IH]; simpl.
  - lra.
  - rewrite IH. lra.
Qed.

Lemma sum_upto_ext (n : nat) (a b : darray) :
  (forall i, (i < n)%nat -> a i = b i) -> sum_upto n a = sum_upto n b.
Proof.
  induction n as [|n IH]; intros H; [reflexivity|].
  rewrite !sum_upto_S, IH, (H n) by auto with arith. reflexivity.
Qed.

Lemma sum_upto_scale (n : nat) (a : darray) (s : R) :
  sum_upto n (fun i => a i * s) = sum_upto n a * s.
Proof.
  induction n as [|n IH]; [unfold sum_upto; simpl; lra|].
  rewrite !sum_upto_S, IH. lra.
Qed.

Lemma sum_upto_plus (n : nat) (a b : darray) :
  sum_upto n (fun i => a i + b i) = sum_upto n a + sum_upto n b.
Proof.
  induction n as [|n IH]; [unfold sum_upto; simpl; lra|].
  rewrite !sum_upto_S, IH. lra.
Qed.

(** A loop that rewrites cell [i] at turn [i] from the old content of that
    cell only. *)
Lemma for_range_cells (g : nat -> R -> R) (lo n : nat) (a : darray) (k : nat) :
  for_range lo n (fun i f => upd f i (g i (f i))) a k
  = if (lo <=? k) && (k <? lo + n) then g k (a k) else a k.
Proof.
  induction n as [|n IH].
  - rewrite for_range_0. replace (k <? lo + 0) with (k <? lo) by (f_equal; lia).
    destruct (Nat.leb_spec lo k), (Nat.ltb_spec k lo); simpl; try reflexivity; lia.
  - rewrite for_range_S. destruct (Nat.eq_dec k (lo + n)) as [->|Hk].
    + rewrite upd_same, IH.
      destruct (Nat.leb_spec lo (lo + n)), (Nat.ltb_spec (lo + n) (lo + n)),
        (Nat.ltb_spec (lo + n) (lo + S n)); simpl; try reflexivity; lia.
    + rewrite upd_other, IH by assumption.
      destruct (Nat.leb_spec lo k), (Nat.ltb_spec k (lo + n)),
        (Nat.ltb_spec k (lo + S n)); simpl; try reflexivity; lia.
Qed.

(** ** Bits *)

Lemma has_bit_testbit (i k : nat) : has_bit i k = Nat.testbit i k.
Proof.
  unfold has_bit. rewrite Nat.shiftl_1_l.
  destruct (Nat.testbit i k) eqn:E.
  - apply negb_true_iff, Nat.eqb_neq. intros H.
    assert (T : Nat.testbit (Nat.land i (2 ^ k)) k = true)
      by (rewrite Nat.land_spec, E, Nat.pow2_bits_true; reflexivity).
    rewrite H, Nat.bits_0 in T. discriminate.
  - apply negb_false_iff, Nat.eqb_eq. apply Nat.bits_inj. intros m.
    rewrite Nat.land_spec, Nat.bits_0, Nat.pow2_bits_eqb.
    destruct (Nat.eqb_spec k m) as [->|]; [rewrite E|]; now rewrite ?andb_false_r.
Qed.

Lemma sub_pow2_clearbit (i l : nat) :
  Nat.testbit i l = true -> (i - Nat.shiftl 1 l)%nat = Nat.clearbit i l.
Proof.
  intros H. rewrite Nat.shiftl_1_l, Nat.clearbit_spec'.
  apply Nat.sub_nocarry_ldiff. apply Nat.bits_inj. intros m.
  rewrite Nat.ldiff_spec, Nat.bits_0, Nat.pow2_bits_eqb.
  destruct (Nat.eqb_spec l m) as [->|]; [rewrite H|]; reflexivity.
Qed.

Lemma add_pow2_setbit (i l : nat) :
  Nat.testbit i l = false -> (i + Nat.shiftl 1 l)%nat = Nat.setbit i l.
Proof.
  intros H. rewrite Nat.shiftl_1_l, Nat.setbit_spec'.
  assert (Z : Nat.land i (2 ^ l) = 0%nat).
  { apply Nat.bits_inj. intros m.
    rewrite Nat.land_spec, Nat.bits_0, Nat.pow2_bits_eqb.
    destruct (Nat.eqb_spec l m) as [->|]; [rewrite H|]; now rewrite ?andb_false_r. }
  rewrite (Nat.add_nocarry_lxor _ _ Z). now apply Nat.lxor_lor.
Qed.

(** ** Setting mutation rates before memory is allocated *)

(** C9, as the code has it: on an engine whose memory is not allocated
    ([mem] is false), each of the four [set_mutation_rate] overloads returns
    the memory-error code [HG_MEMERR] (not [HG_BADARG]) and leaves the
    engine, and so the mutation-rate table, unchanged. *)
Theorem set_mutation_rate_unallocated :
  forall (gsl_rng : Type) (X : hg_env gsl_rng) (e : haploid_gt_dis gsl_rng)
         (m mforward mbackward : R) (ml : darray) (mt : dtable),
    mem e = false ->
    set_mutation_rate X m e = (HG_MEMERR X, e)
    /\ set_mutation_rate_fb X mforward mbackward e = (HG_MEMERR X, e)
    /\ set_mutation_rate_loci X ml e = (HG_MEMERR X, e)
    /\ set_mutation_rate_table X mt e = (HG_MEMERR X, e).
Proof.
  intros gsl_rng X e m mf mb ml mt H.
  unfold set_mutation_rate, set_mutation_rate_fb, set_mutation_rate_loci,
    set_mutation_rate_table.
  rewrite H. repeat split; reflexivity.
Qed.

Lemma set_mutation_rate_unallocated_witness :
  set_mutation_rate sample_env 1 (sample_engine false [] []) = ((-3)%Z, sample_engine false [] []).
Proof.
  exact (proj1 (set_mutation_rate_unallocated unit sample_env (sample_engine false [] [])
                  1 0 0 zero_array zero_table eq_refl)).
Defined.

(** C9 as stated fails: with memory not allocated and the error codes
    distinct, [set_mutation_rate] does not return [HG_BADARG]. *)
Lemma set_mutation_rate_not_badarg :
  mem (sample_engine false [] []) = false
  /\ fst (set_mutation_rate sample_env 1 (sample_engine false [] [])) = HG_MEMERR sample_env
  /\ fst (set_mutation_rate sample_env 1 (sample_engine false [] [])) <> HG_BADARG sample_env.
Proof.
  repeat split. simpl. discriminate.
Qed.

(** ** Fitness statistics *)

Lemma fitness_statistics_loop (p fit : hypercube) (n : nat) :
  for_range 0 n (fitness_statistics_step p fit) (0, 0)
  = (sum_upto n (fun i => func p i * func fit i),
     sum_upto n (fun i => (func p i * func fit i) * (func p i * func fit i))).
Proof.
  induction n as [|n IH].
  - rewrite for_range_0. unfold sum_upto. reflexivity.
  - rewrite for_range_S, IH. unfold fitness_statistics_step, get_func.
    rewrite !sum_upto_S. reflexivity.
Qed.

(** What [get_fitness_statistics] returns on a population in FUNC state: the
    mean is the sum of [population[i]*fitness[i]], and the second field is
    the sum of the squares minus the mean, the mean not squared. *)
Lemma get_fitness_statistics_value :
  forall (gsl_rng : Type) (X : hg_env gsl_rng) (e : haploid_gt_dis gsl_rng),
    state (population e) = HC_FUNC ->
    let t := fun i => func (population e) i * func (fitness e) i in
    let n := Nat.shiftl 1 (number_of_loci e) in
    fst (get_fitness_statistics X e)
    = mk_stat_t (sum_upto n t) (sum_upto n (fun i => t i * t i) - sum_upto n t).
Proof.
  intros gsl_rng X e H t n. unfold get_fitness_statistics, get_state.
  rewrite H, fitness_statistics_loop. reflexivity.
Qed.

(** C8 at a failing input: one locus, frequencies 1/2 and 1/2, fitness 1 and
    3.  The mean is 2 and the sum of squares 5/2; the code returns the
    variance field 5/2 - 2 = 1/2, where second moment minus squared mean is
    5/2 - 4 = -3/2. *)
Theorem get_fitness_statistics_variance_slip :
  let e := sample_engine true [1/2; 1/2] [1; 3] in
  let t := fun i => func (population e) i * func (fitness e) i in
  mean (fst (get_fitness_statistics sample_env e)) = 2
  /\ variance (fst (get_fitness_statistics sample_env e)) = 1/2
  /\ sum_upto 2 (fun i => t i * t i)
     - mean (fst (get_fitness_statistics sample_env e))
       * mean (fst (get_fitness_statistics sample_env e)) = -3/2.
Proof.
  intros e t.
  rewrite (get_fitness_statistics_value unit sample_env e eq_refl).
  unfold t, e, sum_upto. simpl. unfold array_of. simpl.
  repeat split; lra.
Qed.

(** ** The evolution driver *)

Section Driver.

Context {gsl_rng : Type} (X : hg_env gsl_rng).

Local Abbreviation engine := (haploid_gt_dis gsl_rng).

Lemma with_generation_id (e : engine) :
  with_generation e (generation e) (long_time_generation e) = e.
Proof. destruct e. reflexivity. Qed.

Lemma with_generation_twice (e : engine) (g g' : Z) (lt lt' : R) :
  with_generation (with_generation e g lt) g' lt' = with_generation e g' lt'.
Proof. reflexivity. Qed.

Lemma count_generation_with (e : engine) :
  exists g lt, count_generation X e = with_generation e g lt.
Proof.
  unfold count_generation.
  destruct (Z.gtb (generation e + 1) (HG_LONGTIMEGEN X)); eexists; eexists; reflexivity.
Qed.

Lemma operators_ignore_generation : ignores_generation (operators X).
Proof.
  intros o e g lt. destruct o; simpl.
  - unfold select. simpl.
    destruct (for_range 0 _ (select_step _) _) as [f norm]. reflexivity.
  - reflexivity.
  - unfold recombine, calculate_recombinants. simpl.
    destruct (free_recombination e); reflexivity.
  - unfold resample, resample_at. simpl.
    destruct (for_range 0 _ (resample_step _ _ _) _) as [[f norm] r]. simpl.
    destruct (Rlt_dec norm (HG_NOTHING X)); reflexivity.
Qed.

Variable ops : operator -> engine -> Z * engine.
Hypothesis ops_ignore : ignores_generation ops.

Lemma run_until_error_with_generation (sched : list operator) (e : engine) (g : Z) (lt : R) :
  run_until_error ops sched (with_generation e g lt)
  = let '(err, e', log) := run_until_error ops sched e in
    (err, with_generation e' g lt, log).
Proof.
  revert e. induction sched as [|o rest IH]; intros e; simpl; [reflexivity|].
  rewrite ops_ignore. destruct (ops o e) as [c e1]. simpl.
  destruct (Z.eqb c 0); [|reflexivity].
  rewrite IH. destruct (run_until_error ops rest e1) as [[err e2] log]. reflexivity.
Qed.

Lemma run_until_error_app (s1 s2 : list operator) (e : engine) :
  run_until_error ops (s1 ++ s2) e
  = let '(err, e', log) := run_until_error ops s1 e in
    if Z.eqb err 0 then
      let '(err', e'', log') := run_until_error ops s2 e' in (err', e'', log ++ log')
    else (err, e', log).
Proof.
  revert e. induction s1 as [|o rest IH]; intros e; simpl.
  - destruct (run_until_error ops s2 e) as [[err e'] log]. reflexivity.
  - destruct (ops o e) as [c e1]. destruct (Z.eqb c 0) eqn:Hc; simpl.
    + rewrite IH. destruct (run_until_error ops rest e1) as [[err e2] log].
      destruct (Z.eqb err 0); [|reflexivity].
      destruct (run_until_error ops s2 e2) as [[err' e3] log']. reflexivity.
    + rewrite Hc. reflexivity.
Qed.

(** The four guarded calls of one generation are a run of the four
    operators that stops at the first error. *)
Lemma generation_calls (e : engine) (log0 : call_log) :
  call ops Resample (call ops Recombine (call ops Mutate (call ops Select (0%Z, e, log0))))
  = let '(err, e', log) := run_until_error ops [Select; Mutate; Recombine; Resample] e in
    (err, e', log0 ++ log).
Proof.
  unfold call at 4. simpl.
  destruct (ops Select e) as [c1 e1]. unfold call at 3.
  destruct (Z.eqb_spec c1 0) as [->|H1];
    [|unfold call; apply Z.eqb_neq in H1; rewrite !H1; reflexivity].
  destruct (ops Mutate e1) as [c2 e2]. unfold call at 2.
  destruct (Z.eqb_spec c2 0) as [->|H2];
    [|unfold call; apply Z.eqb_neq in H2; rewrite !H2, <- app_assoc; reflexivity].
  destruct (ops Recombine e2) as [c3 e3]. unfold call.
  destruct (Z.eqb_spec c3 0) as [->|H3]; [|rewrite <- !app_assoc; reflexivity].
  destruct (ops Resample e3) as [c4 e4].
  destruct (Z.eqb_spec c4 0) as [->|H4]; rewrite <- !app_assoc; reflexivity.
Qed.

Lemma evolve_loop_stopped (n : nat) (err : Z) (e : engine) (log : call_log) :
  err <> 0%Z -> evolve_loop X ops n (err, e, log) = (err, e, log).
Proof.
  intros H. destruct n; simpl; [reflexivity|].
  apply Z.eqb_neq in H. now rewrite H.
Qed.

Lemma evolve_loop_runs (n : nat) (e : engine) (log0 : call_log) :
  exists g lt,
    evolve_loop X ops n (0%Z, e, log0)
    = let '(err, e', log) := run_until_error ops (schedule n) e in
      (err, with_generation e' g lt, log0 ++ log).
Proof.
  revert e log0. induction n as [|n IH]; intros e log0.
  - exists (generation e), (long_time_generation e). simpl.
    now rewrite with_generation_id, app_nil_r.
  - change (schedule (S n)) with ([Select; Mutate; Recombine; Resample] ++ schedule n).
    rewrite run_until_error_app. simpl evolve_loop. unfold evolve_generation.
    rewrite generation_calls.
    destruct (run_until_error ops [Select; Mutate; Recombine; Resample] e)
      as [[err e1] log1].
    destruct (count_generation_with e1) as (g1 & lt1 & Hc). rewrite Hc.
    destruct (Z.eqb_spec err 0) as [->|Hne].
    + destruct (IH (with_generation e1 g1 lt1) (log0 ++ log1)) as (g & lt & Hrun).
      exists g, lt. rewrite Hrun, run_until_error_with_generation.
      destruct (run_until_error ops (schedule n) e1) as [[err' e2] log2].
      now rewrite with_generation_twice, app_assoc.
    + exists g1, lt1. now apply evolve_loop_stopped.
Qed.

(** A run that stops at the first error: every call but the last returned
    zero, and the last call's code is the one returned. *)
Lemma run_until_error_log (sched : list operator) (e : engine) :
  let '(err, _, log) := run_until_error ops sched e in
  map fst log = firstn (length log) sched
  /\ ((err = 0%Z /\ map fst log = sched /\ Forall (fun c => snd c = 0%Z) log)
      \/ (err <> 0%Z /\ exists log0 o,
            log = log0 ++ [(o, err)] /\ Forall (fun c => snd c = 0%Z) log0)).
Proof.
  revert e. induction sched as [|o rest IH]; intros e; simpl.
  - split; [reflexivity|]. left. repeat split. constructor.
  - destruct (ops o e) as [c e1]. destruct (Z.eqb_spec c 0) as [->|Hc].
    + specialize (IH e1). destruct (run_until_error ops rest e1) as [[err e2] log].
      destruct IH as [Hpre Hcase]. simpl. split; [now rewrite <- Hpre|].
      destruct Hcase as [(-> & Hall & Hok)|(Hne & log0 & o' & -> & Hok)].
      * left. repeat split; [now rewrite Hall|now constructor].
      * right. split; [assumption|]. exists ((o, 0%Z) :: log0), o'.
        split; [reflexivity|now constructor].
    + simpl. split; [reflexivity|]. right. split; [assumption|].
      exists [], o. split; [reflexivity|constructor].
Qed.

End Driver.

(** C7: [evolve(gen)] is the run of the operators in the order select,
    mutate, recombine, resample, [gen] times over, that stops at the first
    non-zero code: it returns the code and the log of that run, and its
    engine but for the generation counters.  So the calls made are a prefix
    of the schedule; when [evolve] returns 0 every scheduled call was made
    and returned 0; when it returns a non-zero code, that code is the one of
    the last call made and every earlier call returned 0. *)
Theorem evolve_stops_at_first_error :
  forall (gsl_rng : Type) (X : hg_env gsl_rng) (gen : Z) (e : haploid_gt_dis gsl_rng),
    let sched := schedule (Z.to_nat gen) in
    let err := fst (fst (evolve X gen e)) in
    let log := snd (evolve X gen e) in
    (exists g lt,
        evolve X gen e
        = let '(err', e', log') := run_until_error (operators X) sched e in
          (err', with_generation e' g lt, log'))
    /\ map fst log = firstn (length log) sched
    /\ ((err = 0%Z /\ map fst log = sched /\ Forall (fun c => snd c = 0%Z) log)
        \/ (exists log0 o, log = log0 ++ [(o, err)]
              /\ Forall (fun c => snd c = 0%Z) log0 /\ (err =? 0)%Z = false)).
Proof.
  intros gsl_rng X gen e sched err log.
  destruct (evolve_loop_runs X (operators X) (operators_ignore_generation X)
              (Z.to_nat gen) e []) as (g & lt & Hrun).
  pose proof (run_until_error_log (operators X) sched e) as Hlog.
  change (evolve_loop X (operators X) (Z.to_nat gen) (0%Z, e, [])) with (evolve X gen e) in Hrun.
  unfold err, log. fold sched in Hrun. rewrite Hrun.
  destruct (run_until_error (operators X) sched e) as [[err' e'] log'].
  simpl. split; [now exists g, lt|].
  destruct Hlog as [Hpre Hcase]. split; [assumption|].
  destruct Hcase as [H|(Hne & log0 & o & Hl & Hok)]; [now left|].
  right. exists log0, o. repeat split; try assumption. now apply Z.eqb_neq.
Qed.

(** ** Selection *)

Lemma select_loop (fit f0 : darray) (n : nat) :
  (forall k, fst (for_range 0 n (select_step fit) (f0, 0)) k
             = if k <? n then f0 k * exp (fit k) else f0 k)
  /\ snd (for_range 0 n (select_step fit) (f0, 0))
     = sum_upto n (fun i => f0 i * exp (fit i)).
Proof.
  induction n as [|n [IHf IHn]].
  - rewrite for_range_0. split; reflexivity.
  - rewrite for_range_S. simpl Nat.add.
    destruct (for_range 0 n (select_step fit) (f0, 0)) as [f norm].
    simpl in IHf, IHn. unfold select_step. simpl. split.
    + intros k. destruct (Nat.eq_dec k n) as [->|Hk].
      * rewrite upd_same, IHf, Nat.ltb_irrefl.
        now replace (n <? S n) with true by (symmetry; apply Nat.ltb_lt; lia).
      * rewrite upd_other, IHf by assumption.
        destruct (Nat.ltb_spec k n), (Nat.ltb_spec k (S n)); try reflexivity; lia.
    + rewrite upd_same, IHf, Nat.ltb_irrefl, sum_upto_S, IHn. reflexivity.
Qed.

(** The population array and the normalization sum that [select] computes. *)
Lemma select_value {gsl_rng : Type} (e : haploid_gt_dis gsl_rng) :
  let n := Nat.shiftl 1 (number_of_loci e) in
  let p := func (population e) in
  let w := fun i => p i * exp (func (fitness e) i) in
  fst (select e) = 0%Z
  /\ forall i, func (population (snd (select e))) i
               = (if i <? n then w i else p i) * (1 / sum_upto n w).
Proof.
  intros n p w. unfold select.
  destruct (select_loop (func (fitness e)) (func (set_state (population e) HC_FUNC)) n)
    as [Hf Hn].
  fold n. destruct (for_range 0 n _ _) as [f norm]. simpl in Hf, Hn |- *.
  split; [reflexivity|]. intros i. now rewrite Hf, Hn.
Qed.

(** C6: when the normalization sum is not zero, [select] returns 0 and
    replaces each frequency [population[i]] by
    [population[i]*exp(fitness[i])] over the sum of
    [population[j]*exp(fitness[j])] over all genotypes [j]; the new
    frequencies sum to 1. *)
Theorem select_reweights_and_normalizes :
  forall (gsl_rng : Type) (e : haploid_gt_dis gsl_rng),
    let n := Nat.shiftl 1 (number_of_loci e) in
    let w := fun j => func (population e) j * exp (func (fitness e) j) in
    sum_upto n w <> 0 ->
    fst (select e) = 0%Z
    /\ (forall i, (i < n)%nat ->
          func (population (snd (select e))) i = w i / sum_upto n w)
    /\ sum_upto n (func (population (snd (select e)))) = 1.
Proof.
  intros gsl_rng e n w Hnorm.
  destruct (select_value e) as [Hret Hf]. fold n w in Hf.
  assert (Hin : forall i, (i < n)%nat ->
            func (population (snd (select e))) i = w i * (1 / sum_upto n w)).
  { intros i Hi. rewrite Hf. apply Nat.ltb_lt in Hi. now rewrite Hi. }
  split; [assumption|]. split.
  - intros i Hi. rewrite (Hin i Hi). unfold Rdiv. ring.
  - rewrite (sum_upto_ext n _ (fun i => w i * (1 / sum_upto n w))) by assumption.
    rewrite sum_upto_scale. now field.
Qed.

Lemma select_reweights_and_normalizes_witness :
  fst (select (sample_engine true [1/4; 3/4] [0; 0])) = 0%Z
  /\ sum_upto 2 (func (population (snd (select (sample_engine true [1/4; 3/4] [0; 0]))))) = 1.
Proof.
  assert (H : sum_upto 2 (fun j => array_of [1/4; 3/4] j * exp (array_of [0; 0] j)) <> 0).
  { unfold sum_upto, array_of. simpl. rewrite exp_0. lra. }
  destruct (select_reweights_and_normalizes unit (sample_engine true [1/4; 3/4] [0; 0]) H)
    as (Hret & _ & Hsum).
  split; [exact Hret | exact Hsum].
Defined.

(** ** Mutation *)

(** A loop whose turn [i] sets cell [i] to [g i] and keeps the others. *)
Lemma for_range_fill (body : nat -> darray -> darray) (g : nat -> R) :
  (forall i f k, body i f k = if Nat.eqb k i then g i else f k) ->
  forall lo n a k,
    for_range lo n body a k = if (lo <=? k) && (k <? lo + n) then g k else a k.
Proof.
  intros Hbody lo n a k. induction n as [|n IH].
  - rewrite for_range_0.
    destruct (Nat.leb_spec lo k), (Nat.ltb_spec k (lo + 0)); simpl; try reflexivity; lia.
  - rewrite for_range_S, Hbody, IH.
    destruct (Nat.eqb_spec k (lo + n)), (Nat.leb_spec lo k), (Nat.ltb_spec k (lo + n)),
      (Nat.ltb_spec k (lo + S n)); simpl; subst; try reflexivity; lia.
Qed.

Lemma mutate_locus_flow (rates : dtable) (p : darray) (i l : nat) (m : darray) :
  mutate_locus rates p i l m = upd m i (m i + mutation_flow rates p i l).
Proof.
  unfold mutate_locus, mutation_flow. rewrite has_bit_testbit.
  destruct (Nat.testbit i l) eqn:E.
  - now rewrite sub_pow2_clearbit.
  - now rewrite add_pow2_setbit.
Qed.

Lemma mutate_loci_loop_self (rates : dtable) (p : darray) (i n : nat) (m : darray) :
  for_range 0 n (mutate_locus rates p i) m i
  = m i + sum_upto n (mutation_flow rates p i).
Proof.
  induction n as [|n IH].
  - rewrite for_range_0. unfold sum_upto. simpl. lra.
  - rewrite for_range_S, mutate_locus_flow, upd_same, IH, sum_upto_S.
    simpl Nat.add. lra.
Qed.

Lemma mutate_loci_loop_other (rates : dtable) (p : darray) (i n : nat) (m : darray) (k : nat) :
  k <> i -> for_range 0 n (mutate_locus rates p i) m k = m k.
Proof.
  intros Hk. induction n as [|n IH]; [reflexivity|].
  now rewrite for_range_S, mutate_locus_flow, upd_other.
Qed.

Lemma mutate_genotype_value (L : nat) (rates : dtable) (p : darray) (i : nat)
    (m : darray) (k : nat) :
  mutate_genotype L rates p i m k
  = if Nat.eqb k i then sum_upto L (mutation_flow rates p i) else m k.
Proof.
  unfold mutate_genotype. destruct (Nat.eqb_spec k i) as [->|Hk].
  - rewrite mutate_loci_loop_self, upd_same. lra.
  - now rewrite mutate_loci_loop_other, upd_other.
Qed.

(** The two arrays that [mutate] computes. *)
Lemma mutate_value {gsl_rng : Type} (e : haploid_gt_dis gsl_rng) :
  let L := number_of_loci e in
  let n := Nat.shiftl 1 L in
  let p := func (population e) in
  let flows := fun i => sum_upto L (mutation_flow (mutation_rates e) p i) in
  fst (mutate e) = 0%Z
  /\ (forall i, func (mutants (snd (mutate e))) i
                = if i <? n then flows i else func (mutants e) i)
  /\ (forall i, func (population (snd (mutate e))) i
                = if i <? n then p i + flows i else p i).
Proof.
  intros L n p flows. unfold mutate. simpl. fold L n p.
  assert (Hm : forall i,
            for_range 0 n (mutate_genotype L (mutation_rates e) p) (func (mutants e)) i
            = if i <? n then flows i else func (mutants e) i).
  { intros i.
    rewrite (for_range_fill _ flows
               (fun i f k => mutate_genotype_value L (mutation_rates e) p i f k)).
    now destruct (Nat.leb_spec 0 i); [|lia]. }
  split; [reflexivity|]. split; [exact Hm|].
  intros i.
  rewrite (for_range_cells
             (fun i x => x + for_range 0 n (mutate_genotype L (mutation_rates e) p)
                              (func (mutants e)) i)).
  simpl. destruct (Nat.ltb_spec i n) as [Hi|Hi]; [|reflexivity].
  rewrite Hm. apply Nat.ltb_lt in Hi. now rewrite Hi.
Qed.

Lemma sum_upto_zero (n : nat) (a : darray) :
  (forall i, (i < n)%nat -> a i = 0) -> sum_upto n a = 0.
Proof.
  intros H. induction n as [|n IH]; [reflexivity|].
  rewrite sum_upto_S, IH, H by auto with arith. lra.
Qed.

(** C5: [mutate] returns 0; for every genotype [i] it sets [mutants[i]] to
    the sum over the loci of the mutation flow into [i] and adds it to
    [population[i]]; with all mutation rates zero every population value is
    unchanged. *)
Theorem mutate_adds_flows :
  forall (gsl_rng : Type) (e : haploid_gt_dis gsl_rng),
    let L := number_of_loci e in
    let n := Nat.shiftl 1 L in
    let p := func (population e) in
    let rates := mutation_rates e in
    let e' := snd (mutate e) in
    fst (mutate e) = 0%Z
    /\ (forall i, (i < n)%nat ->
          func (mutants e') i = Rsum (map (mutation_flow rates p i) (seq 0 L))
          /\ func (population e') i = p i + func (mutants e') i)
    /\ ((forall l, (l < L)%nat -> rates 0%nat l = 0 /\ rates 1%nat l = 0) ->
        forall i, func (population e') i = p i).
Proof.
  intros gsl_rng e L n p rates e'.
  destruct (mutate_value e) as (Hret & Hm & Hp). fold L n p rates e' in Hm, Hp.
  split; [assumption|]. split.
  - intros i Hi. apply Nat.ltb_lt in Hi. rewrite Hp, Hm, Hi. split; reflexivity.
  - intros Hzero i. rewrite Hp. destruct (i <? n); [|reflexivity].
    rewrite sum_upto_zero; [lra|].
    intros l Hl. destruct (Hzero l Hl) as [H0 H1]. unfold mutation_flow.
    rewrite H0, H1. destruct (Nat.testbit i l); lra.
Qed.

Lemma mutate_adds_flows_witness :
  func (population (snd (mutate (sample_engine true [1/4; 3/4] [0; 0])))) 0%nat = 1/4
  /\ func (population (snd (mutate (sample_engine true [1/4; 3/4] [0; 0])))) 1%nat = 3/4.
Proof.
  assert (Hzero : forall l, (l < 1)%nat ->
            zero_table 0%nat l = 0 /\ zero_table 1%nat l = 0)
    by (intros l Hl; split; reflexivity).
  split;
    exact (proj2 (proj2 (mutate_adds_flows unit (sample_engine true [1/4; 3/4] [0; 0])))
             Hzero _).
Defined.

(** ** Resampling *)

Lemma resample_step_value {gsl_rng : Type} (X : hg_env gsl_rng) (N cutoff : R) (i : nat)
    (f : darray) (norm : R) (g : gsl_rng) :
  resample_step X N cutoff i (f, norm, g)
  = (upd f i (fst (resampled_value X N cutoff (f i) g)),
     norm + fst (resampled_value X N cutoff (f i) g),
     snd (resampled_value X N cutoff (f i) g)).
Proof.
  unfold resample_step, resampled_value. destruct (Rlt_dec (f i) cutoff).
  - destruct (gsl_ran_poisson X g (N * f i)). reflexivity.
  - destruct (gsl_ran_gaussian X g (sqrt (f i / N))). reflexivity.
Qed.

(** The loop of [resample]: the cells are visited in order, each draw takes
    the generator the previous one left ([gs i] is the generator before the
    draw for cell [i]). *)
Lemma resample_loop {gsl_rng : Type} (X : hg_env gsl_rng) (N cutoff : R)
    (f0 : darray) (g0 : gsl_rng) (n : nat) :
  exists gs : nat -> gsl_rng,
    gs 0%nat = g0
    /\ let '(f, norm, g) := for_range 0 n (resample_step X N cutoff) (f0, 0, g0) in
       g = gs n
       /\ norm = sum_upto n f
       /\ (forall k, (n <= k)%nat -> f k = f0 k)
       /\ forall i, (i < n)%nat ->
            (f i, gs (S i)) = resampled_value X N cutoff (f0 i) (gs i).
Proof.
  induction n as [|n (gs & H0 & IH)].
  - exists (fun _ => g0). rewrite for_range_0. repeat split; intros; lia.
  - rewrite for_range_S. simpl Nat.add.
    destruct (for_range 0 n (resample_step X N cutoff) (f0, 0, g0)) as [[f norm] g].
    destruct IH as (Hg & Hnorm & Hout & Hin).
    rewrite resample_step_value, (Hout n) by lia.
    set (d := resampled_value X N cutoff (f0 n) g).
    exists (fun k => if Nat.eqb k (S n) then snd d else gs k).
    split; [now destruct (Nat.eqb_spec 0 (S n))|].
    rewrite Nat.eqb_refl. split; [reflexivity|]. split; [|split].
    + rewrite sum_upto_S, upd_same.
      rewrite (sum_upto_ext n (upd f n (fst d)) f), Hnorm; [reflexivity|].
      intros i Hi. apply upd_other. lia.
    + intros k Hk. rewrite upd_other by lia. apply Hout. lia.
    + intros i Hi. destruct (Nat.eq_dec i n) as [->|Hne].
      * rewrite upd_same, Nat.eqb_refl.
        destruct (Nat.eqb_spec n (S n)); [lia|].
        unfold d. rewrite Hg. now destruct (resampled_value X N cutoff (f0 n) (gs n)).
      * rewrite upd_other by assumption.
        destruct (Nat.eqb_spec (S i) (S n)); [lia|].
        destruct (Nat.eqb_spec i (S n)); [lia|].
        apply Hin. lia.
Qed.

(** C3: [resample(n)] perturbs the cells in order, each by the Poisson or
    the Gaussian rule at the target size; with [norm] the total mass after
    the perturbation, it returns the Extinction code exactly when [norm] is
    below [HG_NOTHING], leaving the perturbed values unscaled, and otherwise
    returns 0 with every value divided by [norm], so that the total mass is
    1.  The target size is positive: at a target size of zero or below the
    code divides by zero or takes the square root of a negative number, and
    leaves NaN.  The macros are taken with [HG_NOTHING] positive,
    [HG_EXTINCT] different from the success code 0 and [HG_CONTINUOUS] not
    negative. *)
Theorem resample_perturbs_then_normalizes :
  forall (gsl_rng : Type) (X : hg_env gsl_rng) (e : haploid_gt_dis gsl_rng) (n : R),
    0 < HG_NOTHING X -> HG_EXTINCT X <> 0%Z -> (0 <= HG_CONTINUOUS X)%Z ->
    let targetSize := if Rlt_dec n 1 then population_size e else n in
    0 < targetSize ->
    let cutoff := IZR (HG_CONTINUOUS X) / targetSize in
    let size := Nat.shiftl 1 (number_of_loci e) in
    let e' := snd (resample X n e) in
    exists (f : darray) (gs : nat -> gsl_rng),
      gs 0%nat = rng e
      /\ (forall i, (i < size)%nat ->
            (f i, gs (S i))
            = resampled_value X targetSize cutoff (func (population e) i) (gs i))
      /\ rng e' = gs size
      /\ (fst (resample X n e) = HG_EXTINCT X <-> sum_upto size f < HG_NOTHING X)
      /\ (sum_upto size f < HG_NOTHING X ->
            forall i, (i < size)%nat -> func (population e') i = f i)
      /\ (~ sum_upto size f < HG_NOTHING X ->
            fst (resample X n e) = 0%Z
            /\ (forall i, (i < size)%nat ->
                  func (population e') i = f i / sum_upto size f)
            /\ sum_upto size (func (population e')) = 1).
Proof.
  intros gsl_rng X e n Heps Hext Hcont targetSize Hsize cutoff size e'.
  destruct (resample_loop X targetSize cutoff (func (population e)) (rng e) size)
    as (gs & H0 & Hloop).
  unfold e', resample, resample_at. fold targetSize cutoff size. simpl func in *.
  destruct (for_range 0 size (resample_step X targetSize cutoff)
              (func (population e), 0, rng e)) as [[f norm] g].
  destruct Hloop as (Hg & Hnorm & _ & Hin).
  exists f, gs. subst norm.
  split; [assumption|]. split; [assumption|].
  destruct (Rlt_dec (sum_upto size f) (HG_NOTHING X)) as [Hlt|Hge]; simpl.
  - split; [assumption|]. split; [tauto|]. split; [reflexivity|tauto].
  - split; [assumption|]. split; [|split; [tauto|]].
    + split; [intros H; now symmetry in H|tauto].
    + intros _. split; [reflexivity|]. split.
      * intros i _. unfold Rdiv. ring.
      * rewrite sum_upto_scale. field. lra.
Qed.

Lemma resample_perturbs_then_normalizes_witness :
  exists (f : darray) (gs : nat -> unit),
    gs 0%nat = tt
    /\ (fst (resample sample_env 0 (sample_engine true [1/4; 3/4] [0; 0])) = (-1)%Z
        <-> sum_upto 2 f < 1 / 1000000).
Proof.
  assert (Heps : 0 < HG_NOTHING sample_env) by (simpl; lra).
  assert (Hext : HG_EXTINCT sample_env <> 0%Z) by (simpl; lia).
  assert (Hcont : (0 <= HG_CONTINUOUS sample_env)%Z) by (simpl; lia).
  assert (Hsize : 0 < (if Rlt_dec 0 1
                       then population_size (sample_engine true [1/4; 3/4] [0; 0])
                       else 0)).
  { destruct (Rlt_dec 0 1) as [_|H]; [simpl; lra|exfalso; lra]. }
  destruct (resample_perturbs_then_normalizes unit sample_env
              (sample_engine true [1/4; 3/4] [0; 0]) 0 Heps Hext Hcont Hsize)
    as (f & gs & H0 & _ & _ & Hiff & _).
  exists f, gs. split; [exact H0 | exact Hiff].
Defined.

(** ** The target size of resample *)

(** C10: for an argument [n < 1.0], zero and the negative numbers among
    them, [resample(n)] draws at the stored [population_size]: the cutoff
    is [HG_CONTINUOUS/population_size], a cell [x] below it becomes a
    Poisson draw of mean [population_size*x] divided by [population_size],
    another cell gets a Gaussian draw of standard deviation
    [sqrt(x/population_size)] added, and the population it leaves holds
    these values, divided by their sum unless that is below [HG_NOTHING].
    For [n >= 1.0] the same holds with [n] in the place of
    [population_size].  The size drawn at is positive and [HG_CONTINUOUS]
    is not negative. *)
Theorem resample_target_size :
  forall (gsl_rng : Type) (X : hg_env gsl_rng) (e : haploid_gt_dis gsl_rng) (n : R),
    (0 <= HG_CONTINUOUS X)%Z ->
    let size := Nat.shiftl 1 (number_of_loci e) in
    let e' := snd (resample X n e) in
    let drawn_at := fun N : R =>
      exists (f : darray) (gs : nat -> gsl_rng),
        gs 0%nat = rng e
        /\ (forall i, (i < size)%nat ->
              (f i, gs (S i))
              = resampled_value X N (IZR (HG_CONTINUOUS X) / N)
                  (func (population e) i) (gs i))
        /\ rng e' = gs size
        /\ forall i, (i < size)%nat ->
             func (population e') i
             = if Rlt_dec (sum_upto size f) (HG_NOTHING X) then f i
               else f i / sum_upto size f in
    (n < 1 -> 0 < population_size e -> drawn_at (population_size e))
    /\ (1 <= n -> drawn_at n).
Proof.
  intros gsl_rng X e n Hcont size e' drawn_at.
  assert (H : drawn_at (if Rlt_dec n 1 then population_size e else n)).
  { unfold drawn_at, e', resample, resample_at.
    set (N := if Rlt_dec n 1 then population_size e else n).
    destruct (resample_loop X N (IZR (HG_CONTINUOUS X) / N) (func (population e)) (rng e) size)
      as (gs & H0 & Hloop).
    fold size. simpl func in *.
    destruct (for_range 0 size (resample_step X N (IZR (HG_CONTINUOUS X) / N))
                (func (population e), 0, rng e)) as [[f norm] g].
    destruct Hloop as (Hg & Hnorm & _ & Hin).
    exists f, gs. subst norm.
    split; [assumption|]. split; [assumption|].
    destruct (Rlt_dec (sum_upto size f) (HG_NOTHING X)); simpl.
    - split; [assumption|]. reflexivity.
    - split; [assumption|]. intros i _. unfold Rdiv. ring. }
  destruct (Rlt_dec n 1) as [Hlt|Hge]; split; intros Hn; try (exfalso; lra).
  - intros _. exact H.
  - exact H.
Qed.

Lemma resample_target_size_witness :
  (exists (f : darray) (gs : nat -> unit),
     forall i, (i < 2)%nat ->
       (f i, gs (S i))
       = resampled_value sample_env 1000 (IZR 10000 / 1000)
           (func (population (sample_engine true [1/4; 3/4] [0; 0])) i) (gs i))
  /\ (exists (f : darray) (gs : nat -> unit),
        forall i, (i < 2)%nat ->
          (f i, gs (S i))
          = resampled_value sample_env 5 (IZR 10000 / 5)
              (func (population (sample_engine true [1/4; 3/4] [0; 0])) i) (gs i)).
Proof.
  assert (Hcont : (0 <= HG_CONTINUOUS sample_env)%Z) by (simpl; lia).
  assert (Hlt : 0 < 1) by lra.
  assert (Hpos : 0 < population_size (sample_engine true [1/4; 3/4] [0; 0]))
    by (simpl; lra).
  assert (Hge : 1 <= 5) by lra.
  split.
  - destruct (proj1 (resample_target_size unit sample_env
                       (sample_engine true [1/4; 3/4] [0; 0]) 0 Hcont) Hlt Hpos)
      as (f & gs & _ & Hdraw & _).
    exists f, gs. exact Hdraw.
  - destruct (proj2 (resample_target_size unit sample_env
                       (sample_engine true [1/4; 3/4] [0; 0]) 5 Hcont) Hge)
      as (f & gs & _ & Hdraw & _).
    exists f, gs. exact Hdraw.
Defined.

(** ** Recombination: the coefficient arrays *)

Lemma free_partition_loop (L : nat) (pc : darray) (i n : nat) (rc : darray) (k : nat) :
  for_range 0 n (free_partition_step L pc i) rc k
  = if Nat.eqb k i
    then rc i + sum_upto n (fun j => pc (maternal_alleles L i j) * pc (paternal_alleles L i j))
    else rc k.
Proof.
  destruct (Nat.eqb_spec k i) as [->|Hk].
  - induction n as [|n IH].
    + rewrite for_range_0. unfold sum_upto. simpl. lra.
    + rewrite for_range_S. unfold free_partition_step at 1.
      rewrite upd_same, IH, sum_upto_S. simpl Nat.add. lra.
  - induction n as [|n IH]; [reflexivity|].
    rewrite for_range_S. unfold free_partition_step at 1. now rewrite upd_other.
Qed.

Lemma general_partition_loop (L : nat) (patterns : dtable) (pc : darray) (i n : nat)
    (rc : darray) (k : nat) :
  for_range 0 n (general_partition_step L patterns pc i) rc k
  = if Nat.eqb k i
    then rc i + sum_upto n (fun j => patterns i j * pc (maternal_alleles L i j)
                                     * pc (paternal_alleles L i j))
    else rc k.
Proof.
  destruct (Nat.eqb_spec k i) as [->|Hk].
  - induction n as [|n IH].
    + rewrite for_range_0. unfold sum_upto. simpl. lra.
    + rewrite for_range_S. unfold general_partition_step at 1.
      rewrite upd_same, IH, sum_upto_S. simpl Nat.add. lra.
  - induction n as [|n IH]; [reflexivity|].
    rewrite for_range_S. unfold general_partition_step at 1. now rewrite upd_other.
Qed.

Lemma free_coefficient_step_value (L : nat) (pc : darray) (i : nat) (rc : darray) (k : nat) :
  free_coefficient_step L pc i rc k
  = if Nat.eqb k i then free_coefficient L pc i else rc k.
Proof.
  unfold free_coefficient_step, free_coefficient.
  destruct (Nat.eqb_spec k i) as [->|Hk].
  - rewrite upd_same, free_partition_loop, Nat.eqb_refl, upd_same. ring.
  - rewrite upd_other, free_partition_loop by assumption.
    apply Nat.eqb_neq in Hk. rewrite Hk. apply Nat.eqb_neq in Hk. now apply upd_other.
Qed.

Lemma general_coefficient_step_value (L : nat) (patterns : dtable) (pc : darray)
    (i : nat) (rc : darray) (k : nat) :
  general_coefficient_step L patterns pc i rc k
  = if Nat.eqb k i then general_coefficient L patterns pc i else rc k.
Proof.
  unfold general_coefficient_step, general_coefficient.
  destruct (Nat.eqb_spec k i) as [->|Hk].
  - rewrite upd_same, general_partition_loop, Nat.eqb_refl, upd_same. ring.
  - rewrite upd_other, general_partition_loop by assumption.
    apply Nat.eqb_neq in Hk. rewrite Hk. apply Nat.eqb_neq in Hk. now apply upd_other.
Qed.

Lemma pow2_pos (L : nat) : (0 < 2 ^ L)%nat.
Proof. apply Nat.neq_0_lt_0, Nat.pow_nonzero. discriminate. Qed.

Lemma free_coefficients_value (L : nat) (pc rc : darray) (k : nat) :
  free_coefficients L pc rc k
  = if Nat.eqb k 0 then 1 / INR (Nat.shiftl 1 L)
    else if k <? Nat.shiftl 1 L then free_coefficient L pc k else rc k.
Proof.
  unfold free_coefficients.
  rewrite (for_range_fill _ _ (free_coefficient_step_value L pc)).
  rewrite Nat.shiftl_1_l. pose proof (pow2_pos L).
  destruct (Nat.eqb_spec k 0) as [->|Hk].
  - simpl. apply upd_same.
  - rewrite upd_other by assumption.
    destruct (Nat.leb_spec 1 k), (Nat.ltb_spec k (1 + (2 ^ L - 1))),
      (Nat.ltb_spec k (2 ^ L)); simpl; try reflexivity; lia.
Qed.

Lemma general_coefficients_value (L : nat) (patterns : dtable) (pc rc : darray) (k : nat) :
  general_coefficients L patterns pc rc k
  = if Nat.eqb k 0 then 1 / INR (Nat.shiftl 1 L)
    else if k <? Nat.shiftl 1 L then general_coefficient L patterns pc k else rc k.
Proof.
  unfold general_coefficients.
  rewrite (for_range_fill _ _ (general_coefficient_step_value L patterns pc)).
  rewrite Nat.shiftl_1_l. pose proof (pow2_pos L).
  destruct (Nat.eqb_spec k 0) as [->|Hk].
  - simpl. apply upd_same.
  - rewrite upd_other by assumption.
    destruct (Nat.leb_spec 1 k), (Nat.ltb_spec k (1 + (2 ^ L - 1))),
      (Nat.ltb_spec k (2 ^ L)); simpl; try reflexivity; lia.
Qed.

(** What [recombine] returns and leaves in the engine. *)
Lemma recombine_value {gsl_rng : Type} (X : hg_env gsl_rng) (e : haploid_gt_dis gsl_rng) :
  let L := number_of_loci e in
  let n := Nat.shiftl 1 L in
  let p := func (population e) in
  let rf := coeff_to_func X L (recombinant_coefficients X e) in
  let e' := snd (recombine X e) in
  fst (recombine X e) = 0%Z
  /\ coeff (recombinants e') = recombinant_coefficients X e
  /\ func (recombinants e') = rf
  /\ coeff (population e') = func_to_coeff X L p
  /\ forall i, func (population e') i
               = if i <? n
                 then (if free_recombination e
                       then p i + outcrossing_rate e * (rf i - p i) else rf i)
                 else p i.
Proof.
  intros L n p rf e'. unfold e', rf, recombinant_coefficients, recombine,
    calculate_recombinants.
  destruct (free_recombination e) eqn:Hfree; simpl; rewrite Hfree; fold L n p;
    (split; [reflexivity|]); (split; [reflexivity|]); (split; [reflexivity|]);
    (split; [reflexivity|]); intros i.
  - rewrite (for_range_cells
               (fun i x => x + outcrossing_rate e
                  * (coeff_to_func X L
                       (free_coefficients L (func_to_coeff X L p) (coeff (recombinants e))) i
                     - x))).
    reflexivity.
  - rewrite (for_range_cells
               (fun i x => coeff_to_func X L
                  (general_coefficients L (recombination_patters e)
                     (func_to_coeff X L p) (coeff (recombinants e))) i)).
    reflexivity.
Qed.

(** ** Conservation of the total mass *)

Lemma sum_upto_app (n m : nat) (a : darray) :
  sum_upto (n + m) a = sum_upto n a + sum_upto m (fun i => a (n + i)%nat).
Proof.
  induction m as [|m IH].
  - rewrite Nat.add_0_r. unfold sum_upto at 3. simpl. lra.
  - rewrite Nat.add_succ_r, !sum_upto_S, IH. lra.
Qed.

Lemma sum_upto_swap (n m : nat) (a : nat -> nat -> R) :
  sum_upto n (fun i => sum_upto m (a i)) = sum_upto m (fun l => sum_upto n (fun i => a i l)).
Proof.
  induction n as [|n IH].
  - symmetry. apply sum_upto_zero. reflexivity.
  - rewrite sum_upto_S, IH, <- sum_upto_plus. apply sum_upto_ext.
    intros l _. now rewrite sum_upto_S.
Qed.

Lemma testbit_below (L i : nat) : (i < 2 ^ L)%nat -> Nat.testbit i L = false.
Proof.
  intros H. rewrite <- (Nat.mod_small i (2 ^ L)) by assumption.
  now apply Nat.mod_pow2_bits_high.
Qed.

Lemma testbit_add_pow2_low (L i l : nat) :
  (l < L)%nat -> Nat.testbit (i + 2 ^ L) l = Nat.testbit i l.
Proof.
  intros Hl. rewrite <- (Nat.mod_pow2_bits_low (i + 2 ^ L) L l Hl).
  rewrite <- (Nat.mod_pow2_bits_low i L l Hl). f_equal.
  rewrite <- (Nat.mul_1_l (2 ^ L)) at 1. apply Nat.Div0.mod_add.
Qed.

Lemma testbit_add_pow2_top (L i : nat) :
  (i < 2 ^ L)%nat -> Nat.testbit (i + 2 ^ L) L = true.
Proof.
  intros H. apply Nat.testbit_true.
  rewrite <- (Nat.mul_1_l (2 ^ L)) at 1.
  rewrite Nat.div_add by (apply Nat.pow_nonzero; discriminate).
  now rewrite Nat.div_small.
Qed.

Lemma testbit_true_ge (i l : nat) : Nat.testbit i l = true -> (2 ^ l <= i)%nat.
Proof.
  intros H. destruct (Nat.le_gt_cases (2 ^ l) i) as [|Hlt]; [assumption|].
  rewrite (testbit_below l i Hlt) in H. discriminate.
Qed.

(** The flow as the code computes it, with [i - (1<<l)] and [i + (1<<l)]. *)
Lemma mutation_flow_arith (rates : dtable) (p : darray) (i l : nat) :
  mutation_flow rates p i l
  = if Nat.testbit i l
    then rates 0%nat l * p (i - 2 ^ l)%nat - rates 1%nat l * p i
    else rates 1%nat l * p (i + 2 ^ l)%nat - rates 0%nat l * p i.
Proof.
  unfold mutation_flow. destruct (Nat.testbit i l) eqn:E.
  - now rewrite <- sub_pow2_clearbit, Nat.shiftl_1_l.
  - now rewrite <- add_pow2_setbit, Nat.shiftl_1_l.
Qed.

(** Mutation at one locus moves mass between the genotypes that differ at
    that locus: the flows over all genotypes cancel. *)
Lemma mutation_flow_cancels (rates : dtable) (L l : nat) :
  (l < L)%nat ->
  forall p : darray, sum_upto (2 ^ L) (fun i => mutation_flow rates p i l) = 0.
Proof.
  induction L as [|L IH]; intros Hl p; [lia|].
  replace (2 ^ S L)%nat with (2 ^ L + 2 ^ L)%nat by (simpl; lia).
  rewrite sum_upto_app.
  destruct (Nat.eq_dec l L) as [->|Hne].
  - rewrite <- sum_upto_plus. apply sum_upto_zero. intros i Hi.
    rewrite !mutation_flow_arith.
    rewrite (testbit_below L i Hi).
    rewrite (Nat.add_comm (2 ^ L) i), (testbit_add_pow2_top L i Hi).
    replace (i + 2 ^ L - 2 ^ L)%nat with i by lia. lra.
  - assert (Hl' : (l < L)%nat) by lia.
    rewrite (IH Hl' p).
    rewrite (sum_upto_ext _ _
               (fun i => mutation_flow rates (fun k => p (k + 2 ^ L)%nat) i l)).
    + rewrite (IH Hl'). lra.
    + intros i Hi. rewrite !mutation_flow_arith.
      rewrite (Nat.add_comm (2 ^ L) i), (testbit_add_pow2_low L i l Hl').
      destruct (Nat.testbit i l) eqn:E.
      * apply testbit_true_ge in E.
        now replace (i + 2 ^ L - 2 ^ l)%nat with (i - 2 ^ l + 2 ^ L)%nat by lia.
      * now replace (i + 2 ^ L + 2 ^ l)%nat with (i + 2 ^ l + 2 ^ L)%nat by lia.
Qed.

Lemma mutate_keeps_mass {gsl_rng : Type} (e : haploid_gt_dis gsl_rng) :
  let n := Nat.shiftl 1 (number_of_loci e) in
  sum_upto n (func (population (snd (mutate e)))) = sum_upto n (func (population e)).
Proof.
  intros n. destruct (mutate_value e) as (_ & _ & Hp).
  set (L := number_of_loci e) in *. set (p := func (population e)) in *.
  fold n in Hp.
  rewrite (sum_upto_ext n _
             (fun i => p i + sum_upto L (mutation_flow (mutation_rates e) p i))).
  - rewrite sum_upto_plus, sum_upto_swap.
    rewrite (sum_upto_zero L); [lra|].
    intros l Hl. unfold n. rewrite Nat.shiftl_1_l. now apply mutation_flow_cancels.
  - intros i Hi. rewrite Hp. apply Nat.ltb_lt in Hi. now rewrite Hi.
Qed.

Lemma recombine_mass {gsl_rng : Type} (X : hg_env gsl_rng) (e : haploid_gt_dis gsl_rng) :
  let L := number_of_loci e in
  let n := Nat.shiftl 1 L in
  (forall c, sum_upto n (coeff_to_func X L c) = INR n * c 0%nat) ->
  sum_upto n (func (population e)) = 1 ->
  sum_upto n (func (population (snd (recombine X e)))) = 1.
Proof.
  intros L n Hmass Hone.
  destruct (recombine_value X e) as (_ & _ & _ & _ & Hp). fold L n in Hp.
  set (rf := coeff_to_func X L (recombinant_coefficients X e)) in *.
  assert (Hrf : sum_upto n rf = 1).
  { unfold rf. rewrite Hmass. unfold recombinant_coefficients. fold L.
    assert (Hn : INR n <> 0).
    { apply not_0_INR. unfold n. rewrite Nat.shiftl_1_l.
      apply Nat.pow_nonzero. discriminate. }
    destruct (free_recombination e).
    - rewrite free_coefficients_value. simpl. fold n. now field.
    - rewrite general_coefficients_value. simpl. fold n. now field. }
  destruct (free_recombination e).
  - rewrite (sum_upto_ext n _
               (fun i => func (population e) i * (1 - outcrossing_rate e)
                         + rf i * outcrossing_rate e)).
    + rewrite sum_upto_plus, !sum_upto_scale, Hone, Hrf. ring.
    + intros i Hi. rewrite Hp. apply Nat.ltb_lt in Hi. rewrite Hi. ring.
  - rewrite (sum_upto_ext n _ rf); [assumption|].
    intros i Hi. rewrite Hp. apply Nat.ltb_lt in Hi. now rewrite Hi.
Qed.

Lemma sum_upto_nonneg (n : nat) (a : darray) :
  (forall i, (i < n)%nat -> 0 <= a i) -> 0 <= sum_upto n a.
Proof.
  intros H. induction n as [|n IH]; [unfold sum_upto; simpl; lra|].
  rewrite sum_upto_S. pose proof (H n (Nat.lt_succ_diag_r n)).
  assert (0 <= sum_upto n a) by (apply IH; intros; apply H; lia). lra.
Qed.

Lemma sum_upto_pos (n : nat) (a : darray) (k : nat) :
  (forall i, (i < n)%nat -> 0 <= a i) -> (k < n)%nat -> 0 < a k -> 0 < sum_upto n a.
Proof.
  intros H Hk Hpos. induction n as [|n IH]; [lia|].
  rewrite sum_upto_S. pose proof (H n (Nat.lt_succ_diag_r n)).
  assert (Hn : 0 <= sum_upto n a) by (apply sum_upto_nonneg; intros; apply H; lia).
  destruct (Nat.eq_dec k n) as [->|Hne]; [lra|].
  assert (0 < sum_upto n a) by (apply IH; [intros; apply H; lia|lia]). lra.
Qed.

Lemma sum_upto_some_pos (n : nat) (a : darray) :
  0 < sum_upto n a -> exists k, (k < n)%nat /\ 0 < a k.
Proof.
  induction n as [|n IH]; [unfold sum_upto; simpl; lra|].
  rewrite sum_upto_S. intros H.
  destruct (Rlt_dec 0 (a n)) as [Hn|Hn]; [exists n; split; [lia|assumption]|].
  destruct IH as (k & Hk & Hpos); [lra|]. exists k. split; [lia|assumption].
Qed.

(** The normalization sum of [select] is positive on frequencies that are
    not negative and sum to a positive number. *)
Lemma select_norm_positive (n : nat) (p fit : darray) :
  (forall i, (i < n)%nat -> 0 <= p i) -> 0 < sum_upto n p ->
  0 < sum_upto n (fun j => p j * exp (fit j)).
Proof.
  intros Hp Hsum. destruct (sum_upto_some_pos n p Hsum) as (k & Hk & Hpos).
  apply (sum_upto_pos n _ k).
  - intros i Hi. apply Rmult_le_pos; [now apply Hp|left; apply exp_pos].
  - assumption.
  - apply Rmult_lt_0_compat; [assumption|apply exp_pos].
Qed.

Lemma resample_success_mass {gsl_rng : Type} (X : hg_env gsl_rng)
    (e : haploid_gt_dis gsl_rng) (m : R) :
  0 < HG_NOTHING X -> HG_EXTINCT X <> 0%Z -> fst (resample X m e) = 0%Z ->
  sum_upto (Nat.shiftl 1 (number_of_loci e)) (func (population (snd (resample X m e)))) = 1.
Proof.
  intros Heps Hext. unfold resample, resample_at.
  set (N := if Rlt_dec m 1 then population_size e else m).
  set (n := Nat.shiftl 1 (number_of_loci e)).
  destruct (resample_loop X N (IZR (HG_CONTINUOUS X) / N)
              (func (set_state (population e) HC_FUNC)) (rng e) n) as (gs & _ & Hloop).
  destruct (for_range 0 n _ _) as [[f norm] g].
  destruct Hloop as (_ & Hnorm & _).
  destruct (Rlt_dec norm (HG_NOTHING X)) as [Hlt|Hge]; simpl.
  - intros H. now elim Hext.
  - intros _. rewrite sum_upto_scale, <- Hnorm. field. lra.
Qed.

(** C4.  On a population whose FUNC values sum to 1: [mutate] keeps the
    sum; [select] yields sum 1 when its normalization sum is not zero, as it
    is whenever no value of the population is negative; [recombine] yields
    sum 1 when the inverse transform of the hypercube gives a function of
    total mass [2^L * coeff[0]]; a call of [resample] at a positive target
    size that returns 0 yields sum 1 (with [HG_NOTHING] positive,
    [HG_EXTINCT] not the success code and [HG_CONTINUOUS] not negative).
    A zero normalization sum and a target size of zero or below make the
    code divide by zero: it leaves NaN there, about which nothing is
    stated. *)
Theorem operators_keep_total_mass :
  forall (gsl_rng : Type) (X : hg_env gsl_rng) (e : haploid_gt_dis gsl_rng) (m : R),
    let L := number_of_loci e in
    let n := Nat.shiftl 1 L in
    let mass := fun e' : haploid_gt_dis gsl_rng => sum_upto n (func (population e')) in
    mass e = 1 ->
    mass (snd (mutate e)) = 1
    /\ (sum_upto n (fun j => func (population e) j * exp (func (fitness e) j)) <> 0 ->
        mass (snd (select e)) = 1)
    /\ ((forall i, (i < n)%nat -> 0 <= func (population e) i) ->
        mass (snd (select e)) = 1)
    /\ ((forall c, sum_upto n (coeff_to_func X L c) = INR n * c 0%nat) ->
        mass (snd (recombine X e)) = 1)
    /\ (0 < HG_NOTHING X -> HG_EXTINCT X <> 0%Z -> (0 <= HG_CONTINUOUS X)%Z ->
        0 < (if Rlt_dec m 1 then population_size e else m) ->
        fst (resample X m e) = 0%Z ->
        mass (snd (resample X m e)) = 1).
Proof.
  intros gsl_rng X e m L n mass Hone. unfold mass in *.
  assert (Hselect : sum_upto n (fun j => func (population e) j * exp (func (fitness e) j)) <> 0 ->
                    sum_upto n (func (population (snd (select e)))) = 1).
  { intros Hnorm.
    destruct (select_value e) as [_ Hf]. fold L n in Hf.
    rewrite (sum_upto_ext n _
               (fun i => func (population e) i * exp (func (fitness e) i)
                         * (1 / sum_upto n (fun j => func (population e) j
                                                     * exp (func (fitness e) j))))).
    + rewrite sum_upto_scale. now field.
    + intros i Hi. rewrite Hf. apply Nat.ltb_lt in Hi. now rewrite Hi. }
  split; [|split; [|split; [|split]]].
  - unfold n, L. now rewrite mutate_keeps_mass.
  - exact Hselect.
  - intros Hpos. apply Hselect.
    assert (0 < sum_upto n (fun j => func (population e) j * exp (func (fitness e) j)));
      [|lra].
    apply select_norm_positive; [assumption|]. rewrite Hone. lra.
  - intros Hmass. now apply recombine_mass.
  - intros Heps Hext Hcont Hsize Hok. now apply resample_success_mass.
Qed.

Lemma sample_transform_mass (c : darray) :
  sum_upto (Nat.shiftl 1 1) (coeff_to_func sample_env 1 c) = INR (Nat.shiftl 1 1) * c 0%nat.
Proof.
  simpl. unfold wh_coeff_to_func, sum_upto, wh_sign. simpl. lra.
Qed.

Lemma sample_resample_returns_0 :
  fst (resample (sample_env_drawing 1 0) 1 (sample_engine true [1/4; 3/4] [0; 0])) = 0%Z.
Proof.
  unfold resample, resample_at.
  destruct (Rlt_dec 1 1) as [H|_]; [lra|].
  unfold for_range. simpl. unfold array_of. simpl. unfold upd. simpl.
  repeat match goal with
  | |- context [Rlt_dec ?a ?b] => destruct (Rlt_dec a b); try (exfalso; lra); simpl
  end.
  reflexivity.
Qed.

Lemma operators_keep_total_mass_witness :
  let e := sample_engine true [1/4; 3/4] [0; 0] in
  sum_upto 2 (func (population (snd (mutate e)))) = 1
  /\ sum_upto 2 (func (population (snd (select e)))) = 1
  /\ sum_upto 2 (func (population (snd (recombine sample_env e)))) = 1
  /\ sum_upto 2 (func (population (snd (resample (sample_env_drawing 1 0) 1 e)))) = 1.
Proof.
  intros e.
  assert (Hone : sum_upto 2 (func (population e)) = 1)
    by (unfold sum_upto, e; simpl; unfold array_of; simpl; lra).
  assert (Hpos : forall i, (i < 2)%nat -> 0 <= func (population e) i).
  { intros i Hi. unfold e. simpl.
    destruct i as [|[|i]]; [| |lia]; unfold array_of; simpl; lra. }
  assert (Heps : 0 < HG_NOTHING (sample_env_drawing 1 0)) by (simpl; lra).
  assert (Hext : HG_EXTINCT (sample_env_drawing 1 0) <> 0%Z) by (simpl; lia).
  assert (Hcont : (0 <= HG_CONTINUOUS (sample_env_drawing 1 0))%Z) by (simpl; lia).
  assert (Hsize : 0 < (if Rlt_dec 1 1 then population_size e else 1))
    by (destruct (Rlt_dec 1 1); [exfalso; lra|lra]).
  destruct (operators_keep_total_mass unit sample_env e 0 Hone) as (Hm & _ & Hs & Hr & _).
  destruct (operators_keep_total_mass unit (sample_env_drawing 1 0) e 1 Hone)
    as (_ & _ & _ & _ & Hd).
  split; [exact Hm|]. split; [exact (Hs Hpos)|].
  split; [exact (Hr sample_transform_mass)
         | exact (Hd Heps Hext Hcont Hsize sample_resample_returns_0)].
Defined.

(** ** The recombination patterns *)

Lemma find_first (p : nat -> bool) (a n m : nat) :
  find p (seq a n) = Some m ->
  (a <= m < a + n)%nat /\ p m = true /\ forall k, (a <= k < m)%nat -> p k = false.
Proof.
  revert a. induction n as [|n IH]; intros a; simpl; [discriminate|].
  destruct (p a) eqn:E.
  - intros H. injection H as <-. repeat split; try lia. assumption.
  - intros H. destruct (IH _ H) as (Hr & Hp & Hlow). repeat split; try lia; try assumption.
    intros k Hk. destruct (Nat.eq_dec k a) as [->|]; [assumption|]. apply Hlow. lia.
Qed.

Lemma find_none_all (p : nat -> bool) (a n : nat) :
  find p (seq a n) = None -> forall k, (a <= k < a + n)%nat -> p k = false.
Proof.
  intros H k Hk. apply (find_none _ _ H). apply in_seq. lia.
Qed.

Lemma land_pow2_eqb (s l : nat) :
  Nat.eqb (Nat.land s (Nat.shiftl 1 l)) 0 = negb (Nat.testbit s l).
Proof.
  rewrite <- has_bit_testbit. unfold has_bit. now rewrite negb_involutive.
Qed.

Lemma find_marg_locus_lowest (L s m : nat) :
  find_marg_locus L s = Some m -> lowest_absent_locus L s m.
Proof.
  unfold find_marg_locus. intros H. apply find_first in H.
  destruct H as (Hr & Hp & Hlow). rewrite land_pow2_eqb in Hp.
  repeat split; [lia|now apply negb_true_iff|].
  intros k Hk.
  assert (H : Nat.eqb (Nat.land s (Nat.shiftl 1 k)) 0 = false) by (apply Hlow; lia).
  rewrite land_pow2_eqb in H. now apply negb_false_iff.
Qed.

Lemma testbit_high (L i k : nat) : (i < 2 ^ L)%nat -> (L <= k)%nat -> Nat.testbit i k = false.
Proof.
  intros Hi Hk. apply testbit_below.
  apply Nat.lt_le_trans with (2 ^ L)%nat; [assumption|].
  apply Nat.pow_le_mono_r; [discriminate|assumption].
Qed.

Lemma all_bits_full (L s : nat) :
  (s < 2 ^ L)%nat -> (forall k, (k < L)%nat -> Nat.testbit s k = true) ->
  s = (2 ^ L - 1)%nat.
Proof.
  intros Hs Hall. replace (2 ^ L - 1)%nat with (Nat.ones L)
    by (rewrite Nat.ones_equiv; lia).
  apply Nat.bits_inj. intros k. destruct (Nat.lt_ge_cases k L) as [Hk|Hk].
  - now rewrite Hall, Nat.ones_spec_low.
  - now rewrite (testbit_high L s k), Nat.ones_spec_high.
Qed.

Lemma find_marg_locus_some (L s : nat) :
  (s < 2 ^ L - 1)%nat -> exists m, find_marg_locus L s = Some m.
Proof.
  intros Hs. destruct (find_marg_locus L s) as [m|] eqn:E; [now exists m|].
  exfalso. assert (s = (2 ^ L - 1)%nat); [|lia].
  apply all_bits_full; [lia|]. intros k Hk.
  assert (H : Nat.eqb (Nat.land s (Nat.shiftl 1 k)) 0 = false)
    by (apply (find_none_all _ _ _ E k); lia).
  rewrite land_pow2_eqb in H. now apply negb_false_iff.
Qed.

Lemma order_le (L i : nat) : (order L i <= L)%nat.
Proof.
  unfold order. rewrite <- (length_seq L 0) at 2. apply filter_length_le.
Qed.

Lemma order_S (L i : nat) :
  order (S L) i = (order L i + if Nat.testbit i L then 1 else 0)%nat.
Proof.
  unfold order. rewrite seq_S, filter_app, length_app. simpl.
  destruct (Nat.testbit i L); reflexivity.
Qed.

Lemma order_ext (L i j : nat) :
  (forall k, (k < L)%nat -> Nat.testbit i k = Nat.testbit j k) -> order L i = order L j.
Proof.
  intros H. unfold order. f_equal. apply filter_ext_in. intros k Hk.
  apply in_seq in Hk. apply H. lia.
Qed.

Lemma testbit_add_pow2 (s m k : nat) :
  Nat.testbit s m = false ->
  Nat.testbit (s + 2 ^ m) k = (Nat.eqb m k || Nat.testbit s k).
Proof.
  intros H. rewrite <- Nat.shiftl_1_l, add_pow2_setbit by assumption.
  apply Nat.setbit_eqb.
Qed.

Lemma order_add_pow2 (L s m : nat) :
  (m < L)%nat -> Nat.testbit s m = false -> order L (s + 2 ^ m) = S (order L s).
Proof.
  intros Hm Hbit. induction L as [|L IH]; [lia|].
  rewrite !order_S, (testbit_add_pow2 s m L Hbit).
  destruct (Nat.eq_dec m L) as [->|Hne].
  - rewrite Nat.eqb_refl, Hbit. simpl.
    rewrite (order_ext L (s + 2 ^ L) s); [lia|].
    intros k Hk. rewrite (testbit_add_pow2 s L k Hbit).
    destruct (Nat.eqb_spec L k); [lia|reflexivity].
  - destruct (Nat.eqb_spec m L); [lia|]. simpl. rewrite IH by lia. lia.
Qed.

Lemma order_full_bits (L s : nat) :
  order L s = L -> forall k, (k < L)%nat -> Nat.testbit s k = true.
Proof.
  induction L as [|L IH]; intros H k Hk; [lia|].
  rewrite order_S in H. pose proof (order_le L s).
  destruct (Nat.testbit s L) eqn:E; [|lia].
  destruct (Nat.eq_dec k L) as [->|]; [assumption|]. apply IH; lia.
Qed.

Lemma order_all_set (L s : nat) :
  (forall k, (k < L)%nat -> Nat.testbit s k = true) -> order L s = L.
Proof.
  induction L as [|L IH]; intros H; [reflexivity|].
  rewrite order_S, H, IH by auto with arith. lia.
Qed.

Lemma order_mono (a b s : nat) : (a <= b)%nat -> (order a s <= order b s)%nat.
Proof.
  induction 1 as [|b Hab IH]; [lia|]. rewrite order_S. lia.
Qed.

Lemma order_lowest (L s m : nat) : lowest_absent_locus L s m -> (m <= order L s)%nat.
Proof.
  intros (Hm & _ & Hlow). rewrite <- (order_all_set m s Hlow) at 1.
  apply order_mono. lia.
Qed.

Lemma land_low_mask (r m : nat) : Nat.land r (Nat.shiftl 1 m - 1) = (r mod 2 ^ m)%nat.
Proof.
  rewrite Nat.shiftl_1_l, <- Nat.land_ones, Nat.ones_equiv. f_equal. lia.
Qed.

Lemma pow2_diff_bits (k m j : nat) :
  (m <= k)%nat -> Nat.testbit (2 ^ k - 2 ^ m) j = ((m <=? j) && (j <? k)).
Proof.
  intros Hmk.
  replace (2 ^ k - 2 ^ m)%nat with (Nat.shiftl (Nat.ones (k - m)) m).
  - destruct (Nat.leb_spec m j) as [Hj|Hj]; simpl.
    + rewrite Nat.shiftl_spec_high by lia.
      destruct (Nat.ltb_spec j k).
      * apply Nat.ones_spec_low. lia.
      * apply Nat.ones_spec_high. lia.
    + now apply Nat.shiftl_spec_low.
  - rewrite Nat.shiftl_mul_pow2, Nat.ones_equiv.
    replace k with (k - m + m)%nat at 2 by lia. rewrite Nat.pow_add_r.
    pose proof (pow2_pos (k - m)). nia.
Qed.

Lemma land_high_mask (r k m : nat) :
  (r < 2 ^ k)%nat -> (m <= k)%nat ->
  Nat.land r (Nat.shiftl 1 k - Nat.shiftl 1 m) = (2 ^ m * (r / 2 ^ m))%nat.
Proof.
  intros Hr Hmk. rewrite !Nat.shiftl_1_l.
  rewrite (Nat.mul_comm (2 ^ m)), <- Nat.shiftl_mul_pow2, <- Nat.shiftr_div_pow2.
  apply Nat.bits_inj. intros j.
  rewrite Nat.land_spec, pow2_diff_bits by assumption.
  destruct (Nat.leb_spec m j) as [Hj|Hj]; simpl.
  - rewrite Nat.shiftl_spec_high, Nat.shiftr_spec by lia.
    replace (j - m + m)%nat with j by lia.
    destruct (Nat.ltb_spec j k); [apply andb_true_r|].
    rewrite (testbit_high k r j) by assumption. reflexivity.
  - rewrite Nat.shiftl_spec_low by assumption. apply andb_false_r.
Qed.

Lemma higher_order_pattern_insert (k m r : nat) :
  (r < 2 ^ k)%nat -> (m <= k)%nat ->
  higher_order_pattern k m r = insert_bit r m false
  /\ (higher_order_pattern k m r + Nat.shiftl 1 m)%nat = insert_bit r m true.
Proof.
  intros Hr Hmk. unfold higher_order_pattern, insert_bit.
  rewrite land_low_mask, land_high_mask, Nat.shiftl_mul_pow2, Nat.shiftl_1_l by assumption.
  simpl. lia.
Qed.

(** The bits of [insert_bit r m b]. *)
Lemma insert_bit_spec (r m : nat) (b : bool) (j : nat) :
  Nat.testbit (insert_bit r m b) j
  = if j <? m then Nat.testbit r j
    else if Nat.eqb j m then b else Nat.testbit r (j - 1).
Proof.
  unfold insert_bit.
  replace (r mod 2 ^ m + (if b then 2 ^ m else 0) + 2 ^ S m * (r / 2 ^ m))%nat
    with (r mod 2 ^ m + (Nat.b2n b + 2 * (r / 2 ^ m)) * 2 ^ m)%nat
    by (destruct b; simpl; lia).
  pose proof (Nat.mod_upper_bound r (2 ^ m) (Nat.pow_nonzero 2 m ltac:(discriminate))) as Hlow.
  destruct (Nat.ltb_spec j m) as [Hj|Hj].
  - rewrite <- (Nat.mod_pow2_bits_low _ m j Hj).
    rewrite Nat.Div0.mod_add, Nat.Div0.mod_mod.
    now apply Nat.mod_pow2_bits_low.
  - destruct (Nat.eqb_spec j m) as [->|Hne].
    + now apply (Nat.testbit_unique _ m b (r mod 2 ^ m) (r / 2 ^ m)).
    + replace j with (j - m + m)%nat at 1 by lia.
      rewrite <- Nat.div_pow2_bits.
      rewrite Nat.div_add, (Nat.div_small _ _ Hlow) by (apply Nat.pow_nonzero; discriminate).
      rewrite Nat.add_0_l.
      replace (j - m)%nat with (S (j - m - 1)) by lia.
      rewrite (Nat.add_comm (Nat.b2n b)).
      rewrite Nat.testbit_succ_r, Nat.div_pow2_bits. f_equal. lia.
Qed.

Lemma marginalize_pattern_loop (k m s h n : nat) (T : dtable) (s' r' : nat) :
  h <> s ->
  for_range 0 n (marginalize_pattern k m s h) T s' r'
  = if Nat.eqb s' s && (r' <? n)
    then T h (higher_order_pattern k m r')
         + T h (higher_order_pattern k m r' + Nat.shiftl 1 m)%nat
    else T s' r'.
Proof.
  intros Hh. revert s' r'. induction n as [|n IH]; intros s' r'.
  - rewrite for_range_0. now rewrite andb_false_r.
  - rewrite for_range_S. simpl Nat.add. unfold marginalize_pattern at 1.
    destruct (Nat.eqb_spec s' s) as [->|Hs]; simpl.
    + destruct (Nat.eq_dec r' n) as [->|Hr].
      * rewrite upd2_same, !IH.
        apply Nat.eqb_neq in Hh. rewrite Hh. simpl.
        replace (n <? S n) with true by (symmetry; apply Nat.ltb_lt; lia).
        reflexivity.
      * rewrite upd2_other_col, IH, Nat.eqb_refl by assumption. simpl.
        destruct (Nat.ltb_spec r' n), (Nat.ltb_spec r' (S n)); try reflexivity; lia.
    + rewrite upd2_other_row, IH by assumption.
      apply Nat.eqb_neq in Hs. now rewrite Hs.
Qed.

Lemma marginalize_subset_value (L k j : nat) (T : dtable) (s r : nat) :
  marginalize_subset L k j T s r
  = if Nat.eqb s j && Nat.eqb (order L j) k && (r <? 2 ^ k)
    then marginal_value L T j r else T s r.
Proof.
  unfold marginalize_subset, marginal_value.
  destruct (Nat.eqb_spec (order L j) k) as [Hk|Hk]; [|now rewrite andb_false_r].
  rewrite andb_true_r. destruct (find_marg_locus L j) as [m|] eqn:E.
  - rewrite marginalize_pattern_loop, Hk, Nat.shiftl_1_l.
    + reflexivity.
    + pose proof (pow2_pos m). rewrite Nat.shiftl_1_l. lia.
  - destruct (Nat.eqb s j && (r <? 2 ^ k)) eqn:C; [|reflexivity].
    apply andb_true_iff in C. destruct C as [C _]. apply Nat.eqb_eq in C. now subst.
Qed.

(** One turn of the loop over [set_size]: the rows of the subsets of order
    [k] are rewritten from the rows of order [k+1]. *)
Lemma marginalize_subset_loop (L k n : nat) (T : dtable) (s r : nat) :
  for_range 0 n (marginalize_subset L k) T s r
  = if (s <? n) && Nat.eqb (order L s) k && (r <? 2 ^ k)
    then marginal_value L T s r else T s r.
Proof.
  revert s r. induction n as [|n IH]; intros s r.
  - rewrite for_range_0. reflexivity.
  - rewrite for_range_S, marginalize_subset_value. simpl Nat.add.
    destruct (Nat.eqb_spec s n) as [->|Hs]; simpl.
    + replace (n <? S n) with true by (symmetry; apply Nat.ltb_lt; lia). simpl.
      destruct (Nat.eqb (order L n) k && (r <? 2 ^ k)) eqn:C.
      * unfold marginal_value. destruct (find_marg_locus L n) as [m|] eqn:E.
        -- rewrite !IH.
           replace (n + Nat.shiftl 1 m <? n) with false; [reflexivity|].
           symmetry. apply Nat.ltb_ge. lia.
        -- rewrite IH, Nat.ltb_irrefl. reflexivity.
      * rewrite IH, Nat.ltb_irrefl. reflexivity.
    + rewrite IH.
      destruct (Nat.ltb_spec s n), (Nat.ltb_spec s (S n)); try reflexivity; lia.
Qed.

Lemma marginal_value_other_order (L k : nat) (T T' : dtable) (s r : nat) :
  (forall s' r', order L s' <> k -> T' s' r' = T s' r') ->
  order L s <> k -> S (order L s) <> k ->
  marginal_value L T' s r = marginal_value L T s r.
Proof.
  intros Hsame Hk HSk. unfold marginal_value.
  destruct (find_marg_locus L s) as [m|] eqn:E; [|now apply Hsame].
  destruct (find_marg_locus_lowest L s m E) as (Hm & Hbit & _).
  assert (Ho : order L (s + Nat.shiftl 1 m) <> k)
    by (rewrite Nat.shiftl_1_l, order_add_pow2; assumption).
  now rewrite !Hsame.
Qed.

Lemma marginalize_rows (L : nat) (T : dtable) (n j : nat) :
  (j + n = L)%nat ->
  forall s, (s < 2 ^ L)%nat -> (j <= order L s < L)%nat ->
    marginalized_row L
      (fold_right (fun k acc => for_range 0 (Nat.shiftl 1 L) (marginalize_subset L k) acc)
         T (seq j n)) s.
Proof.
  revert j. induction n as [|n IH]; intros j Hjn s Hs Ho; [lia|].
  simpl fold_right.
  set (T' := fold_right _ T (seq (S j) n)) in *.
  assert (Hsame : forall s' r', order L s' <> j ->
            for_range 0 (Nat.shiftl 1 L) (marginalize_subset L j) T' s' r' = T' s' r').
  { intros s' r' Hne. rewrite marginalize_subset_loop.
    apply Nat.eqb_neq in Hne. now rewrite Hne, andb_false_r. }
  intros r Hr. destruct (Nat.eq_dec (order L s) j) as [Hj|Hj].
  - subst j. rewrite marginalize_subset_loop at 1.
    rewrite <- (Nat.shiftl_1_l L) in Hs.
    apply Nat.ltb_lt in Hs, Hr. rewrite Hs, Nat.eqb_refl, Hr. simpl.
    symmetry. unfold marginal_value.
    destruct (find_marg_locus L s) as [m|] eqn:E.
    + destruct (find_marg_locus_lowest L s m E) as (Hm & Hbit & _).
      assert (Hh : order L (s + Nat.shiftl 1 m) <> order L s)
        by (rewrite Nat.shiftl_1_l, order_add_pow2 by assumption; lia).
      now rewrite !Hsame.
    + rewrite marginalize_subset_loop, Hs, Nat.eqb_refl, Hr. simpl.
      unfold marginal_value. now rewrite E.
  - rewrite Hsame by assumption.
    rewrite (marginal_value_other_order L j T'); try assumption; try lia.
    apply (IH (S j)); try lia; assumption.
Qed.

Lemma marginalize_fold (L : nat) (T : dtable) :
  marginalize L T
  = fold_right (fun k acc => for_range 0 (Nat.shiftl 1 L) (marginalize_subset L k) acc)
      T (seq 0 L).
Proof.
  unfold marginalize. rewrite <- fold_left_rev_right, rev_involutive. reflexivity.
Qed.

Lemma order_strict (L s : nat) : (s < 2 ^ L - 1)%nat -> (order L s < L)%nat.
Proof.
  intros Hs. pose proof (order_le L s).
  destruct (Nat.eq_dec (order L s) L) as [E|]; [|lia].
  assert (s = (2 ^ L - 1)%nat); [|lia].
  apply all_bits_full; [lia|]. now apply order_full_bits.
Qed.

(** After the marginalization, whatever the table was before: the row of a
    strict subset [s] holds the pairwise sums of the row of [s] with its
    lowest absent locus added. *)
Lemma marginalize_sums (L : nat) (T0 : dtable) (s : nat) :
  (s < 2 ^ L - 1)%nat ->
  exists m, lowest_absent_locus L s m
    /\ forall r, (r < 2 ^ order L s)%nat ->
         marginalize L T0 s r
         = marginalize L T0 (s + 2 ^ m)%nat (insert_bit r m false)
           + marginalize L T0 (s + 2 ^ m)%nat (insert_bit r m true).
Proof.
  intros Hs. destruct (find_marg_locus_some L s Hs) as [m E].
  pose proof (find_marg_locus_lowest L s m E) as Hlow.
  exists m. split; [assumption|]. intros r Hr.
  pose proof (order_strict L s Hs) as Ho.
  assert (Hrow : marginalized_row L (marginalize L T0) s).
  { rewrite marginalize_fold. apply (marginalize_rows L T0 L 0); lia. }
  rewrite (Hrow r Hr). unfold marginal_value. rewrite E.
  destruct (higher_order_pattern_insert (order L s) m r Hr (order_lowest L s m Hlow))
    as [-> ->].
  now rewrite Nat.shiftl_1_l.
Qed.

(** C2: after a successful [set_recombination_rates], for every strict
    subset [s] of the loci and every partition pattern [r] of [s], the entry
    [recombination_patters[s][r]] is the sum of the two entries of the row of
    [s] with its lowest absent locus [m] added, at the two patterns that
    extend [r] by giving locus [m] to one parent or the other.  The error
    code [HG_MEMERR] is taken different from the success code 0. *)
Theorem pattern_table_marginalization :
  forall (gsl_rng : Type) (X : hg_env gsl_rng) (heap : new_outcome) (rec_rates : darray)
         (e : haploid_gt_dis gsl_rng),
    HG_MEMERR X <> 0%Z ->
    fst (set_recombination_rates X heap rec_rates e) = 0%Z ->
    let L := number_of_loci e in
    let T := recombination_patters (snd (set_recombination_rates X heap rec_rates e)) in
    forall s, (s < 2 ^ L - 1)%nat ->
      exists m, lowest_absent_locus L s m
        /\ forall r, (r < 2 ^ order L s)%nat ->
             T s r = T (s + 2 ^ m)%nat (insert_bit r m false)
                     + T (s + 2 ^ m)%nat (insert_bit r m true).
Proof.
  intros gsl_rng X heap rec_rates e Hmem Hok L T s Hs. unfold T. clear T.
  unfold set_recombination_rates in *. fold L in Hok |- *.
  destruct (free_recombination e).
  - destruct heap as [|failed fresh]; [now elim Hmem|].
    destruct (Nat.eqb failed 0); [|now elim Hmem].
    simpl. now apply marginalize_sums.
  - simpl. now apply marginalize_sums.
Qed.

Lemma pattern_table_marginalization_witness :
  exists m, lowest_absent_locus 1 0 m
    /\ forall r, (r < 2 ^ order 1 0)%nat ->
         recombination_patters
           (snd (set_recombination_rates sample_env (rows_allocated 0 zero_table)
                   zero_array (sample_engine true [1] [0]))) 0%nat r
         = recombination_patters
             (snd (set_recombination_rates sample_env (rows_allocated 0 zero_table)
                     zero_array (sample_engine true [1] [0])))
             (0 + 2 ^ m)%nat (insert_bit r m false)
           + recombination_patters
               (snd (set_recombination_rates sample_env (rows_allocated 0 zero_table)
                       zero_array (sample_engine true [1] [0])))
               (0 + 2 ^ m)%nat (insert_bit r m true).
Proof.
  assert (Hmem : HG_MEMERR sample_env <> 0%Z) by (simpl; lia).
  apply (pattern_table_marginalization unit sample_env (rows_allocated 0 zero_table)
           zero_array (sample_engine true [1] [0]) Hmem eq_refl 0%nat).
  simpl. lia.
Defined.

(** ** The partitions of a subset of loci *)

Section Partitions.

Local Open Scope nat_scope.

Lemma build_alleles_S (L i j : nat) :
  build_alleles (S L) i j = build_alleles_step i j L (build_alleles L i j).
Proof. unfold build_alleles. now rewrite for_range_S. Qed.

Lemma build_alleles_count (L i j : nat) : fst (fst (build_alleles L i j)) = order L i.
Proof.
  induction L as [|L IH]; [reflexivity|].
  rewrite build_alleles_S, order_S.
  destruct (build_alleles L i j) as [[c m] p]. simpl in IH. subst c.
  unfold build_alleles_step. rewrite has_bit_testbit.
  destruct (Nat.testbit i L); [|simpl; lia].
  destruct (has_bit j (order L i)); simpl; lia.
Qed.

Lemma maternal_alleles_S (L i j : nat) :
  maternal_alleles (S L) i j
  = maternal_alleles L i j
    + (if Nat.testbit i L && Nat.testbit j (order L i) then 2 ^ L else 0).
Proof.
  unfold maternal_alleles. rewrite build_alleles_S.
  pose proof (build_alleles_count L i j) as Hc.
  destruct (build_alleles L i j) as [[c m] p]. simpl in Hc. subst c.
  unfold build_alleles_step. rewrite !has_bit_testbit, Nat.shiftl_1_l.
  destruct (Nat.testbit i L); simpl; [|lia].
  destruct (Nat.testbit j (order L i)); simpl; lia.
Qed.

Lemma paternal_alleles_S (L i j : nat) :
  paternal_alleles (S L) i j
  = paternal_alleles L i j
    + (if Nat.testbit i L && negb (Nat.testbit j (order L i)) then 2 ^ L else 0).
Proof.
  unfold paternal_alleles. rewrite build_alleles_S.
  pose proof (build_alleles_count L i j) as Hc.
  destruct (build_alleles L i j) as [[c m] p]. simpl in Hc. subst c.
  unfold build_alleles_step. rewrite !has_bit_testbit, Nat.shiftl_1_l.
  destruct (Nat.testbit i L); simpl; [|lia].
  destruct (Nat.testbit j (order L i)); simpl; lia.
Qed.

Lemma mod_pow2_S (a n : nat) :
  a mod 2 ^ S n = a mod 2 ^ n + (if Nat.testbit a n then 2 ^ n else 0).
Proof.
  rewrite Nat.pow_succ_r', (Nat.mul_comm 2), Nat.Div0.mod_mul_r.
  rewrite <- Nat.testbit_spec'. destruct (Nat.testbit a n); simpl; lia.
Qed.

(** The two parts add up to the subset. *)
Lemma alleles_sum (L i j : nat) :
  maternal_alleles L i j + paternal_alleles L i j = i mod 2 ^ L.
Proof.
  induction L as [|L IH]; [reflexivity|].
  rewrite maternal_alleles_S, paternal_alleles_S, mod_pow2_S, <- IH.
  destruct (Nat.testbit i L), (Nat.testbit j (order L i)); simpl; lia.
Qed.

Lemma maternal_alleles_lt (L i j : nat) : maternal_alleles L i j < 2 ^ L.
Proof.
  pose proof (alleles_sum L i j).
  pose proof (Nat.mod_upper_bound i (2 ^ L) (Nat.pow_nonzero 2 L ltac:(discriminate))).
  lia.
Qed.

Lemma paternal_alleles_lt (L i j : nat) : paternal_alleles L i j < 2 ^ L.
Proof.
  pose proof (alleles_sum L i j).
  pose proof (Nat.mod_upper_bound i (2 ^ L) (Nat.pow_nonzero 2 L ltac:(discriminate))).
  lia.
Qed.

Lemma testbit_add_if_pow2 (x L k : nat) (c : bool) :
  x < 2 ^ L ->
  Nat.testbit (x + (if c then 2 ^ L else 0)) k = (c && Nat.eqb L k) || Nat.testbit x k.
Proof.
  intros Hx. destruct c; simpl.
  - apply testbit_add_pow2. now apply testbit_below.
  - now rewrite Nat.add_0_r.
Qed.

Lemma maternal_alleles_bits (L i j k : nat) :
  Nat.testbit (maternal_alleles L i j) k
  = (k <? L) && Nat.testbit i k && Nat.testbit j (order k i).
Proof.
  induction L as [|L IH]; [apply Nat.bits_0|].
  rewrite maternal_alleles_S, testbit_add_if_pow2, IH by apply maternal_alleles_lt.
  destruct (Nat.eqb_spec L k) as [->|Hne].
  - rewrite Nat.ltb_irrefl. simpl.
    replace (k <? S k) with true by (symmetry; apply Nat.ltb_lt; lia).
    now rewrite andb_true_r, orb_false_r.
  - rewrite andb_false_r. simpl.
    destruct (Nat.ltb_spec k L), (Nat.ltb_spec k (S L)); try reflexivity; lia.
Qed.

Lemma paternal_alleles_bits (L i j k : nat) :
  Nat.testbit (paternal_alleles L i j) k
  = (k <? L) && Nat.testbit i k && negb (Nat.testbit j (order k i)).
Proof.
  induction L as [|L IH]; [apply Nat.bits_0|].
  rewrite paternal_alleles_S, testbit_add_if_pow2, IH by apply paternal_alleles_lt.
  destruct (Nat.eqb_spec L k) as [->|Hne].
  - rewrite Nat.ltb_irrefl. simpl.
    replace (k <? S k) with true by (symmetry; apply Nat.ltb_lt; lia).
    now rewrite andb_true_r, orb_false_r.
  - rewrite andb_false_r. simpl.
    destruct (Nat.ltb_spec k L), (Nat.ltb_spec k (S L)); try reflexivity; lia.
Qed.

Lemma alleles_disjoint (L i j : nat) :
  Nat.land (maternal_alleles L i j) (paternal_alleles L i j) = 0.
Proof.
  apply Nat.bits_inj. intros k.
  rewrite Nat.land_spec, maternal_alleles_bits, paternal_alleles_bits, Nat.bits_0.
  destruct (k <? L), (Nat.testbit i k), (Nat.testbit j (order k i)); reflexivity.
Qed.

(** For a subset [i] of the [L] loci, every partition number gives a
    partition of [i]. *)
Lemma alleles_partition (L i j : nat) :
  i < 2 ^ L ->
  Nat.lor (maternal_alleles L i j) (paternal_alleles L i j) = i
  /\ Nat.land (maternal_alleles L i j) (paternal_alleles L i j) = 0.
Proof.
  intros Hi. split; [|apply alleles_disjoint].
  rewrite <- Nat.lxor_lor, <- Nat.add_nocarry_lxor by apply alleles_disjoint.
  rewrite alleles_sum. now apply Nat.mod_small.
Qed.

Lemma maternal_alleles_ext (L i j j' : nat) :
  (forall c, c < order L i -> Nat.testbit j c = Nat.testbit j' c) ->
  maternal_alleles L i j = maternal_alleles L i j'.
Proof.
  induction L as [|L IH]; intros H; [reflexivity|].
  rewrite !maternal_alleles_S. rewrite order_S in H.
  rewrite IH by (intros c Hc; apply H; lia).
  destruct (Nat.testbit i L); [|reflexivity].
  rewrite (H (order L i)) by lia. reflexivity.
Qed.

Lemma partition_number_ext (L i m m' : nat) :
  (forall k, k < L -> Nat.testbit m k = Nat.testbit m' k) ->
  partition_number L i m = partition_number L i m'.
Proof.
  induction L as [|L IH]; intros H; [reflexivity|]. simpl.
  rewrite IH, (H L) by auto with arith. reflexivity.
Qed.

Lemma partition_number_lt (L i m : nat) : partition_number L i m < 2 ^ order L i.
Proof.
  induction L as [|L IH]; [simpl; lia|]. simpl. rewrite order_S.
  destruct (Nat.testbit i L); simpl.
  - rewrite Nat.pow_add_r. simpl. destruct (Nat.testbit m L); lia.
  - now rewrite !Nat.add_0_r.
Qed.

Lemma testbit_add_if_pow2_low (x n k : nat) (c : bool) :
  k < n -> Nat.testbit (x + (if c then 2 ^ n else 0)) k = Nat.testbit x k.
Proof.
  intros Hk. destruct c; [now apply testbit_add_pow2_low|now rewrite Nat.add_0_r].
Qed.

(** The partition number of the maternal alleles of [j] is [j]. *)
Lemma partition_number_maternal (L i j : nat) :
  partition_number L i (maternal_alleles L i j) = j mod 2 ^ order L i.
Proof.
  induction L as [|L IH]; [reflexivity|]. simpl.
  rewrite (partition_number_ext L i _ (maternal_alleles L i j)).
  - rewrite IH, maternal_alleles_bits.
    replace (L <? S L) with true by (symmetry; apply Nat.ltb_lt; lia).
    rewrite order_S. simpl.
    destruct (Nat.testbit i L); simpl.
    + rewrite Nat.add_1_r, mod_pow2_S. reflexivity.
    + now rewrite !Nat.add_0_r.
  - intros k Hk. rewrite maternal_alleles_S. now apply testbit_add_if_pow2_low.
Qed.

(** The maternal alleles of the partition number of [m] are [m], for [m]
    within [i]. *)
Lemma maternal_partition_number (L i m : nat) :
  (forall k, Nat.testbit m k = true -> Nat.testbit i k = true) ->
  maternal_alleles L i (partition_number L i m) = m mod 2 ^ L.
Proof.
  intros Hsub. induction L as [|L IH]; [reflexivity|].
  rewrite maternal_alleles_S, mod_pow2_S. simpl partition_number.
  rewrite (maternal_alleles_ext L i _ (partition_number L i m))
    by (intros c Hc; now apply testbit_add_if_pow2_low).
  rewrite IH, testbit_add_if_pow2 by apply partition_number_lt.
  rewrite Nat.eqb_refl, andb_true_r, (testbit_below _ _ (partition_number_lt L i m)).
  rewrite orb_false_r.
  destruct (Nat.testbit m L) eqn:Em.
  - now rewrite (Hsub L Em).
  - now rewrite !andb_false_r.
Qed.

Lemma maternal_alleles_injective (L i j j' : nat) :
  j < 2 ^ order L i -> j' < 2 ^ order L i ->
  maternal_alleles L i j = maternal_alleles L i j' -> j = j'.
Proof.
  intros Hj Hj' H.
  rewrite <- (Nat.mod_small j (2 ^ order L i)), <- (Nat.mod_small j' (2 ^ order L i))
    by assumption.
  now rewrite <- !partition_number_maternal, H.
Qed.

Lemma partitions_complete (L i m p : nat) :
  i < 2 ^ L ->
  In (m, p) (partitions L i) <-> Nat.lor m p = i /\ Nat.land m p = 0.
Proof.
  intros Hi. unfold partitions. rewrite in_map_iff. split.
  - intros (j & Hj & _). injection Hj as <- <-. now apply alleles_partition.
  - intros [Hor Hand].
    assert (Hsum : m + p = i)
      by (now rewrite (Nat.add_nocarry_lxor _ _ Hand), Nat.lxor_lor).
    assert (Hsub : forall k, Nat.testbit m k = true -> Nat.testbit i k = true).
    { intros k Hk. rewrite <- Hor, Nat.lor_spec, Hk. reflexivity. }
    exists (partition_number L i m). split.
    + pose proof (alleles_sum L i (partition_number L i m)) as Hs.
      rewrite (maternal_partition_number L i m Hsub) in *.
      rewrite (Nat.mod_small i), (Nat.mod_small m) in * by lia.
      f_equal. lia.
    + apply in_seq. pose proof (partition_number_lt L i m). lia.
Qed.

Lemma partitions_NoDup (L i : nat) : NoDup (partitions L i).
Proof.
  unfold partitions. apply Injective_map_NoDup_in; [|apply seq_NoDup].
  intros j j' Hj Hj' H. apply in_seq in Hj, Hj'. injection H as H _.
  apply (maternal_alleles_injective L i); [lia|lia|assumption].
Qed.

Lemma partitions_length (L i : nat) : length (partitions L i) = 2 ^ order L i.
Proof. unfold partitions. now rewrite length_map, length_seq. Qed.

End Partitions.

(** ** Free recombination *)

(** C1: with free recombination, [recombine] computes the coefficients of
    the recombinants from those of the population, [pc]: the coefficient 0
    is [1/2^L], and for a nonzero subset [i] the coefficient is the sum of
    [pc[m]*pc[p]] over all the [2^order(i)] partitions of [i] into a
    maternal part [m] and a paternal part [p], times [2^(L-order(i))]; the
    inverse transform of these coefficients gives [recombinants], and every
    genotype frequency becomes
    [population[i] + outcrossing_rate * (recombinants[i] - population[i])]. *)
Theorem recombine_free_coefficients :
  forall (gsl_rng : Type) (X : hg_env gsl_rng) (e : haploid_gt_dis gsl_rng),
    free_recombination e = true ->
    let L := number_of_loci e in
    let n := Nat.shiftl 1 L in
    let pc := func_to_coeff X L (func (population e)) in
    let rc := recombinant_coefficients X e in
    let e' := snd (recombine X e) in
    rc 0%nat = 1 / INR n
    /\ (forall i, (0 < i < n)%nat ->
          exists parts : list (nat * nat),
            NoDup parts
            /\ (forall m p, In (m, p) parts <-> Nat.lor m p = i /\ Nat.land m p = 0%nat)
            /\ length parts = (2 ^ order L i)%nat
            /\ rc i = Rsum (map (fun mp => pc (fst mp) * pc (snd mp)) parts)
                      * INR (2 ^ (L - order L i)))
    /\ fst (recombine X e) = 0%Z
    /\ coeff (population e') = pc
    /\ coeff (recombinants e') = rc
    /\ func (recombinants e') = coeff_to_func X L rc
    /\ forall i, (i < n)%nat ->
         func (population e') i
         = func (population e) i
           + outcrossing_rate e * (func (recombinants e') i - func (population e) i).
Proof.
  intros gsl_rng X e Hfree L n pc rc e'.
  destruct (recombine_value X e) as (Hret & Hrc & Hrf & Hpc & Hp).
  fold L n rc e' in Hrc, Hrf, Hpc, Hp. fold pc in Hpc. rewrite Hfree in Hp.
  assert (Hval : forall k, rc k = if Nat.eqb k 0 then 1 / INR n
                                   else if k <? n then free_coefficient L pc k
                                        else coeff (recombinants e) k).
  { intros k. unfold rc, recombinant_coefficients. rewrite Hfree.
    apply free_coefficients_value. }
  split; [now rewrite Hval|]. split.
  - intros i [Hi0 Hin]. exists (partitions L i).
    split; [apply partitions_NoDup|]. split.
    { intros m p. apply partitions_complete. unfold n in Hin.
      now rewrite Nat.shiftl_1_l in Hin. }
    split; [apply partitions_length|].
    rewrite Hval. destruct (Nat.eqb_spec i 0); [lia|].
    apply Nat.ltb_lt in Hin. rewrite Hin. unfold free_coefficient.
    rewrite !Nat.shiftl_1_l. f_equal.
    unfold sum_upto, partitions. now rewrite map_map.
  - repeat split; try assumption.
    intros i Hi. rewrite Hp, Hrf. apply Nat.ltb_lt in Hi. now rewrite Hi.
Qed.

Lemma recombine_free_coefficients_witness :
  recombinant_coefficients sample_env (sample_engine true [1/4; 3/4] [0; 0]) 0%nat
  = 1 / INR (Nat.shiftl 1 1)
  /\ fst (recombine sample_env (sample_engine true [1/4; 3/4] [0; 0])) = 0%Z.
Proof.
  destruct (recombine_free_coefficients unit sample_env
              (sample_engine true [1/4; 3/4] [0; 0]) eq_refl)
    as (H0 & _ & Hret & _).
  split; [exact H0 | exact Hret].
Defined.

(** ** The three drivers *)

Lemma Operator_dec (o : operator) : {o = Resample} + {o <> Resample}.
Proof. destruct o; (now left) || (right; discriminate). Qed.

Section Drivers.

Context {gsl_rng : Type} (X : hg_env gsl_rng).

Local Abbreviation engine := (haploid_gt_dis gsl_rng).
Local Abbreviation dstate := (Z * haploid_gt_dis gsl_rng * call_log)%type.

Lemma evolve_loop_driver (ops : operator -> engine -> Z * engine) (n : nat) (st : dstate) :
  evolve_loop X ops n st
  = driver_loop err_of (generation_body X ops [Select; Mutate; Recombine; Resample]) n st.
Proof.
  revert st. induction n as [|n IH]; intros st; [reflexivity|].
  simpl. unfold err_of at 1. destruct (Z.eqb (fst (fst st)) 0); [|reflexivity].
  rewrite IH. reflexivity.
Qed.

Lemma evolve_norec_loop_driver (ops : operator -> engine -> Z * engine) (n : nat) (st : dstate) :
  evolve_norec_loop X ops n st
  = driver_loop err_of (generation_body X ops [Select; Mutate; Resample]) n st.
Proof.
  revert st. induction n as [|n IH]; intros st; [reflexivity|].
  simpl. unfold err_of at 1. destruct (Z.eqb (fst (fst st)) 0); [|reflexivity].
  rewrite IH. reflexivity.
Qed.

Lemma evolve_deterministic_loop_driver (ops : operator -> engine -> Z * engine) (n : nat)
    (st : dstate) :
  evolve_deterministic_loop X ops n st
  = driver_loop err_of (generation_body X ops [Select; Mutate; Recombine]) n st.
Proof.
  revert st. induction n as [|n IH]; intros st; [reflexivity|].
  simpl. unfold err_of at 1. destruct (Z.eqb (fst (fst st)) 0); [|reflexivity].
  rewrite IH. reflexivity.
Qed.

Variable ops : operator -> engine -> Z * engine.

Lemma calls_after_error (sch : list operator) (err : Z) (e : engine) (log : call_log) :
  err <> 0%Z -> fold_left (fun st o => call ops o st) sch (err, e, log) = (err, e, log).
Proof.
  intros H. apply Z.eqb_neq in H. induction sch as [|o sch IH]; [reflexivity|].
  simpl. now rewrite H.
Qed.

(** The guarded calls of one generation are a run that stops at the first
    error. *)
Lemma calls_run (sch : list operator) (e : engine) (log0 : call_log) :
  fold_left (fun st o => call ops o st) sch (0%Z, e, log0)
  = let '(err, e', log) := run_until_error ops sch e in (err, e', log0 ++ log).
Proof.
  revert e log0. induction sch as [|o sch IH]; intros e log0; simpl.
  - now rewrite app_nil_r.
  - destruct (ops o e) as [c e1]. destruct (Z.eqb_spec c 0) as [->|Hc].
    + rewrite IH. destruct (run_until_error ops sch e1) as [[err e2] log].
      now rewrite <- app_assoc.
    + now apply calls_after_error.
Qed.

Lemma driver_loop_stopped (body : dstate -> dstate) (n : nat) (st : dstate) :
  err_of st <> 0%Z -> driver_loop err_of body n st = st.
Proof.
  intros H. apply Z.eqb_neq in H. destruct n; simpl; [reflexivity|]. now rewrite H.
Qed.

Lemma driver_loop_step (body : dstate -> dstate) (n : nat) (e : engine) (log : call_log) :
  driver_loop err_of body (S n) (0%Z, e, log) = driver_loop err_of body n (body (0%Z, e, log)).
Proof. reflexivity. Qed.

Lemma driver_loop_add (body : dstate -> dstate) (n m : nat) (st : dstate) :
  driver_loop err_of body (n + m) st = driver_loop err_of body m (driver_loop err_of body n st).
Proof.
  revert st. induction n as [|n IH]; intros st; [reflexivity|]. simpl.
  destruct (Z.eqb_spec (err_of st) 0) as [H0|Hne]; [apply IH|].
  symmetry. now apply driver_loop_stopped.
Qed.

Hypothesis ops_ignore : ignores_generation ops.

(** A driver is the run of its schedule, repeated, that stops at the first
    error, but for the generation counters. *)
Lemma driver_loop_runs (sch : list operator) (n : nat) (e : engine) (log0 : call_log) :
  exists g lt,
    driver_loop err_of (generation_body X ops sch) n (0%Z, e, log0)
    = let '(err, e', log) := run_until_error ops (concat (repeat sch n)) e in
      (err, with_generation e' g lt, log0 ++ log).
Proof.
  revert e log0. induction n as [|n IH]; intros e log0.
  - exists (generation e), (long_time_generation e). simpl.
    now rewrite with_generation_id, app_nil_r.
  - simpl concat. rewrite run_until_error_app, driver_loop_step.
    unfold generation_body at 2. rewrite calls_run.
    destruct (run_until_error ops sch e) as [[err e1] log1].
    destruct (count_generation_with X e1) as (g1 & lt1 & Hc). rewrite Hc.
    destruct (Z.eqb_spec err 0) as [->|Hne].
    + destruct (IH (with_generation e1 g1 lt1) (log0 ++ log1)) as (g & lt & Hrun).
      exists g, lt. rewrite Hrun, (run_until_error_with_generation ops ops_ignore).
      destruct (run_until_error ops (concat (repeat sch n)) e1) as [[err' e2] log2].
      now rewrite with_generation_twice, app_assoc.
    + exists g1, lt1. now apply driver_loop_stopped.
Qed.

Lemma run_keeps_counters (sched : list operator) (e : engine) :
  let '(_, e', _) := run_until_error ops sched e in
  generation e' = generation e /\ long_time_generation e' = long_time_generation e.
Proof.
  pose proof (run_until_error_with_generation ops ops_ignore sched e
                (generation e) (long_time_generation e)) as H.
  rewrite with_generation_id in H.
  destruct (run_until_error ops sched e) as [[err e'] log].
  injection H as H. rewrite H. split; reflexivity.
Qed.

(** When only the last operator of the schedule can fail, a generation
    that starts makes all its calls. *)
Lemma run_full_length (sch : list operator) (e : engine) :
  (forall o e', In o (removelast sch) -> fst (ops o e') = 0%Z) ->
  let '(_, _, log) := run_until_error ops sch e in length log = length sch.
Proof.
  revert e. induction sch as [|o rest IH]; intros e Hok; [reflexivity|].
  simpl run_until_error. destruct (ops o e) as [c e1] eqn:Eo.
  destruct rest as [|o' rest'].
  - simpl. destruct (Z.eqb c 0); reflexivity.
  - assert (Hc : c = 0%Z).
    { replace c with (fst (ops o e)) by now rewrite Eo. apply Hok. now left. }
    subst c. simpl Z.eqb. cbv iota.
    assert (IH' := IH e1 (fun o0 e' H => Hok o0 e' (or_intror H))).
    destruct (run_until_error ops (o' :: rest') e1) as [[err e2] log].
    simpl. now rewrite IH'.
Qed.

Lemma count_generation_elapsed (e : engine) :
  elapsed_generations (count_generation X e) = elapsed_generations e + 1.
Proof.
  unfold count_generation, elapsed_generations.
  destruct (Z.gtb (generation e + 1) (HG_LONGTIMEGEN X)); simpl.
  - rewrite minus_IZR, plus_IZR. lra.
  - rewrite plus_IZR. lra.
Qed.

Lemma count_generation_bounds (e : engine) :
  (1 <= HG_LONGTIMEGEN X)%Z -> (0 <= generation e <= HG_LONGTIMEGEN X)%Z ->
  (0 <= generation (count_generation X e) <= HG_LONGTIMEGEN X)%Z.
Proof.
  intros H1 Hg. unfold count_generation.
  destruct (Z.gtb_spec (generation e + 1) (HG_LONGTIMEGEN X)); simpl; lia.
Qed.

(** The account of the generations: a driver whose schedule can fail at its
    last operator only has run [k] generations, all their calls made, and
    the counters have advanced by [k]. *)
Lemma driver_loop_account (sch : list operator) (n : nat) (e : engine) (log0 : call_log) :
  (forall o e', In o (removelast sch) -> fst (ops o e') = 0%Z) ->
  let '(err, e', log) := driver_loop err_of (generation_body X ops sch) n (0%Z, e, log0) in
  exists k, (k <= n)%nat
    /\ (err = 0%Z -> k = n)
    /\ length log = (length log0 + length sch * k)%nat
    /\ elapsed_generations e' = elapsed_generations e + INR k
    /\ ((1 <= HG_LONGTIMEGEN X)%Z -> (0 <= generation e <= HG_LONGTIMEGEN X)%Z ->
        (0 <= generation e' <= HG_LONGTIMEGEN X)%Z).
Proof.
  intros Hok. revert e log0. induction n as [|n IH]; intros e log0.
  - simpl. exists 0%nat. split; [lia|]. split; [reflexivity|]. split; [lia|].
    split; [simpl; lra|tauto].
  - rewrite driver_loop_step. unfold generation_body at 2. rewrite calls_run.
    pose proof (run_full_length sch e Hok) as Hlen.
    pose proof (run_keeps_counters sch e) as Hkeep.
    destruct (run_until_error ops sch e) as [[err e1] log1].
    destruct Hkeep as [Hg Hlt].
    assert (He1 : elapsed_generations e1 = elapsed_generations e)
      by (unfold elapsed_generations; now rewrite Hg, Hlt).
    destruct (Z.eqb_spec err 0) as [->|Hne].
    + specialize (IH (count_generation X e1) (log0 ++ log1)).
      destruct (driver_loop err_of _ n _) as [[err' e'] log].
      destruct IH as (k & Hk & Hall & Hl & Hel & Hb).
      exists (S k). split; [lia|]. split; [intros H; rewrite (Hall H); reflexivity|].
      split; [rewrite Hl, length_app, Hlen; lia|]. split.
      * rewrite Hel, count_generation_elapsed, He1, S_INR. lra.
      * intros H1 H2. apply Hb; [assumption|].
        apply count_generation_bounds; [assumption|]. now rewrite Hg.
    + rewrite driver_loop_stopped by assumption.
      exists 1%nat. split; [lia|]. split; [intros H; now elim Hne|].
      split; [rewrite length_app, Hlen; lia|]. split.
      * rewrite count_generation_elapsed, He1. simpl. lra.
      * intros H1 H2. apply count_generation_bounds; [assumption|]. now rewrite Hg.
Qed.

(** The code of a run that fails is the code of its last call, made by an
    operator of the schedule on some engine. *)
Lemma run_error_source (sched : list operator) (e : engine) :
  let '(err, _, log) := run_until_error ops sched e in
  err <> 0%Z ->
  exists o e' log0, In o sched /\ err = fst (ops o e') /\ log = log0 ++ [(o, err)].
Proof.
  revert e. induction sched as [|o rest IH]; intros e; simpl; [tauto|].
  destruct (ops o e) as [c e1] eqn:Eo. destruct (Z.eqb_spec c 0) as [->|Hc].
  - specialize (IH e1). destruct (run_until_error ops rest e1) as [[err e2] log].
    intros Hne. destruct (IH Hne) as (o' & e' & log0 & Hin & Herr & Hlog).
    exists o', e', ((o, 0%Z) :: log0). split; [now right|]. split; [assumption|].
    now rewrite Hlog.
  - intros _. exists o, e, []. split; [now left|]. split; [now rewrite Eo|reflexivity].
Qed.

Lemma run_all_ok (sched : list operator) (e : engine) :
  (forall o e', In o sched -> fst (ops o e') = 0%Z) ->
  let '(err, _, log) := run_until_error ops sched e in
  err = 0%Z /\ log = map (fun o => (o, 0%Z)) sched.
Proof.
  revert e. induction sched as [|o rest IH]; intros e Hok; simpl; [split; reflexivity|].
  destruct (ops o e) as [c e1] eqn:Eo.
  assert (Hc : c = 0%Z).
  { replace c with (fst (ops o e)) by now rewrite Eo. apply Hok. now left. }
  subst c. simpl.
  specialize (IH e1 (fun o0 e' H => Hok o0 e' (or_intror H))).
  destruct (run_until_error ops rest e1) as [[err e2] log].
  destruct IH as [-> ->]. split; reflexivity.
Qed.

(** The log a driver starts with stays in front. *)
Lemma driver_loop_log (sch : list operator) (n : nat) (e : engine) (log0 : call_log) :
  driver_loop err_of (generation_body X ops sch) n (0%Z, e, log0)
  = let '(err, e', log) :=
      driver_loop err_of (generation_body X ops sch) n (0%Z, e, []) in
    (err, e', log0 ++ log).
Proof.
  destruct (driver_loop_runs sch n e log0) as (g & lt & H).
  revert e log0 g lt H. induction n as [|n IH]; intros e log0 g lt H.
  - simpl. now rewrite app_nil_r.
  - rewrite !driver_loop_step. unfold generation_body at 2 4. rewrite !calls_run.
    destruct (run_until_error ops sch e) as [[err e1] log1]. simpl app.
    destruct (Z.eqb_spec err 0) as [->|Hne].
    + destruct (driver_loop_runs sch n (count_generation X e1) (log0 ++ log1))
        as (g1 & lt1 & H1).
      destruct (driver_loop_runs sch n (count_generation X e1) log1)
        as (g2 & lt2 & H2).
      rewrite (IH _ (log0 ++ log1) g1 lt1 H1), (IH _ log1 g2 lt2 H2).
      destruct (driver_loop err_of _ n (0%Z, count_generation X e1, [])) as [[err' e'] log].
      now rewrite app_assoc.
    + now rewrite !driver_loop_stopped by assumption.
Qed.

(** When resample alone can fail, and with the code [c] only, a driver
    returns 0 or [c], and [c] comes from the last call made. *)
Lemma driver_loop_failure (c : Z) (sch : list operator) (n : nat) (e : engine) :
  (forall o e', fst (ops o e') = 0%Z \/ (o = Resample /\ fst (ops o e') = c)) ->
  let st := driver_loop err_of (generation_body X ops sch) n (0%Z, e, []) in
  fst (fst st) = 0%Z
  \/ (fst (fst st) = c /\ exists log0, snd st = log0 ++ [(Resample, c)]).
Proof.
  intros Hcodes st.
  destruct (driver_loop_runs sch n e []) as (g & lt & Hrun).
  pose proof (run_error_source (concat (repeat sch n)) e) as Hsrc.
  change (st = let '(err, e', log) := run_until_error ops (concat (repeat sch n)) e in
               (err, with_generation e' g lt, [] ++ log)) in Hrun.
  clearbody st. rewrite Hrun.
  destruct (run_until_error ops (concat (repeat sch n)) e) as [[err e'] log].
  simpl. destruct (Z.eq_dec err 0) as [|Hne]; [now left|right].
  destruct (Hsrc Hne) as (o & e'' & log0 & _ & Herr & Hlog).
  destruct (Hcodes o e'') as [H0|[-> Hc]]; [congruence|].
  rewrite Herr, Hc in *. split; [reflexivity|]. now exists log0.
Qed.

(** When no operator of the schedule fails, the driver runs all the
    generations. *)
Lemma driver_loop_all_ok (sch : list operator) (n : nat) (e : engine) :
  (forall o e', In o sch -> fst (ops o e') = 0%Z) ->
  let st := driver_loop err_of (generation_body X ops sch) n (0%Z, e, []) in
  fst (fst st) = 0%Z
  /\ snd st = map (fun o => (o, 0%Z)) (concat (repeat sch n))
  /\ elapsed_generations (snd (fst st)) = elapsed_generations e + INR n.
Proof.
  intros Hall st.
  assert (Hrl : forall o e', In o (removelast sch) -> fst (ops o e') = 0%Z).
  { intros o e' Hin. apply Hall. destruct sch as [|a l]; [destruct Hin|].
    rewrite (app_removelast_last a (l := a :: l)) by discriminate.
    apply in_or_app. now left. }
  destruct (driver_loop_runs sch n e []) as (g & lt & Hrun).
  pose proof (driver_loop_account sch n e [] Hrl) as Hacc.
  pose proof (run_all_ok (concat (repeat sch n)) e) as Hok.
  change (st = let '(err, e', log) := run_until_error ops (concat (repeat sch n)) e in
               (err, with_generation e' g lt, [] ++ log)) in Hrun.
  change (let '(err, e', log) := st in
          exists k, (k <= n)%nat
            /\ (err = 0%Z -> k = n)
            /\ length log = (length (@nil (operator * Z)) + length sch * k)%nat
            /\ elapsed_generations e' = elapsed_generations e + INR k
            /\ ((1 <= HG_LONGTIMEGEN X)%Z -> (0 <= generation e <= HG_LONGTIMEGEN X)%Z ->
                (0 <= generation e' <= HG_LONGTIMEGEN X)%Z)) in Hacc.
  clearbody st. rewrite Hrun in Hacc |- *.
  destruct (run_until_error ops (concat (repeat sch n)) e) as [[err e'] log].
  destruct Hok as [-> ->].
  { intros o e'' Hin. apply Hall. apply in_concat in Hin.
    destruct Hin as (l & Hl & Ho). apply repeat_spec in Hl. now subst l. }
  simpl. split; [reflexivity|]. split; [reflexivity|].
  destruct Hacc as (k & _ & Hk & _ & Hel & _). now rewrite Hel, (Hk eq_refl).
Qed.

(** Running [n] generations and then [m] more is running [n + m]. *)
Lemma driver_loop_compose (sch : list operator) (n m : nat) (e : engine) :
  driver_loop err_of (generation_body X ops sch) (n + m) (0%Z, e, [])
  = let '(err1, e1, log1) := driver_loop err_of (generation_body X ops sch) n (0%Z, e, []) in
    if Z.eqb err1 0 then
      let '(err2, e2, log2) :=
        driver_loop err_of (generation_body X ops sch) m (0%Z, e1, []) in
      (err2, e2, log1 ++ log2)
    else (err1, e1, log1).
Proof.
  rewrite driver_loop_add.
  destruct (driver_loop err_of (generation_body X ops sch) n (0%Z, e, []))
    as [[err1 e1] log1].
  destruct (Z.eqb_spec err1 0) as [->|Hne].
  - apply driver_loop_log.
  - now apply driver_loop_stopped.
Qed.

End Drivers.

Lemma resample_code {gsl_rng : Type} (X : hg_env gsl_rng) (n : R) (e : haploid_gt_dis gsl_rng) :
  fst (resample X n e) = 0%Z \/ fst (resample X n e) = HG_EXTINCT X.
Proof.
  unfold resample, resample_at.
  destruct (for_range 0 _ (resample_step _ _ _) _) as [[f norm] g].
  destruct (Rlt_dec norm (HG_NOTHING X)); [now right|now left].
Qed.

Lemma operators_before_resample {gsl_rng : Type} (X : hg_env gsl_rng) (o : operator)
    (e : haploid_gt_dis gsl_rng) :
  o <> Resample -> fst (operators X o e) = 0%Z.
Proof.
  intros Ho. destruct o; simpl.
  - apply (select_value e).
  - reflexivity.
  - apply (recombine_value X e).
  - now elim Ho.
Qed.

(** X1: [evolve_deterministic(gen)] never fails: it returns 0 after calling
    select, mutate, recombine, in this order, in each of the [gen]
    generations, every call returning 0, and the generations elapsed grow
    by [gen] (by nothing for a negative [gen]). *)
Theorem evolve_deterministic_never_fails :
  forall (gsl_rng : Type) (X : hg_env gsl_rng) (gen : Z) (e : haploid_gt_dis gsl_rng),
    let st := evolve_deterministic X gen e in
    fst (fst st) = 0%Z
    /\ snd st = map (fun o => (o, 0%Z))
                  (concat (repeat [Select; Mutate; Recombine] (Z.to_nat gen)))
    /\ elapsed_generations (snd (fst st)) = elapsed_generations e + INR (Z.to_nat gen).
Proof.
  intros gsl_rng X gen e st. unfold st, evolve_deterministic.
  rewrite evolve_deterministic_loop_driver.
  apply (driver_loop_all_ok X (operators X) (operators_ignore_generation X)).
  intros o e' Hin. apply operators_before_resample. intros ->.
  simpl in Hin. intuition discriminate.
Qed.

(** X2: the two stochastic drivers fail by extinction only: [evolve] and
    [evolve_norec] return 0 or [HG_EXTINCT], and when they return
    [HG_EXTINCT] the last call made is the call of resample that returned
    it. *)
Theorem stochastic_drivers_fail_by_extinction :
  forall (gsl_rng : Type) (X : hg_env gsl_rng) (gen : Z) (e : haploid_gt_dis gsl_rng),
    (fst (fst (evolve X gen e)) = 0%Z
     \/ (fst (fst (evolve X gen e)) = HG_EXTINCT X
         /\ exists log0, snd (evolve X gen e) = log0 ++ [(Resample, HG_EXTINCT X)]))
    /\ (fst (fst (evolve_norec X gen e)) = 0%Z
        \/ (fst (fst (evolve_norec X gen e)) = HG_EXTINCT X
            /\ exists log0,
                 snd (evolve_norec X gen e) = log0 ++ [(Resample, HG_EXTINCT X)])).
Proof.
  intros gsl_rng X gen e.
  assert (Hcodes : forall o e', fst (operators X o e') = 0%Z
                     \/ (o = Resample /\ fst (operators X o e') = HG_EXTINCT X)).
  { intros o e'. destruct (Operator_dec o) as [->|Ho].
    - destruct (resample_code X (resample_default X) e') as [H|H]; [now left|now right].
    - left. now apply operators_before_resample. }
  split.
  - unfold evolve. rewrite evolve_loop_driver.
    now apply (driver_loop_failure X (operators X) (operators_ignore_generation X)).
  - unfold evolve_norec. rewrite evolve_norec_loop_driver.
    now apply (driver_loop_failure X (operators X) (operators_ignore_generation X)).
Qed.

(** X3: [evolve_norec(gen)] is the run of select, mutate, resample, [gen]
    times over, that stops at the first non-zero code, but for the
    generation counters: the calls made are a prefix of that schedule; a
    return of 0 means every scheduled call was made and returned 0; a
    non-zero return is the code of the last call made, every earlier call
    having returned 0. *)
Theorem evolve_norec_stops_at_first_error :
  forall (gsl_rng : Type) (X : hg_env gsl_rng) (gen : Z) (e : haploid_gt_dis gsl_rng),
    let sched := concat (repeat [Select; Mutate; Resample] (Z.to_nat gen)) in
    let err := fst (fst (evolve_norec X gen e)) in
    let log := snd (evolve_norec X gen e) in
    (exists g lt,
        evolve_norec X gen e
        = let '(err', e', log') := run_until_error (operators X) sched e in
          (err', with_generation e' g lt, log'))
    /\ map fst log = firstn (length log) sched
    /\ ((err = 0%Z /\ map fst log = sched /\ Forall (fun c => snd c = 0%Z) log)
        \/ (exists log0 o, log = log0 ++ [(o, err)]
              /\ Forall (fun c => snd c = 0%Z) log0 /\ (err =? 0)%Z = false)).
Proof.
  intros gsl_rng X gen e sched err log.
  assert (Hrun : exists g lt,
            evolve_norec X gen e
            = let '(err', e', log') := run_until_error (operators X) sched e in
              (err', with_generation e' g lt, [] ++ log')).
  { unfold evolve_norec. rewrite evolve_norec_loop_driver.
    apply (driver_loop_runs X (operators X) (operators_ignore_generation X)). }
  destruct Hrun as (g & lt & Hrun).
  pose proof (run_until_error_log (operators X) sched e) as Hlog.
  unfold err, log. rewrite Hrun.
  destruct (run_until_error (operators X) sched e) as [[err' e'] log'].
  simpl. split; [now exists g, lt|].
  destruct Hlog as [Hpre Hcase]. split; [assumption|].
  destruct Hcase as [H|(Hne & log0 & o & Hl & Hok)]; [now left|].
  right. exists log0, o. repeat split; try assumption. now apply Z.eqb_neq.
Qed.

(** X4: the account of the generations in [evolve] and [evolve_norec].  A
    generation that starts makes all its calls (four, three) and is
    counted, the failing one too: with [k] the number of generations run,
    the log has [4*k] ([3*k]) calls, the generations elapsed grow by [k],
    and [k] is [gen] when the driver returns 0.  A working counter within
    [0 .. HG_LONGTIMEGEN] stays there (for [HG_LONGTIMEGEN >= 1]). *)
Theorem stochastic_drivers_count_generations :
  forall (gsl_rng : Type) (X : hg_env gsl_rng) (gen : Z) (e : haploid_gt_dis gsl_rng),
    (let '(err, e', log) := evolve X gen e in
     exists k, (k <= Z.to_nat gen)%nat
       /\ (err = 0%Z -> k = Z.to_nat gen)
       /\ length log = (4 * k)%nat
       /\ elapsed_generations e' = elapsed_generations e + INR k
       /\ ((1 <= HG_LONGTIMEGEN X)%Z -> (0 <= generation e <= HG_LONGTIMEGEN X)%Z ->
           (0 <= generation e' <= HG_LONGTIMEGEN X)%Z))
    /\ (let '(err, e', log) := evolve_norec X gen e in
        exists k, (k <= Z.to_nat gen)%nat
          /\ (err = 0%Z -> k = Z.to_nat gen)
          /\ length log = (3 * k)%nat
          /\ elapsed_generations e' = elapsed_generations e + INR k
          /\ ((1 <= HG_LONGTIMEGEN X)%Z -> (0 <= generation e <= HG_LONGTIMEGEN X)%Z ->
              (0 <= generation e' <= HG_LONGTIMEGEN X)%Z)).
Proof.
  intros gsl_rng X gen e.
  assert (Hrl : forall sch o e', In o (removelast sch) -> ~ In Resample (removelast sch) ->
                  fst (operators X o e') = 0%Z).
  { intros sch o e' Hin Hno. apply operators_before_resample. now intros ->. }
  split.
  - unfold evolve. rewrite evolve_loop_driver.
    apply (driver_loop_account X (operators X) (operators_ignore_generation X)
             [Select; Mutate; Recombine; Resample]).
    intros o e' Hin. apply (Hrl _ o e' Hin). simpl. intuition discriminate.
  - unfold evolve_norec. rewrite evolve_norec_loop_driver.
    apply (driver_loop_account X (operators X) (operators_ignore_generation X)
             [Select; Mutate; Resample]).
    intros o e' Hin. apply (Hrl _ o e' Hin). simpl. intuition discriminate.
Qed.

(** X5: running [evolve] for [a] generations and, when that returns 0, for
    [b] more on the engine it leaves, is running it for [a + b]: same code,
    same engine, and the calls of the first run followed by those of the
    second.  When the first run fails, the run for [a + b] is that run. *)
Theorem evolve_composes :
  forall (gsl_rng : Type) (X : hg_env gsl_rng) (a b : Z) (e : haploid_gt_dis gsl_rng),
    (0 <= a)%Z -> (0 <= b)%Z ->
    evolve X (a + b) e
    = let '(err1, e1, log1) := evolve X a e in
      if Z.eqb err1 0 then
        let '(err2, e2, log2) := evolve X b e1 in (err2, e2, log1 ++ log2)
      else (err1, e1, log1).
Proof.
  intros gsl_rng X a b e Ha Hb. unfold evolve.
  rewrite Z2Nat.inj_add, !evolve_loop_driver by assumption.
  rewrite (driver_loop_compose X (operators X) (operators_ignore_generation X)).
  destruct (driver_loop err_of _ (Z.to_nat a) _) as [[err1 e1] log1].
  destruct (Z.eqb err1 0); [|reflexivity].
  now rewrite evolve_loop_driver.
Qed.

Lemma evolve_composes_witness :
  evolve sample_env (1 + 1) (sample_engine true [1/4; 3/4] [0; 0])
  = let '(err1, e1, log1) := evolve sample_env 1 (sample_engine true [1/4; 3/4] [0; 0]) in
    if Z.eqb err1 0 then
      let '(err2, e2, log2) := evolve sample_env 1 e1 in (err2, e2, log1 ++ log2)
    else (err1, e1, log1).
Proof.
  apply (evolve_composes unit sample_env 1 1 (sample_engine true [1/4; 3/4] [0; 0])); lia.
Defined.

(** ** Setting the mutation rates on an allocated engine *)

Lemma upd2_value (t : dtable) (i j : nat) (v : R) (a b : nat) :
  upd2 t i j v a b = if Nat.eqb a i && Nat.eqb b j then v else t a b.
Proof.
  destruct (Nat.eqb_spec a i) as [->|Ha]; simpl.
  - destruct (Nat.eqb_spec b j) as [->|Hb]; [apply upd2_same|now apply upd2_other_col].
  - now apply upd2_other_row.
Qed.

(** A loop over the loci that writes one row of a table. *)
Lemma for_range_row (g : nat -> R) (fb n : nat) (t : dtable) (a b : nat) :
  for_range 0 n (fun locus rates => upd2 rates fb locus (g locus)) t a b
  = if Nat.eqb a fb && (b <? n) then g b else t a b.
Proof.
  induction n as [|n IH].
  - rewrite for_range_0. now rewrite andb_false_r.
  - rewrite for_range_S, upd2_value, IH. simpl Nat.add.
    destruct (Nat.eqb a fb); simpl; [|reflexivity].
    destruct (Nat.eqb_spec b n) as [->|Hb].
    + now replace (n <? S n) with true by (symmetry; apply Nat.ltb_lt; lia).
    + destruct (Nat.ltb_spec b n), (Nat.ltb_spec b (S n)); try reflexivity; lia.
Qed.

(** A loop over the loci that writes the forward and the backward rate. *)
Lemma for_range_two_rows (g0 g1 : nat -> R) (n : nat) (t : dtable) (a b : nat) :
  for_range 0 n
    (fun locus rates => upd2 (upd2 rates 0 locus (g0 locus)) 1 locus (g1 locus)) t a b
  = if b <? n
    then (if Nat.eqb a 0 then g0 b else if Nat.eqb a 1 then g1 b else t a b)
    else t a b.
Proof.
  induction n as [|n IH].
  - rewrite for_range_0. reflexivity.
  - rewrite for_range_S, !upd2_value, IH. simpl Nat.add.
    destruct (Nat.eqb_spec b n) as [->|Hb].
    + replace (n <? S n) with true by (symmetry; apply Nat.ltb_lt; lia).
      rewrite Nat.ltb_irrefl, !andb_true_r.
      destruct a as [|[|a]]; reflexivity.
    + rewrite !andb_false_r.
      destruct (Nat.ltb_spec b n), (Nat.ltb_spec b (S n)); try reflexivity; lia.
Qed.

(** The loop over [fb] in 0, 1 around the loop over the loci. *)
Lemma for_range_both_rows (g : nat -> nat -> R) (n : nat) (t : dtable) (a b : nat) :
  for_range 0 2
    (fun fb rates => for_range 0 n (fun locus rates => upd2 rates fb locus (g fb locus)) rates)
    t a b
  = if (a <? 2) && (b <? n) then g a b else t a b.
Proof.
  change 2%nat with (S (S 0)) at 1. rewrite !for_range_S, for_range_0. simpl Nat.add.
  rewrite (for_range_row (g 1%nat)), (for_range_row (g 0%nat)).
  destruct a as [|[|a]]; simpl; reflexivity.
Qed.

(** The table each overload leaves on an allocated engine. *)
Lemma set_mutation_rate_tables {gsl_rng : Type} (X : hg_env gsl_rng)
    (e : haploid_gt_dis gsl_rng) (m mforward mbackward : R) (ml : darray) (mt : dtable) :
  mem e = true ->
  let L := number_of_loci e in
  let old := mutation_rates e in
  let written := fun (g : nat -> nat -> R) fb locus =>
    if (fb <? 2) && (locus <? L) then g fb locus else old fb locus in
  (forall fb locus, mutation_rates (snd (set_mutation_rate X m e)) fb locus
                    = written (fun _ _ => m) fb locus)
  /\ (forall fb locus, mutation_rates (snd (set_mutation_rate_fb X mforward mbackward e)) fb locus
                       = written (fun fb _ => if Nat.eqb fb 0 then mforward else mbackward)
                           fb locus)
  /\ (forall fb locus, mutation_rates (snd (set_mutation_rate_loci X ml e)) fb locus
                       = written (fun _ locus => ml locus) fb locus)
  /\ (forall fb locus, mutation_rates (snd (set_mutation_rate_table X mt e)) fb locus
                       = written mt fb locus).
Proof.
  intros Hmem L old written.
  unfold set_mutation_rate, set_mutation_rate_fb, set_mutation_rate_loci,
    set_mutation_rate_table. rewrite Hmem. simpl. fold L old.
  split; [|split; [|split]]; intros fb locus; unfold written.
  - apply (for_range_both_rows (fun _ _ => m)).
  - rewrite (for_range_two_rows (fun _ => mforward) (fun _ => mbackward)).
    destruct fb as [|[|fb]]; simpl; destruct (locus <? L); reflexivity.
  - rewrite (for_range_two_rows ml ml).
    destruct fb as [|[|fb]]; simpl; destruct (locus <? L); reflexivity.
  - apply (for_range_both_rows mt).
Qed.

(** X6: on an allocated engine each [set_mutation_rate] overload returns 0,
    changes nothing but the mutation-rate table, writes the rates of the
    two directions at the [number_of_loci] loci (forward in row 0, backward
    in row 1) and leaves every other cell of the table as it was. *)
Theorem set_mutation_rate_allocated :
  forall (gsl_rng : Type) (X : hg_env gsl_rng) (e : haploid_gt_dis gsl_rng)
         (m mforward mbackward : R) (ml : darray) (mt : dtable),
    mem e = true ->
    let L := number_of_loci e in
    let unchanged_but_table := fun r : Z * haploid_gt_dis gsl_rng =>
      fst r = 0%Z /\ snd r = with_mutation_rates e (mutation_rates (snd r))
      /\ forall fb locus, ~ ((fb < 2)%nat /\ (locus < L)%nat) ->
           mutation_rates (snd r) fb locus = mutation_rates e fb locus in
    (unchanged_but_table (set_mutation_rate X m e)
     /\ forall fb locus, (fb < 2)%nat -> (locus < L)%nat ->
          mutation_rates (snd (set_mutation_rate X m e)) fb locus = m)
    /\ (unchanged_but_table (set_mutation_rate_fb X mforward mbackward e)
        /\ forall locus, (locus < L)%nat ->
             mutation_rates (snd (set_mutation_rate_fb X mforward mbackward e)) 0%nat locus
             = mforward
             /\ mutation_rates (snd (set_mutation_rate_fb X mforward mbackward e)) 1%nat locus
                = mbackward)
    /\ (unchanged_but_table (set_mutation_rate_loci X ml e)
        /\ forall fb locus, (fb < 2)%nat -> (locus < L)%nat ->
             mutation_rates (snd (set_mutation_rate_loci X ml e)) fb locus = ml locus)
    /\ (unchanged_but_table (set_mutation_rate_table X mt e)
        /\ forall fb locus, (fb < 2)%nat -> (locus < L)%nat ->
             mutation_rates (snd (set_mutation_rate_table X mt e)) fb locus = mt fb locus).
Proof.
  intros gsl_rng X e m mf mb ml mt Hmem L P.
  destruct (set_mutation_rate_tables X e m mf mb ml mt Hmem) as (H1 & H2 & H3 & H4).
  fold L in H1, H2, H3, H4.
  assert (Hin : forall fb locus, (fb < 2)%nat -> (locus < L)%nat ->
                  (fb <? 2) && (locus <? L) = true).
  { intros fb locus Hfb Hl. apply andb_true_iff. split; now apply Nat.ltb_lt. }
  assert (Hout : forall fb locus, ~ ((fb < 2)%nat /\ (locus < L)%nat) ->
                   (fb <? 2) && (locus <? L) = false).
  { intros fb locus Hn. apply andb_false_iff.
    destruct (Nat.ltb_spec fb 2), (Nat.ltb_spec locus L); tauto. }
  assert (Hshape : forall r : Z * haploid_gt_dis gsl_rng,
            fst r = 0%Z -> snd r = with_mutation_rates e (mutation_rates (snd r)) ->
            (forall fb locus, ~ ((fb < 2)%nat /\ (locus < L)%nat) ->
               mutation_rates (snd r) fb locus = mutation_rates e fb locus) -> P r).
  { intros r Ha Hb Hc. unfold P. tauto. }
  repeat split.
  - unfold set_mutation_rate. now rewrite Hmem.
  - unfold set_mutation_rate. now rewrite Hmem.
  - intros fb locus Hn. now rewrite H1, (Hout fb locus Hn).
  - intros fb locus Hfb Hl. now rewrite H1, (Hin fb locus Hfb Hl).
  - unfold set_mutation_rate_fb. now rewrite Hmem.
  - unfold set_mutation_rate_fb. now rewrite Hmem.
  - intros fb locus Hn. now rewrite H2, (Hout fb locus Hn).
  - now rewrite H2, (Hin 0%nat locus) by (assumption || lia).
  - now rewrite H2, (Hin 1%nat locus) by (assumption || lia).
  - unfold set_mutation_rate_loci. now rewrite Hmem.
  - unfold set_mutation_rate_loci. now rewrite Hmem.
  - intros fb locus Hn. now rewrite H3, (Hout fb locus Hn).
  - intros fb locus Hfb Hl. now rewrite H3, (Hin fb locus Hfb Hl).
  - unfold set_mutation_rate_table. now rewrite Hmem.
  - unfold set_mutation_rate_table. now rewrite Hmem.
  - intros fb locus Hn. now rewrite H4, (Hout fb locus Hn).
  - intros fb locus Hfb Hl. now rewrite H4, (Hin fb locus Hfb Hl).
Qed.

Lemma set_mutation_rate_allocated_witness :
  fst (set_mutation_rate sample_env 1 (sample_engine true [1] [0])) = 0%Z
  /\ mutation_rates (snd (set_mutation_rate sample_env 1 (sample_engine true [1] [0])))
       1%nat 0%nat = 1.
Proof.
  destruct (set_mutation_rate_allocated unit sample_env (sample_engine true [1] [0])
              1 0 0 zero_array zero_table eq_refl) as (((Hret & _) & Hval) & _).
  split; [exact Hret|]. apply Hval; simpl; lia.
Defined.

(** X7: the overloads agree: the uniform rate [m] gives the code and the
    table of the pair [(m, m)], of the array that holds [m] at every locus,
    and of the matrix that holds [m] everywhere, allocated or not. *)
Theorem set_mutation_rate_overloads_agree :
  forall (gsl_rng : Type) (X : hg_env gsl_rng) (e : haploid_gt_dis gsl_rng) (m : R),
    let same := fun r r' : Z * haploid_gt_dis gsl_rng =>
      fst r = fst r'
      /\ forall fb locus, mutation_rates (snd r) fb locus = mutation_rates (snd r') fb locus in
    same (set_mutation_rate X m e) (set_mutation_rate_fb X m m e)
    /\ same (set_mutation_rate X m e) (set_mutation_rate_loci X (fun _ => m) e)
    /\ same (set_mutation_rate X m e) (set_mutation_rate_table X (fun _ _ => m) e).
Proof.
  intros gsl_rng X e m same. unfold same. destruct (mem e) eqn:Hmem.
  - destruct (set_mutation_rate_tables X e m m m (fun _ => m) (fun _ _ => m) Hmem)
      as (H1 & H2 & H3 & H4).
    unfold set_mutation_rate, set_mutation_rate_fb, set_mutation_rate_loci,
      set_mutation_rate_table in *. rewrite Hmem in *.
    repeat split; intros fb locus;
      first [ rewrite H1, H2; destruct (Nat.eqb fb 0); reflexivity
            | now rewrite H1, H3
            | now rewrite H1, H4 ].
  - unfold set_mutation_rate, set_mutation_rate_fb, set_mutation_rate_loci,
      set_mutation_rate_table. rewrite Hmem. repeat split.
Qed.

(** X8: once the rates are set to zero on an allocated engine, [mutate]
    leaves every population value as it is. *)
Theorem mutate_after_zero_rates :
  forall (gsl_rng : Type) (X : hg_env gsl_rng) (e : haploid_gt_dis gsl_rng),
    mem e = true ->
    forall i, func (population (snd (mutate (snd (set_mutation_rate X 0 e))))) i
              = func (population e) i.
Proof.
  intros gsl_rng X e Hmem i.
  destruct (set_mutation_rate_tables X e 0 0 0 zero_array zero_table Hmem) as (H1 & _).
  set (e1 := snd (set_mutation_rate X 0 e)) in *.
  assert (HL : number_of_loci e1 = number_of_loci e)
    by (unfold e1, set_mutation_rate; now rewrite Hmem).
  assert (Hp : population e1 = population e)
    by (unfold e1, set_mutation_rate; now rewrite Hmem).
  destruct (mutate_value e1) as (_ & _ & Hm). rewrite Hm, Hp.
  destruct (i <? Nat.shiftl 1 (number_of_loci e1)); [|reflexivity].
  rewrite sum_upto_zero; [lra|].
  intros l Hl. rewrite HL in Hl. unfold mutation_flow. rewrite !H1.
  apply Nat.ltb_lt in Hl. rewrite Hl. simpl. destruct (Nat.testbit i l); lra.
Qed.

Lemma mutate_after_zero_rates_witness :
  func (population (snd (mutate (snd (set_mutation_rate sample_env 0
                                        (sample_engine true [1/4; 3/4] [0; 0])))))) 1%nat
  = 3/4.
Proof.
  exact (mutate_after_zero_rates unit sample_env (sample_engine true [1/4; 3/4] [0; 0])
           eq_refl 1%nat).
Defined.

Lemma setbit_lt (L i l : nat) :
  (i < 2 ^ L)%nat -> (l < L)%nat -> Nat.testbit i l = false -> (i + 2 ^ l < 2 ^ L)%nat.
Proof.
  intros Hi Hl Hbit. apply Nat.add_nocarry_lt_pow2; [|assumption|].
  - apply Nat.bits_inj. intros k.
    rewrite Nat.land_spec, Nat.bits_0, Nat.pow2_bits_eqb.
    destruct (Nat.eqb_spec l k) as [->|]; [rewrite Hbit|]; now rewrite ?andb_false_r.
  - apply Nat.pow_lt_mono_r; [lia|assumption].
Qed.

(** X9: with the same rate forward and backward at each locus, the uniform
    population (the same frequency for every genotype) is left as it is by
    [mutate]. *)
Theorem mutate_uniform_stationary :
  forall (gsl_rng : Type) (e : haploid_gt_dis gsl_rng) (c : R),
    let L := number_of_loci e in
    (forall l, (l < L)%nat -> mutation_rates e 0%nat l = mutation_rates e 1%nat l) ->
    (forall i, (i < 2 ^ L)%nat -> func (population e) i = c) ->
    forall i, func (population (snd (mutate e))) i = func (population e) i.
Proof.
  intros gsl_rng e c L Hsym Hunif i.
  destruct (mutate_value e) as (_ & _ & Hm). fold L in Hm. rewrite Hm.
  destruct (Nat.ltb_spec i (Nat.shiftl 1 L)) as [Hi|Hi]; [|reflexivity].
  rewrite Nat.shiftl_1_l in Hi.
  rewrite sum_upto_zero; [lra|].
  intros l Hl. rewrite mutation_flow_arith, (Hsym l Hl).
  destruct (Nat.testbit i l) eqn:E.
  - rewrite (Hunif i Hi), (Hunif (i - 2 ^ l)%nat) by lia. lra.
  - rewrite (Hunif i Hi), (Hunif (i + 2 ^ l)%nat) by now apply setbit_lt. lra.
Qed.

Lemma mutate_uniform_stationary_witness :
  func (population (snd (mutate (sample_engine true [1/2; 1/2] [0; 0])))) 0%nat = 1/2.
Proof.
  assert (Hsym : forall l, (l < 1)%nat -> zero_table 0%nat l = zero_table 1%nat l)
    by reflexivity.
  assert (Hunif : forall i, (i < 2 ^ 1)%nat -> array_of [1/2; 1/2] i = 1/2).
  { intros i Hi. simpl in Hi. destruct i as [|[|i]]; try reflexivity. lia. }
  exact (mutate_uniform_stationary unit (sample_engine true [1/2; 1/2] [0; 0]) (1/2)
           Hsym Hunif 0%nat).
Defined.

(** ** Selection: neutrality and sign *)

(** X10: adding the same constant to the fitness of every genotype does not
    change what [select] leaves (for a non-zero normalization sum). *)
Theorem select_fitness_shift :
  forall (gsl_rng : Type) (e : haploid_gt_dis gsl_rng) (c : R),
    let n := Nat.shiftl 1 (number_of_loci e) in
    let shifted := with_fitness e (set_func (fitness e) (fun i => func (fitness e) i + c)) in
    sum_upto n (fun j => func (population e) j * exp (func (fitness e) j)) <> 0 ->
    forall i, (i < n)%nat ->
      func (population (snd (select shifted))) i = func (population (snd (select e))) i.
Proof.
  intros gsl_rng e c n shifted Hnorm i Hi.
  destruct (select_value e) as [_ H1]. destruct (select_value shifted) as [_ H2].
  rewrite H1, H2. simpl. fold n. apply Nat.ltb_lt in Hi. rewrite Hi.
  rewrite (sum_upto_ext n _
             (fun j => func (population e) j * exp (func (fitness e) j) * exp c))
    by (intros j _; rewrite exp_plus; ring).
  rewrite sum_upto_scale, exp_plus. field. split; [assumption|].
  pose proof (exp_pos c). lra.
Qed.

Lemma select_fitness_shift_witness :
  func (population (snd (select
     (with_fitness (sample_engine true [1/4; 3/4] [0; 0])
        (set_func (fitness (sample_engine true [1/4; 3/4] [0; 0]))
           (fun i => func (fitness (sample_engine true [1/4; 3/4] [0; 0])) i + 5)))))) 0%nat
  = func (population (snd (select (sample_engine true [1/4; 3/4] [0; 0])))) 0%nat.
Proof.
  apply (select_fitness_shift unit (sample_engine true [1/4; 3/4] [0; 0]) 5).
  - unfold sum_upto. simpl. unfold array_of. simpl. rewrite exp_0. lra.
  - simpl. lia.
Defined.

(** X11: on a population of non-negative frequencies, one of them positive,
    [select] leaves a probability distribution: the normalization sum is
    positive, the new frequencies are non-negative and sum to 1, and a
    genotype of frequency zero keeps frequency zero. *)
Theorem select_keeps_distribution :
  forall (gsl_rng : Type) (e : haploid_gt_dis gsl_rng) (k : nat),
    let n := Nat.shiftl 1 (number_of_loci e) in
    let p := func (population e) in
    let p' := func (population (snd (select e))) in
    (forall i, (i < n)%nat -> 0 <= p i) -> (k < n)%nat -> 0 < p k ->
    0 < sum_upto n (fun j => p j * exp (func (fitness e) j))
    /\ (forall i, (i < n)%nat -> 0 <= p' i)
    /\ (forall i, (i < n)%nat -> p i = 0 -> p' i = 0)
    /\ 0 < p' k
    /\ sum_upto n p' = 1.
Proof.
  intros gsl_rng e k n p p' Hnn Hk Hpos.
  set (w := fun j => p j * exp (func (fitness e) j)).
  assert (Hw : forall i, (i < n)%nat -> 0 <= w i).
  { intros i Hi. unfold w. pose proof (exp_pos (func (fitness e) i)).
    pose proof (Hnn i Hi). nra. }
  assert (Hwk : 0 < w k).
  { unfold w. pose proof (exp_pos (func (fitness e) k)). nra. }
  assert (Hnorm : 0 < sum_upto n w) by (apply (sum_upto_pos n w k); assumption).
  destruct (select_value e) as [_ Hf]. fold n p w in Hf.
  assert (Hin : forall i, (i < n)%nat -> p' i = w i * (1 / sum_upto n w)).
  { intros i Hi. unfold p'. rewrite Hf. apply Nat.ltb_lt in Hi. now rewrite Hi. }
  assert (Hinv : 0 < 1 / sum_upto n w) by (apply Rdiv_lt_0_compat; lra).
  split; [assumption|]. split; [|split; [|split]].
  - intros i Hi. rewrite (Hin i Hi). pose proof (Hw i Hi). nra.
  - intros i Hi H0. rewrite (Hin i Hi). unfold w. rewrite H0. ring.
  - rewrite (Hin k Hk). nra.
  - rewrite (sum_upto_ext n _ (fun i => w i * (1 / sum_upto n w))) by assumption.
    rewrite sum_upto_scale. field. lra.
Qed.

Lemma select_keeps_distribution_witness :
  sum_upto 2 (func (population (snd (select (sample_engine true [1/4; 3/4] [0; 0]))))) = 1.
Proof.
  assert (Hnn : forall i, (i < Nat.shiftl 1 1)%nat -> 0 <= array_of [1/4; 3/4] i).
  { intros i Hi. simpl in Hi. destruct i as [|[|i]]; [| |lia]; unfold array_of; simpl; lra. }
  assert (Hk : (0 < Nat.shiftl 1 1)%nat) by (simpl; lia).
  assert (Hpos : 0 < array_of [1/4; 3/4] 0%nat) by (unfold array_of; simpl; lra).
  exact (proj2 (proj2 (proj2 (proj2
           (select_keeps_distribution unit (sample_engine true [1/4; 3/4] [0; 0]) 0%nat
              Hnn Hk Hpos))))).
Defined.

(** ** Fitness statistics: what is read and what is left *)

(** X12: on a population in FUNC state [get_fitness_statistics] leaves the
    engine as it is, and the mean it returns is the sum of
    [population[i]*fitness[i]]: for a population of total mass 1 and the
    same fitness [c] for every genotype, the mean is [c]. *)
Theorem get_fitness_statistics_reads :
  forall (gsl_rng : Type) (X : hg_env gsl_rng) (e : haploid_gt_dis gsl_rng) (c : R),
    state (population e) = HC_FUNC ->
    let n := Nat.shiftl 1 (number_of_loci e) in
    snd (get_fitness_statistics X e) = e
    /\ mean (fst (get_fitness_statistics X e))
       = sum_upto n (fun i => func (population e) i * func (fitness e) i)
    /\ (sum_upto n (func (population e)) = 1 ->
        (forall i, (i < n)%nat -> func (fitness e) i = c) ->
        mean (fst (get_fitness_statistics X e)) = c).
Proof.
  intros gsl_rng X e c Hstate n.
  pose proof (get_fitness_statistics_value gsl_rng X e Hstate) as Hv. fold n in Hv.
  split; [|split].
  - unfold get_fitness_statistics, get_state. rewrite Hstate.
    destruct (for_range 0 _ _ _). simpl. now destruct e.
  - now rewrite Hv.
  - intros Hone Hc. rewrite Hv. simpl.
    rewrite (sum_upto_ext n _ (fun i => func (population e) i * c))
      by (intros i Hi; now rewrite (Hc i Hi)).
    rewrite sum_upto_scale, Hone. ring.
Qed.

Lemma get_fitness_statistics_reads_witness :
  mean (fst (get_fitness_statistics sample_env (sample_engine true [1/4; 3/4] [7; 7]))) = 7.
Proof.
  apply (get_fitness_statistics_reads unit sample_env
           (sample_engine true [1/4; 3/4] [7; 7]) 7 eq_refl).
  - unfold sum_upto. simpl. unfold array_of. simpl. lra.
  - intros i Hi. simpl in Hi. destruct i as [|[|i]]; try reflexivity. lia.
Defined.

(** ** Initialization in linkage equilibrium *)

Lemma genotype_probability_S (L : nat) (freq : darray) (i : nat) :
  genotype_probability (S L) freq i
  = genotype_probability L freq i * (if Nat.testbit i L then freq L else 1 - freq L).
Proof.
  unfold genotype_probability. rewrite for_range_S, has_bit_testbit. simpl Nat.add.
  destruct (Nat.testbit i L); reflexivity.
Qed.

Lemma genotype_probability_ext (L : nat) (freq : darray) (i j : nat) :
  (forall k, (k < L)%nat -> Nat.testbit i k = Nat.testbit j k) ->
  genotype_probability L freq i = genotype_probability L freq j.
Proof.
  induction L as [|L IH]; intros H; [reflexivity|].
  rewrite !genotype_probability_S, IH, (H L) by auto with arith. reflexivity.
Qed.

Lemma genotype_probability_high (L : nat) (freq : darray) (i : nat) :
  genotype_probability L freq (2 ^ L + i) = genotype_probability L freq i.
Proof.
  apply genotype_probability_ext. intros k Hk.
  rewrite Nat.add_comm. now apply testbit_add_pow2_low.
Qed.

(** The probabilities of all the genotypes add up to 1. *)
Lemma genotype_probability_total (L : nat) (freq : darray) :
  sum_upto (2 ^ L) (genotype_probability L freq) = 1.
Proof.
  induction L as [|L IH]; [unfold sum_upto, genotype_probability, for_range; simpl; lra|].
  replace (2 ^ S L)%nat with (2 ^ L + 2 ^ L)%nat by (simpl; lia).
  rewrite sum_upto_app.
  rewrite (sum_upto_ext (2 ^ L) (genotype_probability (S L) freq)
             (fun i => genotype_probability L freq i * (1 - freq L))).
  - rewrite (sum_upto_ext (2 ^ L) (fun i => genotype_probability (S L) freq (2 ^ L + i))
               (fun i => genotype_probability L freq i * freq L)).
    + rewrite !sum_upto_scale, IH. ring.
    + intros i Hi. rewrite genotype_probability_S, genotype_probability_high.
      now rewrite (Nat.add_comm (2 ^ L) i), (testbit_add_pow2_top L i Hi).
  - intros i Hi. now rewrite genotype_probability_S, (testbit_below L i Hi).
Qed.

(** The genotypes that carry the allele at locus [l] have total
    probability [freq l]. *)
Lemma genotype_probability_marginal (L : nat) (freq : darray) (l : nat) :
  (l < L)%nat ->
  sum_upto (2 ^ L)
    (fun i => if Nat.testbit i l then genotype_probability L freq i else 0)
  = freq l.
Proof.
  induction L as [|L IH]; intros Hl; [lia|].
  replace (2 ^ S L)%nat with (2 ^ L + 2 ^ L)%nat by (simpl; lia).
  rewrite sum_upto_app.
  destruct (Nat.eq_dec l L) as [->|Hne].
  - rewrite (sum_upto_zero (2 ^ L))
      by (intros i Hi; now rewrite (testbit_below L i Hi)).
    rewrite (sum_upto_ext (2 ^ L) _ (fun i => genotype_probability L freq i * freq L)).
    + rewrite sum_upto_scale, genotype_probability_total. ring.
    + intros i Hi. rewrite genotype_probability_S, genotype_probability_high.
      now rewrite (Nat.add_comm (2 ^ L) i), (testbit_add_pow2_top L i Hi).
  - assert (Hl' : (l < L)%nat) by lia.
    rewrite (sum_upto_ext (2 ^ L) _
               (fun i => (if Nat.testbit i l then genotype_probability L freq i else 0)
                         * (1 - freq L))).
    + rewrite (sum_upto_ext (2 ^ L)
                 (fun i => if Nat.testbit (2 ^ L + i) l
                           then genotype_probability (S L) freq (2 ^ L + i) else 0)
                 (fun i => (if Nat.testbit i l then genotype_probability L freq i else 0)
                           * freq L)).
      * rewrite !sum_upto_scale, (IH Hl'). ring.
      * intros i Hi. rewrite genotype_probability_S, genotype_probability_high.
        rewrite (Nat.add_comm (2 ^ L) i), (testbit_add_pow2_top L i Hi),
          (testbit_add_pow2_low L i l Hl').
        destruct (Nat.testbit i l); ring.
    + intros i Hi. rewrite genotype_probability_S, (testbit_below L i Hi).
      destruct (Nat.testbit i l); ring.
Qed.

(** X13: [init_frequencies] returns the code of the transform, sets both
    generation counters to zero and fills the population with a probability
    distribution in linkage equilibrium: the frequencies sum to 1 whatever
    the array [freq] holds, and the genotypes that carry the allele at a
    locus [l] have total frequency [freq[l]]. *)
Theorem init_frequencies_linkage_equilibrium :
  forall (gsl_rng : Type) (X : hg_env gsl_rng) (fft_code : Z) (freq : darray)
         (e : haploid_gt_dis gsl_rng),
    let L := number_of_loci e in
    let n := Nat.shiftl 1 L in
    let e' := snd (init_frequencies X fft_code freq e) in
    let p := func (population e') in
    fst (init_frequencies X fft_code freq e) = fft_code
    /\ generation e' = 0%Z /\ long_time_generation e' = 0
    /\ sum_upto n p = 1
    /\ forall l, (l < L)%nat ->
         sum_upto n (fun i => if Nat.testbit i l then p i else 0) = freq l.
Proof.
  intros gsl_rng X fft_code freq e L n e' p.
  assert (Hp : forall i, (i < n)%nat -> p i = genotype_probability L freq i).
  { intros i Hi. unfold p, e', init_frequencies. simpl. fold L n.
    rewrite (for_range_cells (fun i _ => genotype_probability L freq i)).
    change (0 + n)%nat with n. apply Nat.ltb_lt in Hi. now rewrite Hi. }
  repeat split.
  - rewrite (sum_upto_ext n p (genotype_probability L freq)) by assumption.
    unfold n. rewrite Nat.shiftl_1_l. apply genotype_probability_total.
  - intros l Hl.
    rewrite (sum_upto_ext n _
               (fun i => if Nat.testbit i l then genotype_probability L freq i else 0))
      by (intros i Hi; now rewrite (Hp i Hi)).
    unfold n. rewrite Nat.shiftl_1_l. now apply genotype_probability_marginal.
Qed.

Lemma init_frequencies_linkage_equilibrium_witness :
  sum_upto 2
    (fun i => if Nat.testbit i 0
              then func (population (snd (init_frequencies sample_env 0 (array_of [1/3])
                                           (sample_engine true [0; 0] [0; 0])))) i
              else 0)
  = array_of [1/3] 0%nat.
Proof.
  apply (init_frequencies_linkage_equilibrium unit sample_env 0%Z (array_of [1/3])
           (sample_engine true [0; 0] [0; 0])).
  simpl. lia.
Defined.

(** ** Recombination: the outcrossing rate and the two models *)

(** X14: [recombine] returns 0 in both models.  With free recombination
    and outcrossing rate 0 it leaves every genotype frequency as it is;
    with outcrossing rate 1, as in the general model whatever the rate, the
    population becomes the recombinant distribution. *)
Theorem recombine_outcrossing_extremes :
  forall (gsl_rng : Type) (X : hg_env gsl_rng) (e : haploid_gt_dis gsl_rng),
    let n := Nat.shiftl 1 (number_of_loci e) in
    let e' := snd (recombine X e) in
    fst (recombine X e) = 0%Z
    /\ (free_recombination e = true -> outcrossing_rate e = 0 ->
        forall i, func (population e') i = func (population e) i)
    /\ (free_recombination e = true -> outcrossing_rate e = 1 ->
        forall i, (i < n)%nat -> func (population e') i = func (recombinants e') i)
    /\ (free_recombination e = false ->
        forall i, (i < n)%nat -> func (population e') i = func (recombinants e') i).
Proof.
  intros gsl_rng X e n e'.
  destruct (recombine_value X e) as (Hret & _ & Hrf & _ & Hp).
  fold n e' in Hrf, Hp. split; [assumption|]. repeat split.
  - intros Hfree H0 i. rewrite Hp, Hfree, H0. destruct (i <? n); ring.
  - intros Hfree H1 i Hi. rewrite Hp, Hfree, H1, Hrf.
    apply Nat.ltb_lt in Hi. rewrite Hi. ring.
  - intros Hgen i Hi. rewrite Hp, Hgen, Hrf. apply Nat.ltb_lt in Hi. now rewrite Hi.
Qed.

Lemma recombine_outcrossing_extremes_witness :
  func (population (snd (recombine sample_env (sample_engine true [1/4; 3/4] [0; 0])))) 1%nat
  = 3/4.
Proof.
  exact (proj1 (proj2 (recombine_outcrossing_extremes unit sample_env
                         (sample_engine true [1/4; 3/4] [0; 0])))
           eq_refl eq_refl 1%nat).
Defined.

Lemma INR_pow2_pos (k : nat) : 0 < INR (2 ^ k).
Proof. apply lt_0_INR, pow2_pos. Qed.

(** With every partition of every subset equally likely, the coefficients
    of the general model are those of free recombination. *)
Lemma general_coefficient_uniform (L : nat) (patterns : dtable) (pc : darray) (i : nat) :
  (forall j, (j < 2 ^ order L i)%nat -> patterns i j = 1 / INR (2 ^ order L i)) ->
  general_coefficient L patterns pc i = free_coefficient L pc i.
Proof.
  intros Hu. unfold general_coefficient, free_coefficient. rewrite !Nat.shiftl_1_l.
  rewrite (sum_upto_ext (2 ^ order L i) _
             (fun j => pc (maternal_alleles L i j) * pc (paternal_alleles L i j)
                       * (1 / INR (2 ^ order L i))))
    by (intros j Hj; rewrite (Hu j Hj); ring).
  rewrite sum_upto_scale.
  replace (2 ^ L)%nat with (2 ^ order L i * 2 ^ (L - order L i))%nat.
  - rewrite mult_INR. field. pose proof (INR_pow2_pos (order L i)). lra.
  - rewrite <- Nat.pow_add_r. f_equal. pose proof (order_le L i). lia.
Qed.

(** X15: a pattern table in which, for every non-empty subset, all the
    partitions are equally likely makes the general model the free one with
    full outcrossing: [recombine] leaves the same frequencies with
    [free_recombination] off as with it on and [outcrossing_rate] 1. *)
Theorem recombine_general_uniform_is_free :
  forall (gsl_rng : Type) (X : hg_env gsl_rng) (e : haploid_gt_dis gsl_rng),
    let L := number_of_loci e in
    let n := Nat.shiftl 1 L in
    free_recombination e = false -> outcrossing_rate e = 1 ->
    (forall i j, (0 < i < n)%nat -> (j < 2 ^ order L i)%nat ->
       recombination_patters e i j = 1 / INR (2 ^ order L i)) ->
    forall i, (i < n)%nat ->
      func (population (snd (recombine X e))) i
      = func (population (snd (recombine X (with_free_recombination e true)))) i.
Proof.
  intros gsl_rng X e L n Hgen Hout Hu i Hi.
  destruct (recombine_value X e) as (_ & _ & _ & _ & Hp).
  destruct (recombine_value X (with_free_recombination e true)) as (_ & _ & _ & _ & Hq).
  rewrite Hp, Hq. simpl. fold L n. rewrite Hgen, Hout.
  apply Nat.ltb_lt in Hi. rewrite Hi.
  assert (Hrc : recombinant_coefficients X e
                = recombinant_coefficients X (with_free_recombination e true)).
  { apply functional_extensionality. intros k.
    unfold recombinant_coefficients. simpl. fold L. rewrite Hgen.
    rewrite general_coefficients_value, free_coefficients_value.
    destruct (Nat.eqb_spec k 0) as [|Hk]; [reflexivity|]. fold n.
    destruct (Nat.ltb_spec k n) as [Hkn|]; [|reflexivity].
    apply general_coefficient_uniform. intros j Hj. apply Hu; [lia|assumption]. }
  rewrite <- Hrc. ring.
Qed.

Lemma recombine_general_uniform_is_free_witness :
  let e := with_recombination_patters
             (with_free_recombination
                (mk_haploid_gt_dis true true 1 0%Z 0 false 1%nat 1000 tt
                   (sample_cube [0; 0]) (sample_cube [1/4; 3/4]) (sample_cube [])
                   (sample_cube []) zero_table zero_table) false)
             (fun _ _ => 1 / 2) in
  func (population (snd (recombine sample_env e))) 0%nat
  = func (population (snd (recombine sample_env (with_free_recombination e true)))) 0%nat.
Proof.
  intros e.
  apply (recombine_general_uniform_is_free unit sample_env e eq_refl eq_refl).
  - intros i j Hi Hj. simpl in Hi. assert (i = 1%nat) by lia. subst i. simpl. lra.
  - simpl. lia.
Defined.

(** ** Set-up *)

(** What [allocate_mem] leaves, whatever the hypercubes answer. *)
Lemma allocate_mem_value {gsl_rng : Type} (X : hg_env gsl_rng) (A : setup_env gsl_rng)
    (seed : Z) (e : haploid_gt_dis gsl_rng) :
  let r := allocate_mem X A seed e in
  ((fst r = 0%Z /\ mem (snd r) = true) \/ (fst r = HG_MEMERR X /\ mem (snd r) = mem e))
  /\ number_of_loci (snd r) = number_of_loci e
  /\ population_size (snd r) = population_size e
  /\ forall fb locus, mutation_rates (snd r) fb locus
       = if (fb <? 2) && (locus <? number_of_loci e) then 0
         else new_mutation_rates A fb locus.
Proof.
  intros r. unfold r, allocate_mem.
  destruct (gsl_rng_uniform_int_max A (gsl_rng_alloc_set A seed)) as [s1 g1].
  destruct (hypercube_set_up A (fitness e) (number_of_loci e) s1) as [c1 fit].
  destruct (gsl_rng_uniform_int_max A g1) as [s2 g2].
  destruct (hypercube_set_up A (population e) (number_of_loci e) s2) as [c2 pop].
  destruct (gsl_rng_uniform_int_max A g2) as [s3 g3].
  destruct (hypercube_set_up A (mutants e) (number_of_loci e) s3) as [c3 mut].
  destruct (gsl_rng_uniform_int_max A g3) as [s4 g4].
  destruct (hypercube_set_up A (recombinants e) (number_of_loci e) s4) as [c4 rec].
  destruct (Z.eqb (0 + c1 + c2 + c3 + c4) 0); simpl;
    (split; [tauto|]); (split; [reflexivity|]); (split; [reflexivity|]);
    intros fb locus; apply (for_range_both_rows (fun _ _ => 0)).
Qed.

Lemma allocate_mem_success {gsl_rng : Type} (X : hg_env gsl_rng) (A : setup_env gsl_rng)
    (seed : Z) (e : haploid_gt_dis gsl_rng) :
  (forall h L s, fst (hypercube_set_up A h L s) = 0%Z) ->
  fst (allocate_mem X A seed e) = 0%Z /\ mem (snd (allocate_mem X A seed e)) = true.
Proof.
  intros Hok. unfold allocate_mem.
  destruct (gsl_rng_uniform_int_max A (gsl_rng_alloc_set A seed)) as [s1 g1].
  pose proof (Hok (fitness e) (number_of_loci e) s1) as H1.
  destruct (hypercube_set_up A (fitness e) (number_of_loci e) s1) as [c1 fit].
  destruct (gsl_rng_uniform_int_max A g1) as [s2 g2].
  pose proof (Hok (population e) (number_of_loci e) s2) as H2.
  destruct (hypercube_set_up A (population e) (number_of_loci e) s2) as [c2 pop].
  destruct (gsl_rng_uniform_int_max A g2) as [s3 g3].
  pose proof (Hok (mutants e) (number_of_loci e) s3) as H3.
  destruct (hypercube_set_up A (mutants e) (number_of_loci e) s3) as [c3 mut].
  destruct (gsl_rng_uniform_int_max A g3) as [s4 g4].
  pose proof (Hok (recombinants e) (number_of_loci e) s4) as H4.
  destruct (hypercube_set_up A (recombinants e) (number_of_loci e) s4) as [c4 rec].
  simpl in H1, H2, H3, H4. subst. simpl. split; reflexivity.
Qed.

(** X16: [set_up] stores the number of loci and the population size and
    zeroes the mutation rates of both directions at every locus.  It
    returns 0 and marks the memory allocated, or returns [HG_MEMERR] and
    leaves the mark as it was; the first when the four hypercubes set up
    with code 0. *)
Theorem set_up_outcome :
  forall (gsl_rng : Type) (X : hg_env gsl_rng) (A : setup_env gsl_rng)
         (L_in : nat) (N_in : R) (rngseed : Z) (e : haploid_gt_dis gsl_rng),
    let r := set_up X A L_in N_in rngseed e in
    ((fst r = 0%Z /\ mem (snd r) = true) \/ (fst r = HG_MEMERR X /\ mem (snd r) = mem e))
    /\ number_of_loci (snd r) = L_in
    /\ population_size (snd r) = N_in
    /\ (forall fb locus, (fb < 2)%nat -> (locus < L_in)%nat ->
          mutation_rates (snd r) fb locus = 0)
    /\ ((forall h L s, fst (hypercube_set_up A h L s) = 0%Z) ->
        fst r = 0%Z /\ mem (snd r) = true).
Proof.
  intros gsl_rng X A L_in N_in rngseed e r. unfold r, set_up.
  set (seed := if Z.eqb rngseed 0 then time_plus_getpid A else rngseed).
  destruct (allocate_mem_value X A seed (with_size e L_in N_in)) as (Hc & HL & HN & Hr).
  split; [exact Hc|]. split; [exact HL|]. split; [exact HN|]. split.
  - intros fb locus Hfb Hl. rewrite Hr. simpl.
    apply Nat.ltb_lt in Hfb, Hl. now rewrite Hfb, Hl.
  - intros Hok. now apply allocate_mem_success.
Qed.

Lemma set_up_outcome_witness :
  fst (set_up sample_env sample_setup 1 1000 0 (sample_engine false [1] [0])) = 0%Z
  /\ mem (snd (set_up sample_env sample_setup 1 1000 0 (sample_engine false [1] [0]))) = true.
Proof.
  apply (set_up_outcome unit sample_env sample_setup 1 1000 0 (sample_engine false [1] [0])).
  reflexivity.
Defined.

(** X17: an engine that [set_up] has just allocated does not mutate: every
    overload of [set_mutation_rate] is accepted on it, and until one is
    called [mutate] leaves the population as it is. *)
Theorem fresh_engine_has_zero_rates :
  forall (gsl_rng : Type) (X : hg_env gsl_rng) (A : setup_env gsl_rng)
         (L_in : nat) (N_in : R) (rngseed : Z) (e : haploid_gt_dis gsl_rng) (m : R),
    fst (set_up X A L_in N_in rngseed e) = 0%Z -> HG_MEMERR X <> 0%Z ->
    let e1 := snd (set_up X A L_in N_in rngseed e) in
    fst (set_mutation_rate X m e1) = 0%Z
    /\ forall i, func (population (snd (mutate e1))) i = func (population e1) i.
Proof.
  intros gsl_rng X A L_in N_in rngseed e m Hok Hmem e1.
  unfold e1, set_up in *.
  set (seed := if Z.eqb rngseed 0 then time_plus_getpid A else rngseed) in *.
  destruct (allocate_mem_value X A seed (with_size e L_in N_in)) as (Hc & HL & _ & Hr).
  set (e2 := snd (allocate_mem X A seed (with_size e L_in N_in))) in *.
  assert (Hm : mem e2 = true) by (destruct Hc as [[_ H]|[H _]]; [assumption|congruence]).
  split.
  - unfold set_mutation_rate. now rewrite Hm.
  - intros i. destruct (mutate_value e2) as (_ & _ & Hp). rewrite Hp.
    destruct (i <? Nat.shiftl 1 (number_of_loci e2)); [|reflexivity].
    rewrite sum_upto_zero; [lra|].
    intros l Hl. unfold mutation_flow. rewrite !Hr, <- HL. simpl.
    apply Nat.ltb_lt in Hl. rewrite Hl. destruct (Nat.testbit i l); lra.
Qed.

Lemma fresh_engine_has_zero_rates_witness :
  fst (set_mutation_rate sample_env 1
         (snd (set_up sample_env sample_setup 1 1000 0 (sample_engine false [1/4; 3/4] [0; 0]))))
  = 0%Z.
Proof.
  assert (Hmem : HG_MEMERR sample_env <> 0%Z) by (simpl; lia).
  exact (proj1 (fresh_engine_has_zero_rates unit sample_env sample_setup 1 1000 0
                  (sample_engine false [1/4; 3/4] [0; 0]) 1 eq_refl Hmem)).
Defined.

(** ** Entropies

    The C function [log] is read as [ln]; the two agree on the positive
    numbers, and the statements take the arguments of [log] positive. *)

Lemma for_range_subtract (a : darray) (n : nat) :
  for_range 0 n (fun i S => S - a i) 0 = sum_upto n (fun i => - a i).
Proof.
  induction n as [|n IH]; [reflexivity|].
  rewrite for_range_S, IH, sum_upto_S. simpl Nat.add. lra.
Qed.

Lemma sum_upto_const (n : nat) (c : R) : sum_upto n (fun _ => c) = INR n * c.
Proof.
  induction n as [|n IH]; [unfold sum_upto; simpl; lra|].
  rewrite sum_upto_S, IH, S_INR. lra.
Qed.

Lemma ln_nonpos (x : R) : 0 < x -> x <= 1 -> ln x <= 0.
Proof.
  intros Hx [Hlt|Heq]; [|rewrite Heq, ln_1; lra].
  pose proof (ln_increasing x 1 Hx Hlt) as H. rewrite ln_1 in H. lra.
Qed.

Lemma ln_pow2 (L : nat) : ln (INR (2 ^ L)) = INR L * ln 2.
Proof.
  rewrite pow_INR. simpl INR. replace (1 + 1) with 2 by lra. apply ln_pow. lra.
Qed.

(** X19: on a population in FUNC state [genotype_entropy] leaves the engine
    as it is.  For frequencies in (0, 1] the entropy is not negative; for
    the uniform population over the [2^L] genotypes it is [L * ln 2]. *)
Theorem genotype_entropy_values :
  forall (gsl_rng : Type) (X : hg_env gsl_rng) (e : haploid_gt_dis gsl_rng),
    state (population e) = HC_FUNC ->
    let L := number_of_loci e in
    let n := Nat.shiftl 1 L in
    let p := func (population e) in
    snd (genotype_entropy X e) = e
    /\ ((forall i, (i < n)%nat -> 0 < p i <= 1) -> 0 <= fst (genotype_entropy X e))
    /\ ((forall i, (i < n)%nat -> p i = / INR n) ->
        fst (genotype_entropy X e) = INR L * ln 2).
Proof.
  intros gsl_rng X e Hstate L n p.
  assert (Hval : fst (genotype_entropy X e) = sum_upto n (fun i => - (p i * ln (p i)))).
  { unfold genotype_entropy, get_state. rewrite Hstate. simpl.
    apply (for_range_subtract (fun i => p i * ln (p i))). }
  split; [|split].
  - unfold genotype_entropy, get_state. rewrite Hstate. simpl. now destruct e.
  - intros Hp. rewrite Hval. apply sum_upto_nonneg. intros i Hi.
    destruct (Hp i Hi) as [H0 H1]. pose proof (ln_nonpos (p i) H0 H1). nra.
  - intros Hu. rewrite Hval.
    rewrite (sum_upto_ext n _ (fun _ => - (/ INR n * ln (/ INR n))))
      by (intros i Hi; now rewrite (Hu i Hi)).
    assert (Hn : 0 < INR n) by (unfold n; rewrite Nat.shiftl_1_l; apply INR_pow2_pos).
    rewrite sum_upto_const, ln_Rinv by assumption.
    unfold n at 3. rewrite Nat.shiftl_1_l, ln_pow2. field. lra.
Qed.

Lemma genotype_entropy_values_witness :
  fst (genotype_entropy sample_env (sample_engine true [1/2; 1/2] [0; 0])) = INR 1 * ln 2.
Proof.
  apply (genotype_entropy_values unit sample_env (sample_engine true [1/2; 1/2] [0; 0])
           eq_refl).
  intros i Hi. simpl in Hi. simpl.
  destruct i as [|[|i]]; [| |lia]; unfold array_of; simpl; lra.
Defined.

Lemma allele_entropy_loop (c : darray) (n : nat) :
  for_range 0 n (allele_entropy_step c) 0
  = sum_upto n (fun l => locus_entropy (c (Nat.shiftl 1 l))).
Proof.
  induction n as [|n IH]; [reflexivity|].
  rewrite for_range_S, IH, sum_upto_S. simpl Nat.add.
  unfold allele_entropy_step, locus_entropy. lra.
Qed.

(** X20: [allele_entropy] reads the coefficients of the single loci,
    [coeff[1<<l]], after a transform when the population is in FUNC state.
    With every such coefficient strictly between -1 and 1 the entropy is
    not negative; with all of them 0 it is [L * ln 2]. *)
Theorem allele_entropy_values :
  forall (gsl_rng : Type) (X : hg_env gsl_rng) (e : haploid_gt_dis gsl_rng),
    let L := number_of_loci e in
    let c := match state (population e) with
             | HC_FUNC => func_to_coeff X L (func (population e))
             | _ => coeff (population e)
             end in
    coeff (population (snd (allele_entropy X e))) = c
    /\ func (population (snd (allele_entropy X e))) = func (population e)
    /\ ((forall l, (l < L)%nat -> -1 < c (2 ^ l)%nat < 1) ->
        0 <= fst (allele_entropy X e))
    /\ ((forall l, (l < L)%nat -> c (2 ^ l)%nat = 0) ->
        fst (allele_entropy X e) = INR L * ln 2).
Proof.
  intros gsl_rng X e L c.
  assert (Hval : fst (allele_entropy X e)
                 = sum_upto L (fun l => locus_entropy (c (Nat.shiftl 1 l)))).
  { unfold allele_entropy, get_state, c. simpl. rewrite allele_entropy_loop. fold L.
    destruct (state (population e)); reflexivity. }
  split; [|split; [|split]].
  - unfold allele_entropy, get_state, c. simpl. fold L.
    destruct (state (population e)); reflexivity.
  - unfold allele_entropy, get_state. simpl.
    destruct (state (population e)); reflexivity.
  - intros Hc. rewrite Hval. apply sum_upto_nonneg. intros l Hl.
    rewrite Nat.shiftl_1_l. destruct (Hc l Hl) as [Hlo Hhi].
    unfold locus_entropy.
    pose proof (ln_nonpos (0.5 * (1 + c (2 ^ l)%nat)) ltac:(lra) ltac:(lra)).
    pose proof (ln_nonpos (0.5 * (1 - c (2 ^ l)%nat)) ltac:(lra) ltac:(lra)).
    nra.
  - intros Hz. rewrite Hval.
    rewrite (sum_upto_ext L _ (fun _ => ln 2)).
    + apply sum_upto_const.
    + intros l Hl. rewrite Nat.shiftl_1_l, (Hz l Hl). unfold locus_entropy.
      replace (0.5 * (1 + 0)) with (/ 2) by lra.
      replace (0.5 * (1 - 0)) with (/ 2) by lra.
      rewrite ln_Rinv by lra. lra.
Qed.

Lemma allele_entropy_values_witness :
  fst (allele_entropy sample_env
         (with_population (sample_engine true [1/2; 1/2] [0; 0])
            (mk_hypercube HC_COEFF zero_array zero_array)))
  = INR 1 * ln 2.
Proof.
  apply (allele_entropy_values unit sample_env
           (with_population (sample_engine true [1/2; 1/2] [0; 0])
              (mk_hypercube HC_COEFF zero_array zero_array))).
  intros l Hl. reflexivity.
Defined.

(** ** The table of recombination patterns *)

Lemma upd2_twice (t : dtable) (s i : nat) (a b : R) :
  upd2 (upd2 t s i a) s i b = upd2 t s i b.
Proof.
  apply functional_extensionality. intros k. apply functional_extensionality. intros j.
  unfold upd2, upd. destruct (Nat.eqb k s) eqn:Ek; [|reflexivity].
  rewrite Nat.eqb_refl. destruct (Nat.eqb j i); reflexivity.
Qed.

Lemma crossover_product_S (L : nat) (rec_rates : darray) (i n : nat) :
  crossover_product L rec_rates i (S n)
  = crossover_product L rec_rates i n * crossover_factor L rec_rates i n.
Proof. unfold crossover_product. now rewrite for_range_S. Qed.

(** The loop over the loci of one crossover realization: the cell holds the
    product of the factors, [strand] is the strand at the last locus seen,
    and [strandswitches] is even exactly when that strand is the first. *)
Lemma crossover_loop (L : nat) (rec_rates : darray) (full i : nat) (tbl : dtable) (n : nat) :
  exists switches : nat,
    for_range 0 n (crossover_step rec_rates full i)
      (upd2 tbl full i 1, has_bit i (L - 1), 0%nat)
    = (upd2 tbl full i (crossover_product L rec_rates i n),
       has_bit i (match n with O => (L - 1)%nat | S l => l end), switches)
    /\ Nat.even switches
       = Bool.eqb (has_bit i (L - 1)) (has_bit i (match n with O => (L - 1)%nat | S l => l end)).
Proof.
  induction n as [|n (sw & Hrun & Hpar)].
  - exists 0%nat. split; [reflexivity|]. simpl. now rewrite eqb_reflx.
  - rewrite for_range_S, Hrun. simpl Nat.add. unfold crossover_step.
    rewrite upd2_same, !upd2_twice, crossover_product_S. unfold crossover_factor.
    destruct (Bool.eqb (has_bit i match n with O => (L - 1)%nat | S l => l end) (has_bit i n))
      eqn:E.
    + exists sw. split; [reflexivity|]. rewrite Hpar.
      apply eqb_prop in E. now rewrite E.
    + exists (S sw). split; [reflexivity|]. rewrite Nat.even_succ, <- Nat.negb_even, Hpar.
      destruct (has_bit i (L - 1)), (has_bit i n),
        (has_bit i match n with O => (L - 1)%nat | S l => l end); try reflexivity; discriminate.
Qed.

Lemma even_mod2 (n : nat) : Nat.even n = true -> (n mod 2 =? 0)%nat = true.
Proof.
  intros H. apply Nat.even_spec in H. destruct H as [q ->].
  rewrite Nat.mul_comm, Nat.Div0.mod_mul. reflexivity.
Qed.

(** The number of strand switches is even, so the test on its parity never
    clears the cell. *)
Lemma crossover_realization_value (L : nat) (rec_rates : darray) (i : nat)
    (tbl : dtable) (sum : R) :
  crossover_realization L rec_rates i (tbl, sum)
  = (upd2 tbl (Nat.shiftl 1 L - 1) i (crossover_weight L rec_rates i),
     sum + crossover_weight L rec_rates i).
Proof.
  unfold crossover_realization.
  destruct (crossover_loop L rec_rates (Nat.shiftl 1 L - 1) i tbl L) as (sw & Hrun & Hpar).
  rewrite Hrun.
  assert (Heven : Nat.even sw = true).
  { rewrite Hpar. destruct L; [|rewrite Nat.sub_succ, Nat.sub_0_r]; apply eqb_reflx. }
  rewrite (even_mod2 sw Heven). simpl. now rewrite upd2_same.
Qed.
Lemma crossover_realizations_loop (L : nat) (rec_rates : darray) (tbl : dtable) (n : nat) :
  for_range 0 n (crossover_realization L rec_rates) (tbl, 0)
  = (for_range 0 n
       (fun i t => upd2 t (Nat.shiftl 1 L - 1) i (crossover_weight L rec_rates i)) tbl,
     sum_upto n (crossover_weight L rec_rates)).
Proof.
  induction n as [|n IH]; [reflexivity|].
  rewrite !for_range_S, IH, crossover_realization_value, sum_upto_S. reflexivity.
Qed.

Lemma for_range_row_cells (g : nat -> R -> R) (row n : nat) (tbl : dtable) (s j : nat) :
  for_range 0 n (fun i t => upd2 t row i (g i (t row i))) tbl s j
  = if Nat.eqb s row && (j <? n) then g j (tbl row j) else tbl s j.
Proof.
  induction n as [|n IH].
  - rewrite for_range_0. now rewrite andb_false_r.
  - rewrite for_range_S. simpl Nat.add.
    destruct (Nat.eqb_spec s row) as [->|Hs]; simpl.
    + destruct (Nat.eq_dec j n) as [->|Hj].
      * rewrite upd2_same.
        replace (n <? S n) with true by (symmetry; apply Nat.ltb_lt; lia).
        f_equal. rewrite Nat.ltb_irrefl in IH. exact IH.
      * rewrite upd2_other_col by assumption. simpl in IH. rewrite IH.
        destruct (Nat.ltb_spec j n), (Nat.ltb_spec j (S n)); try reflexivity; lia.
    + rewrite upd2_other_row by assumption.
      exact IH.
Qed.

(** The row of the full set of loci after the two loops of [full_pattern]. *)
Lemma full_pattern_value (L : nat) (rec_rates : darray) (tbl : dtable) (s j : nat) :
  full_pattern L rec_rates tbl s j
  = if Nat.eqb s (2 ^ L - 1) && (j <? 2 ^ L)
    then crossover_weight L rec_rates j / sum_upto (2 ^ L) (crossover_weight L rec_rates)
    else tbl s j.
Proof.
  unfold full_pattern. rewrite crossover_realizations_loop.
  rewrite (for_range_row_cells
             (fun _ x => x / sum_upto (Nat.shiftl 1 L) (crossover_weight L rec_rates))).
  rewrite !(for_range_row_cells (fun i _ => crossover_weight L rec_rates i)).
  rewrite Nat.eqb_refl, !Nat.shiftl_1_l.
  destruct (Nat.eqb s (2 ^ L - 1)); simpl; [|reflexivity].
  destruct (j <? 2 ^ L); reflexivity.
Qed.

(** The marginalization writes the rows of the subsets of order below [L]
    only. *)
Lemma marginalize_keeps_row (L : nat) (T : dtable) (s j : nat) :
  (L <= order L s)%nat -> marginalize L T s j = T s j.
Proof.
  intros Ho. rewrite marginalize_fold.
  assert (H : forall l, (forall k, In k l -> (k < L)%nat) ->
            fold_right (fun k acc => for_range 0 (Nat.shiftl 1 L) (marginalize_subset L k) acc)
              T l s j = T s j).
  { induction l as [|k l IH]; intros Hl; [reflexivity|].
    simpl fold_right. rewrite marginalize_subset_loop.
    assert (Hk : (k < L)%nat) by (apply Hl; now left).
    destruct (Nat.eqb_spec (order L s) k) as [E|E]; [lia|].
    rewrite andb_false_r. simpl. apply IH. intros k' Hk'. apply Hl. now right. }
  apply H. intros k Hk. apply in_seq in Hk. lia.
Qed.

Lemma order_full (L : nat) : order L (2 ^ L - 1) = L.
Proof.
  apply order_all_set. intros k Hk.
  replace (2 ^ L - 1)%nat with (Nat.ones L) by (rewrite Nat.ones_equiv; lia).
  now apply Nat.ones_spec_low.
Qed.

(** The table that a successful call of [set_recombination_rates] leaves. *)
Lemma set_recombination_rates_table (gsl_rng : Type) (X : hg_env gsl_rng)
    (heap : new_outcome) (rec_rates : darray) (e : haploid_gt_dis gsl_rng) :
  HG_MEMERR X <> 0%Z ->
  fst (set_recombination_rates X heap rec_rates e) = 0%Z ->
  exists T0 : dtable,
    snd (set_recombination_rates X heap rec_rates e)
    = with_free_recombination
        (with_recombination_patters e
           (marginalize (number_of_loci e) (full_pattern (number_of_loci e) rec_rates T0)))
        false.
Proof.
  intros Hmem Hok. unfold set_recombination_rates in *.
  destruct (free_recombination e).
  - destruct heap as [|failed fresh]; [now elim Hmem|].
    destruct (Nat.eqb failed 0); [|now elim Hmem].
    now exists fresh.
  - now exists (recombination_patters e).
Qed.

(** X21: after a successful call of [set_recombination_rates] the row of
    the full set of loci holds, for each crossover realization, the
    product of its factors over the loci divided by the sum of these
    products: the strand switches of a realization are always even in
    number, so no cell is cleared by the parity test. *)
Theorem full_pattern_closed_form :
  forall (gsl_rng : Type) (X : hg_env gsl_rng) (heap : new_outcome) (rec_rates : darray)
         (e : haploid_gt_dis gsl_rng),
    HG_MEMERR X <> 0%Z ->
    fst (set_recombination_rates X heap rec_rates e) = 0%Z ->
    let L := number_of_loci e in
    let T := recombination_patters (snd (set_recombination_rates X heap rec_rates e)) in
    forall i, (i < 2 ^ L)%nat ->
      T (2 ^ L - 1)%nat i
      = crossover_weight L rec_rates i / sum_upto (2 ^ L) (crossover_weight L rec_rates).
Proof.
  intros gsl_rng X heap rec_rates e Hmem Hok L T i Hi. unfold T.
  destruct (set_recombination_rates_table gsl_rng X heap rec_rates e Hmem Hok) as [T0 ->].
  simpl. fold L. rewrite marginalize_keeps_row by (rewrite order_full; lia).
  rewrite full_pattern_value, Nat.eqb_refl.
  apply Nat.ltb_lt in Hi. now rewrite Hi.
Qed.

Lemma full_pattern_closed_form_witness :
  recombination_patters
    (snd (set_recombination_rates sample_env (rows_allocated 0 zero_table)
            zero_array (sample_engine true [1] [0]))) (2 ^ 1 - 1)%nat 0%nat
  = crossover_weight 1 zero_array 0 / sum_upto (2 ^ 1) (crossover_weight 1 zero_array).
Proof.
  assert (Hmem : HG_MEMERR sample_env <> 0%Z) by (simpl; lia).
  apply (full_pattern_closed_form unit sample_env (rows_allocated 0 zero_table)
           zero_array (sample_engine true [1] [0]) Hmem eq_refl 0%nat).
  simpl. lia.
Defined.
(** Every subset of the [L] loci is reached from the full set by taking
    away, one at a time, the lowest absent locus. *)
Lemma subsets_downward (L : nat) (P : nat -> Prop) :
  P (2 ^ L - 1)%nat ->
  (forall s m, (s < 2 ^ L - 1)%nat -> find_marg_locus L s = Some m ->
     P (s + 2 ^ m)%nat -> P s) ->
  forall s, (s < 2 ^ L)%nat -> P s.
Proof.
  intros Hfull Hstep.
  assert (H : forall d s, (s < 2 ^ L)%nat -> (L - order L s <= d)%nat -> P s).
  { induction d as [|d IH]; intros s Hs Hd.
    - replace s with (2 ^ L - 1)%nat; [assumption|].
      symmetry. apply all_bits_full; [assumption|].
      apply order_full_bits. pose proof (order_le L s). lia.
    - destruct (Nat.eq_dec s (2 ^ L - 1)) as [->|Hne]; [assumption|].
      assert (Hlt : (s < 2 ^ L - 1)%nat) by lia.
      destruct (find_marg_locus_some L s Hlt) as [m E].
      destruct (find_marg_locus_lowest L s m E) as (Hm & Hbit & _).
      apply (Hstep s m Hlt E). apply IH.
      + now apply setbit_lt.
      + rewrite order_add_pow2 by assumption. lia. }
  intros s Hs. apply (H L s Hs). lia.
Qed.

Lemma marginalize_row_sums (L : nat) (T0 : dtable) (s m : nat) :
  (s < 2 ^ L - 1)%nat -> find_marg_locus L s = Some m ->
  forall r, (r < 2 ^ order L s)%nat ->
    marginalize L T0 s r
    = marginalize L T0 (s + 2 ^ m)%nat (insert_bit r m false)
      + marginalize L T0 (s + 2 ^ m)%nat (insert_bit r m true).
Proof.
  intros Hs E r Hr.
  pose proof (find_marg_locus_lowest L s m E) as Hlow.
  pose proof (order_strict L s Hs) as Ho.
  assert (Hrow : marginalized_row L (marginalize L T0) s).
  { rewrite marginalize_fold. apply (marginalize_rows L T0 L 0); lia. }
  rewrite (Hrow r Hr). unfold marginal_value. rewrite E.
  destruct (higher_order_pattern_insert (order L s) m r Hr (order_lowest L s m Hlow))
    as [-> ->].
  now rewrite Nat.shiftl_1_l.
Qed.

Section Patterns.

Local Open Scope nat_scope.

(** The pattern read for [r] lies in the row of the larger subset. *)
Lemma insert_bit_lt (k m r : nat) (b : bool) :
  r < 2 ^ k -> m <= k -> insert_bit r m b < 2 ^ S k.
Proof.
  intros Hr Hmk. unfold insert_bit.
  assert (Hlo : r mod 2 ^ m < 2 ^ m) by (apply Nat.mod_upper_bound, Nat.pow_nonzero; discriminate).
  assert (Hhi : r / 2 ^ m < 2 ^ (k - m)).
  { apply Nat.Div0.div_lt_upper_bound. rewrite <- Nat.pow_add_r.
    now replace (m + (k - m)) with k by lia. }
  assert (Hk : 2 ^ S k = 2 ^ S m * 2 ^ (k - m))
    by (rewrite <- Nat.pow_add_r; f_equal; lia).
  rewrite Hk. rewrite (Nat.pow_succ_r' 2 m) in *.
  pose proof (pow2_pos m). destruct b; nia.
Qed.

Lemma insert_bit_split (m lo hi : nat) (b : bool) :
  lo < 2 ^ m ->
  insert_bit (lo + 2 ^ m * hi) m b = lo + 2 ^ m * ((if b then 1 else 0) + 2 * hi).
Proof.
  intros Hlo. unfold insert_bit.
  assert (Hnz : 2 ^ m <> 0) by (apply Nat.pow_nonzero; discriminate).
  rewrite (Nat.mul_comm (2 ^ m) hi), Nat.Div0.mod_add, Nat.div_add by assumption.
  rewrite Nat.mod_small, Nat.div_small by assumption.
  rewrite Nat.pow_succ_r'. destruct b; nia.
Qed.

End Patterns.

(** A sum over [n * m] cells taken block by block. *)
Lemma sum_upto_blocks (n m : nat) (a : darray) :
  sum_upto (n * m) a
  = sum_upto m (fun hi => sum_upto n (fun lo => a (lo + n * hi)%nat)).
Proof.
  induction m as [|m IH].
  - rewrite Nat.mul_0_r. reflexivity.
  - rewrite Nat.mul_succ_r, sum_upto_app, IH, sum_upto_S. f_equal.
    apply sum_upto_ext. intros i _. f_equal. lia.
Qed.

(** The two patterns read for each [r] below [2^k] are together all the
    patterns below [2^(k+1)], each once. *)
Lemma sum_upto_insert_bit (k m : nat) (a : darray) :
  (m <= k)%nat ->
  sum_upto (2 ^ k) (fun r => a (insert_bit r m false) + a (insert_bit r m true))
  = sum_upto (2 ^ S k) a.
Proof.
  intros Hmk.
  replace (2 ^ k)%nat with (2 ^ m * 2 ^ (k - m))%nat
    by (rewrite <- Nat.pow_add_r; f_equal; lia).
  replace (2 ^ S k)%nat with (2 ^ m * (2 * 2 ^ (k - m)))%nat
    by (rewrite <- Nat.pow_succ_r', <- Nat.pow_add_r; f_equal; lia).
  rewrite (sum_upto_blocks (2 ^ m) (2 ^ (k - m))).
  rewrite (sum_upto_blocks (2 ^ m) (2 * 2 ^ (k - m))).
  rewrite (sum_upto_blocks 2 (2 ^ (k - m))).
  apply sum_upto_ext. intros hi _.
  change 2%nat with (S (S 0)) at 3. rewrite !sum_upto_S.
  unfold sum_upto at 2. simpl Rsum.
  rewrite Rplus_0_l, <- sum_upto_plus. apply sum_upto_ext. intros lo Hlo.
  rewrite !insert_bit_split by assumption. f_equal; f_equal; lia.
Qed.
Lemma exp_minus_le_1 (x : R) : 0 <= x -> exp (- 2 * x) <= 1.
Proof.
  intros [Hx|<-].
  - rewrite <- exp_0. left. apply exp_increasing. lra.
  - replace (- 2 * 0) with 0 by lra. rewrite exp_0. lra.
Qed.

Lemma crossover_factor_nonneg (L : nat) (rec_rates : darray) (i locus : nat) :
  0 <= rec_rates locus -> 0 <= crossover_factor L rec_rates i locus.
Proof.
  intros Hr. unfold crossover_factor.
  pose proof (exp_pos (- 2 * rec_rates locus)).
  pose proof (exp_minus_le_1 (rec_rates locus) Hr).
  destruct (Bool.eqb _ _); lra.
Qed.

Lemma crossover_weight_nonneg (L : nat) (rec_rates : darray) (i : nat) :
  (forall l, (l < L)%nat -> 0 <= rec_rates l) -> 0 <= crossover_weight L rec_rates i.
Proof.
  intros Hr. unfold crossover_weight.
  assert (H : forall n, (n <= L)%nat -> 0 <= crossover_product L rec_rates i n).
  { induction n as [|n IH]; intros Hn; [unfold crossover_product; rewrite for_range_0; lra|].
    rewrite crossover_product_S. apply Rmult_le_pos; [apply IH; lia|].
    apply crossover_factor_nonneg, Hr. lia. }
  now apply H.
Qed.

(** The realization without any crossover has a positive weight. *)
Lemma crossover_weight_0_pos (L : nat) (rec_rates : darray) :
  0 < crossover_weight L rec_rates 0.
Proof.
  unfold crossover_weight. generalize L at 2. intros n.
  induction n as [|n IH]; [unfold crossover_product; rewrite for_range_0; lra|].
  rewrite crossover_product_S. apply Rmult_lt_0_compat; [assumption|].
  unfold crossover_factor. rewrite !has_bit_testbit, !Nat.bits_0. simpl.
  pose proof (exp_pos (- 2 * rec_rates n)). lra.
Qed.

Lemma crossover_weights_sum_pos (L : nat) (rec_rates : darray) :
  (forall l, (l < L)%nat -> 0 <= rec_rates l) ->
  0 < sum_upto (2 ^ L) (crossover_weight L rec_rates).
Proof.
  intros Hr. apply (sum_upto_pos _ _ 0%nat).
  - intros i _. now apply crossover_weight_nonneg.
  - apply pow2_pos.
  - apply crossover_weight_0_pos.
Qed.

(** X22: with recombination rates that are not negative, every row of the
    table that a successful call of [set_recombination_rates] leaves is a
    probability distribution over the partitions of its subset: the
    [2^order] cells of the row of [s] are not negative and sum to 1. *)
Theorem pattern_rows_are_distributions :
  forall (gsl_rng : Type) (X : hg_env gsl_rng) (heap : new_outcome) (rec_rates : darray)
         (e : haploid_gt_dis gsl_rng),
    HG_MEMERR X <> 0%Z ->
    fst (set_recombination_rates X heap rec_rates e) = 0%Z ->
    let L := number_of_loci e in
    let T := recombination_patters (snd (set_recombination_rates X heap rec_rates e)) in
    (forall l, (l < L)%nat -> 0 <= rec_rates l) ->
    forall s, (s < 2 ^ L)%nat ->
      (forall r, (r < 2 ^ order L s)%nat -> 0 <= T s r)
      /\ sum_upto (2 ^ order L s) (T s) = 1.
Proof.
  intros gsl_rng X heap rec_rates e Hmem Hok L T Hr. unfold T. clear T.
  destruct (set_recombination_rates_table gsl_rng X heap rec_rates e Hmem Hok) as [T0 ->].
  simpl. fold L. pose proof (crossover_weights_sum_pos L rec_rates Hr) as Hsum.
  apply (subsets_downward L
           (fun s => (forall r, (r < 2 ^ order L s)%nat ->
                        0 <= marginalize L (full_pattern L rec_rates T0) s r)
                     /\ sum_upto (2 ^ order L s)
                          (marginalize L (full_pattern L rec_rates T0) s) = 1)).
  - rewrite order_full.
    assert (Hcell : forall r, (r < 2 ^ L)%nat ->
              marginalize L (full_pattern L rec_rates T0) (2 ^ L - 1)%nat r
              = crossover_weight L rec_rates r
                * / sum_upto (2 ^ L) (crossover_weight L rec_rates)).
    { intros r Hlt. rewrite marginalize_keeps_row by (rewrite order_full; lia).
      rewrite full_pattern_value, Nat.eqb_refl. apply Nat.ltb_lt in Hlt.
      now rewrite Hlt. }
    split.
    + intros r Hlt. rewrite (Hcell r Hlt). apply Rmult_le_pos.
      * now apply crossover_weight_nonneg.
      * left. now apply Rinv_0_lt_compat.
    + rewrite (sum_upto_ext _ _ _ Hcell), sum_upto_scale. field. lra.
  - intros s m Hs E [Hpos Hone].
    destruct (find_marg_locus_lowest L s m E) as (Hm & Hbit & Hlow).
    rewrite order_add_pow2 in Hpos, Hone by assumption.
    assert (Hmk : (m <= order L s)%nat) by (apply order_lowest; repeat split; assumption).
    split.
    + intros r Hlt. rewrite (marginalize_row_sums L _ s m Hs E r Hlt).
      pose proof (Hpos _ (insert_bit_lt (order L s) m r false Hlt Hmk)).
      pose proof (Hpos _ (insert_bit_lt (order L s) m r true Hlt Hmk)). lra.
    + rewrite (sum_upto_ext _ _ _ (marginalize_row_sums L _ s m Hs E)).
      rewrite (sum_upto_insert_bit (order L s) m
                 (marginalize L (full_pattern L rec_rates T0) (s + 2 ^ m)%nat) Hmk).
      exact Hone.
Qed.

Lemma pattern_rows_are_distributions_witness :
  (forall r, (r < 2 ^ order 1 0)%nat ->
     0 <= recombination_patters
            (snd (set_recombination_rates sample_env (rows_allocated 0 zero_table)
                    zero_array (sample_engine true [1] [0]))) 0%nat r)
  /\ sum_upto (2 ^ order 1 0)
       (recombination_patters
          (snd (set_recombination_rates sample_env (rows_allocated 0 zero_table)
                  zero_array (sample_engine true [1] [0]))) 0%nat) = 1.
Proof.
  assert (Hmem : HG_MEMERR sample_env <> 0%Z) by (simpl; lia).
  apply (pattern_rows_are_distributions unit sample_env (rows_allocated 0 zero_table)
           zero_array (sample_engine true [1] [0]) Hmem eq_refl).
  - intros l _. unfold zero_array. lra.
  - simpl. lia.
Defined.

(** X23: the cells of the table that a successful call of
    [set_recombination_rates] leaves depend on the number of loci and on
    the rates only: not on what the new storage held, nor on the table the
    engine had before. *)
Theorem pattern_table_ignores_storage :
  forall (gsl_rng : Type) (X : hg_env gsl_rng) (heap1 heap2 : new_outcome)
         (rec_rates : darray) (e1 e2 : haploid_gt_dis gsl_rng),
    HG_MEMERR X <> 0%Z ->
    number_of_loci e1 = number_of_loci e2 ->
    fst (set_recombination_rates X heap1 rec_rates e1) = 0%Z ->
    fst (set_recombination_rates X heap2 rec_rates e2) = 0%Z ->
    let L := number_of_loci e1 in
    forall s, (s < 2 ^ L)%nat -> forall r, (r < 2 ^ order L s)%nat ->
      recombination_patters (snd (set_recombination_rates X heap1 rec_rates e1)) s r
      = recombination_patters (snd (set_recombination_rates X heap2 rec_rates e2)) s r.
Proof.
  intros gsl_rng X heap1 heap2 rec_rates e1 e2 Hmem HL Hok1 Hok2 L.
  destruct (set_recombination_rates_table gsl_rng X heap1 rec_rates e1 Hmem Hok1) as [T1 ->].
  destruct (set_recombination_rates_table gsl_rng X heap2 rec_rates e2 Hmem Hok2) as [T2 ->].
  simpl. rewrite <- HL. fold L.
  apply (subsets_downward L
           (fun s => forall r, (r < 2 ^ order L s)%nat ->
              marginalize L (full_pattern L rec_rates T1) s r
              = marginalize L (full_pattern L rec_rates T2) s r)).
  - intros r Hlt. rewrite order_full in Hlt.
    rewrite !marginalize_keeps_row by (rewrite order_full; lia).
    rewrite !full_pattern_value, Nat.eqb_refl. apply Nat.ltb_lt in Hlt.
    now rewrite Hlt.
  - intros s m Hs E IH r Hlt.
    destruct (find_marg_locus_lowest L s m E) as (Hm & Hbit & Hlow).
    assert (Hmk : (m <= order L s)%nat) by (apply order_lowest; repeat split; assumption).
    rewrite !(marginalize_row_sums L _ s m Hs E r Hlt).
    rewrite !IH; [reflexivity| |];
      rewrite order_add_pow2 by assumption; now apply insert_bit_lt.
Qed.

Lemma pattern_table_ignores_storage_witness :
  recombination_patters
    (snd (set_recombination_rates sample_env (rows_allocated 0 zero_table)
            zero_array (sample_engine true [1] [0]))) 0%nat 0%nat
  = recombination_patters
      (snd (set_recombination_rates sample_env (rows_allocated 0 (fun _ _ => 7))
              zero_array (sample_engine true [1] [0]))) 0%nat 0%nat.
Proof.
  assert (Hmem : HG_MEMERR sample_env <> 0%Z) by (simpl; lia).
  apply (pattern_table_ignores_storage unit sample_env (rows_allocated 0 zero_table)
           (rows_allocated 0 (fun _ _ => 7)) zero_array
           (sample_engine true [1] [0]) (sample_engine true [1] [0])
           Hmem eq_refl eq_refl eq_refl 0%nat); simpl; lia.
Defined.
Section Allocation.

Local Open Scope nat_scope.

Lemma order_0 (L : nat) : order L 0 = 0.
Proof.
  induction L as [|L IH]; [reflexivity|]. now rewrite order_S, IH, Nat.bits_0.
Qed.

Lemma shiftl_1_of_nat (k : nat) : Z.shiftl 1 (Z.of_nat k) = Z.of_nat (2 ^ k).
Proof.
  rewrite Z.shiftl_1_l, Nat2Z.inj_pow. reflexivity.
Qed.

(** [spin] is moved up exactly when [i] is the next power of two, so it is
    the position of the highest one of [i]. *)
Lemma log2_next (n : nat) :
  0 < n ->
  Nat.log2 (S n) = if Nat.eqb (S n) (2 ^ S (Nat.log2 n)) then S (Nat.log2 n) else Nat.log2 n.
Proof.
  intros Hn. destruct (Nat.eqb_spec (S n) (2 ^ S (Nat.log2 n))) as [E|E].
  - rewrite E. apply Nat.log2_pow2. lia.
  - destruct (Nat.log2_succ_or n) as [H|H]; [|assumption].
    exfalso. apply E. rewrite <- H.
    apply Nat.log2_eq_succ_iff_pow2 in H; [|assumption].
    destruct H as [b Hb]. rewrite Hb, Nat.log2_pow2 by lia. reflexivity.
Qed.

(** Taking the highest one away from [i] takes one from its order. *)
Lemma order_highest (L i : nat) :
  0 < i < 2 ^ L -> order L i = S (order L (i - 2 ^ Nat.log2 i)).
Proof.
  intros [Hpos Hlt].
  destruct (Nat.log2_spec i Hpos) as [Hlo Hhi].
  assert (HL : Nat.log2 i < L) by (now apply Nat.log2_lt_pow2).
  rewrite <- (order_add_pow2 L (i - 2 ^ Nat.log2 i) (Nat.log2 i) HL).
  - f_equal. lia.
  - apply testbit_below. rewrite Nat.pow_succ_r' in Hhi. lia.
Qed.

Lemma nspins_loop (L : nat) (nspins : nat_array) (n : nat) :
  n < 2 ^ L ->
  exists ns : nat_array,
    for_range 1 n nspins_step ((-1)%Z, upd_nat nspins 0 0)
    = ((if Nat.eqb n 0 then (-1)%Z else Z.of_nat (Nat.log2 n)), ns)
    /\ forall j, j <= n -> ns j = order L j.
Proof.
  induction n as [|n IH]; intros Hn.
  - exists (upd_nat nspins 0 0). split; [reflexivity|].
    intros j Hj. replace j with 0 by lia. rewrite order_0. reflexivity.
  - destruct IH as (ns & Hrun & Hns); [lia|].
    rewrite for_range_S, Hrun. simpl Nat.add. simpl Nat.eqb. unfold nspins_step.
    set (spin := if Z.eqb (Z.of_nat (S n))
                      (Z.shiftl 1 ((if Nat.eqb n 0 then (-1)%Z else Z.of_nat (Nat.log2 n)) + 1))
                 then ((if Nat.eqb n 0 then (-1)%Z else Z.of_nat (Nat.log2 n)) + 1)%Z
                 else (if Nat.eqb n 0 then (-1)%Z else Z.of_nat (Nat.log2 n))).
    assert (Hspin : spin = Z.of_nat (Nat.log2 (S n))).
    { unfold spin. destruct (Nat.eqb_spec n 0) as [->|Hne]; [reflexivity|].
      rewrite log2_next by lia.
      replace (Z.of_nat (Nat.log2 n) + 1)%Z with (Z.of_nat (S (Nat.log2 n))) by lia.
      rewrite shiftl_1_of_nat.
      destruct (Nat.eqb_spec (S n) (2 ^ S (Nat.log2 n))) as [E|E].
      - rewrite <- E, Z.eqb_refl. reflexivity.
      - destruct (Z.eqb_spec (Z.of_nat (S n)) (Z.of_nat (2 ^ S (Nat.log2 n)))) as [E'|E'];
          [now apply Nat2Z.inj in E'|reflexivity]. }
    rewrite Hspin, shiftl_1_of_nat, <- Nat2Z.inj_sub, Nat2Z.id
      by (apply Nat.log2_spec; lia).
    eexists. split; [reflexivity|].
    intros j Hj. unfold upd_nat.
    destruct (Nat.eqb_spec j (S n)) as [->|Hne].
    + rewrite (order_highest L (S n)) by lia. rewrite Hns; [reflexivity|].
      pose proof (pow2_pos (Nat.log2 (S n))). lia.
    + apply Hns. lia.
Qed.

End Allocation.

Lemma nspins_table_order (L : nat) (nspins : nat_array) (i : nat) :
  (i < 2 ^ L)%nat -> nspins_table L nspins i = order L i.
Proof.
  intros Hi. unfold nspins_table. rewrite Nat.shiftl_1_l.
  pose proof (pow2_pos L) as HL.
  destruct (nspins_loop L nspins (2 ^ L - 1)) as (ns & Hrun & Hns); [lia|].
  rewrite Hrun. simpl. apply Hns. lia.
Qed.

(** X24: the table [nspins] that sizes the rows of the pattern table holds,
    for every subset of the loci, the number of its loci, whatever the new
    array held: the row of the subset [i] gets [2^order] cells. *)
Theorem nspins_counts_loci :
  forall (L : nat) (nspins : nat_array) (i : nat),
    (i < 2 ^ L)%nat -> nspins_table L nspins i = order L i.
Proof.
  intros L nspins i Hi. now apply nspins_table_order.
Qed.

Lemma nspins_counts_loci_witness :
  nspins_table 2 (fun _ => 5%nat) 3%nat = order 2 3.
Proof.
  apply (nspins_counts_loci 2 (fun _ => 5%nat) 3%nat). simpl. lia.
Defined.

(** X25: the marginalization stays inside the rows as they are allocated:
    for a strict subset [s] of the loci the locus [marg_locus] is found,
    the larger subset is a subset of the loci, the cell written lies in the
    row of [s] and the two cells read lie in the row of the larger
    subset. *)
Theorem marginalization_stays_in_rows :
  forall (L : nat) (nspins : nat_array) (s : nat),
    (s < 2 ^ L - 1)%nat ->
    exists marg_locus,
      find_marg_locus L s = Some marg_locus
      /\ (s + Nat.shiftl 1 marg_locus < 2 ^ L)%nat
      /\ forall rec_pattern, (rec_pattern < Nat.shiftl 1 (order L s))%nat ->
           (rec_pattern < Nat.shiftl 1 (nspins_table L nspins s))%nat
           /\ (higher_order_pattern (order L s) marg_locus rec_pattern
               + Nat.shiftl 1 marg_locus
               < Nat.shiftl 1 (nspins_table L nspins (s + Nat.shiftl 1 marg_locus)))%nat.
Proof.
  intros L nspins s Hs.
  destruct (find_marg_locus_some L s Hs) as [m E]. exists m.
  pose proof (find_marg_locus_lowest L s m E) as Hlow.
  destruct Hlow as (Hm & Hbit & Hall).
  assert (Hmk : (m <= order L s)%nat) by (apply order_lowest; repeat split; assumption).
  assert (Hh : (s + 2 ^ m < 2 ^ L)%nat) by (apply setbit_lt; [lia|assumption..]).
  rewrite !Nat.shiftl_1_l. split; [assumption|]. split; [assumption|].
  intros r Hr. rewrite !nspins_table_order by (assumption || lia).
  split; [assumption|].
  rewrite order_add_pow2 by assumption.
  destruct (higher_order_pattern_insert (order L s) m r Hr Hmk) as [_ Hins].
  rewrite Nat.shiftl_1_l in Hins. rewrite Hins. now apply insert_bit_lt.
Qed.

Lemma marginalization_stays_in_rows_witness :
  exists marg_locus,
    find_marg_locus 2 1 = Some marg_locus
    /\ (1 + Nat.shiftl 1 marg_locus < 2 ^ 2)%nat
    /\ forall rec_pattern, (rec_pattern < Nat.shiftl 1 (order 2 1))%nat ->
         (rec_pattern < Nat.shiftl 1 (nspins_table 2 (fun _ => 0%nat) 1%nat))%nat
         /\ (higher_order_pattern (order 2 1) marg_locus rec_pattern
             + Nat.shiftl 1 marg_locus
             < Nat.shiftl 1 (nspins_table 2 (fun _ => 0%nat) (1 + Nat.shiftl 1 marg_locus)))%nat.
Proof.
  apply (marginalization_stays_in_rows 2 (fun _ => 0%nat) 1%nat). simpl. lia.
Defined.
